(** * PyMAGEMin: garnet growth and fractionation along a P-T path

    A shallow embedding of [GarnetDiffusion/functions/MAGEMin_functions.py].

    Conventions of the embedding.

    - Python floats and numpy float64 values are modelled by exact
      rationals ([Qc], canonical fractions, so that equality is Leibniz
      equality).  The non-finite floats are not modelled.  Rounding is
      modelled where a statement depends on it: the reconstruction of
      the volume fractions is embedded a second time with a rounding
      after every operation (section "Rounded arithmetic").
    - A Python expression that may raise is an [option]: [None] stands for
      "an exception propagates".  [try: ... except: ...] is [try_except].
    - numpy arrays and Python lists are [list]s; [a[i]] is [a !! i] and
      [a[i] = v] is [setitem], which fails out of range as Python does.
    - Python dicts are [gmap string _].
    - The MAGEMin solver and the stoichiometric helper
      [calculate_molar_fractions] live outside this file of the repository;
      they are parameters of the development. *)

From Stdlib Require Import QArith Qcanon ZArith Lia Lqa Qround Qpower.
From stdpp Require Import base tactics option list numbers strings gmap.

Local Open Scope Qc_scope.

(** ** Python and numpy primitives *)

(** [list.index(x)]: position of the first occurrence; [ValueError]
    (here [None]) when there is none. *)
Fixpoint index {A} `{EqDecision A} (x : A) (l : list A) : option nat :=
  match l with
  | [] => None
  | y :: l' => if decide (y = x) then Some 0%nat else S <$> index x l'
  end.

(** [try: data = body / except: data = handler]. *)
Definition try_except {A} (body : option A) (handler : A) : A :=
  default handler body.

(** [a[i] = v] on a pre-sized array. *)
Definition setitem {A} (i : nat) (v : A) (a : list A) : option (list A) :=
  if decide (i < length a)%nat then Some (<[i:=v]> a) else None.

(** [np.zeros(n)]. *)
Definition np_zeros (n : nat) : list Qc := replicate n 0.

(** [sum(...)] and [np.sum], without rounding; [py_sum_fl] and the
    [np_sum] of the section on rounded arithmetic are their rounded
    counterparts. *)
Definition qsum (l : list Qc) : Qc := foldr Qcplus 0 l.

(** Python float division: [ZeroDivisionError] on a zero divisor. *)
Definition py_div (x y : Qc) : option Qc :=
  if decide (y = 0) then None else Some (x / y).

(** numpy elementwise binary operation on one-dimensional arrays, with
    numpy's broadcasting of a length-one operand; any other shape
    mismatch raises. *)
Definition np_binop (f : Qc -> Qc -> Qc) (a b : list Qc) : option (list Qc) :=
  if decide (length a = length b) then Some (zip_with f a b)
  else match a, b with
       | [x], _ => Some (map (f x) b)
       | _, [y] => Some (map (fun x => f x y) a)
       | _, _ => None
       end.

(** array times a scalar. *)
Definition np_scale (a : list Qc) (c : Qc) : list Qc :=
  map (fun x => x * c) a.

(** [x > 0] on floats. *)
Definition gt0 (x : Qc) : bool := bool_decide (0 < x).

(** ** The solver's output, as far as this file reads it *)

(** One entry of [SS_vec] (a solution phase). *)
Record SS_data := {
  emNames : list string;
  emFrac : list Qc;
  emFrac_wt : list Qc;
  Comp : list Qc;
  Comp_wt : list Qc;
  rho : Qc
}.

(** One entry of [PP_vec] (a pure phase); the source field is [rho]. *)
Record PP_data := { rho_PP : Qc }.

Record MAGEMinOutput := {
  ph : list string;
  ph_frac : list Qc;
  ph_frac_wt : list Qc;
  SS_vec : list SS_data;
  PP_vec : list PP_data;
  n_SS : nat;
  oxides : list string;
  bulk : list Qc;
  bulk_wt : list Qc
}.

(** ** Result extractors *)

Definition extract_end_member_mol_frac
    (phase : string) (MAGEMinOutput : MAGEMinOutput) (end_member : string) : Qc :=
  try_except
    (phase_ind ← index phase (ph MAGEMinOutput);
     ss ← SS_vec MAGEMinOutput !! phase_ind;
     em_index ← index end_member (emNames ss);
     emFrac ss !! em_index)
    0.

Definition extract_end_member_wt_frac
    (MAGEMinOutput : MAGEMinOutput) (phase : string) (end_member : string) : Qc :=
  try_except
    (phase_ind ← index phase (ph MAGEMinOutput);
     ss ← SS_vec MAGEMinOutput !! phase_ind;
     em_index ← index end_member (emNames ss);
     emFrac_wt ss !! em_index)
    0.

Definition extract_phase_mol_frac (phase : string) (MAGEMinOutput : MAGEMinOutput) : Qc :=
  try_except
    (phase_ind ← index phase (ph MAGEMinOutput);
     ph_frac MAGEMinOutput !! phase_ind)
    0.

Definition extract_phase_wt_frac (phase : string) (MAGEMinOutput : MAGEMinOutput) : Qc :=
  try_except
    (phase_ind ← index phase (ph MAGEMinOutput);
     ph_frac_wt MAGEMinOutput !! phase_ind)
    0.

(** [[j for j, p in enumerate(l) if p == name]], counting from [k]. *)
Fixpoint positions_from (k : nat) (name : string) (l : list string) : list nat :=
  match l with
  | [] => []
  | p :: l' =>
      if decide (p = name) then k :: positions_from (S k) name l'
      else positions_from (S k) name l'
  end.

Definition positions (name : string) (l : list string) : list nat :=
  positions_from 0 name l.

(** [SS_vec[j].rho if j < n_SS else PP_vec[j - n_SS].rho]. *)
Definition rho_at (MAGEMinOutput : MAGEMinOutput) (j : nat) : option Qc :=
  if decide (j < n_SS MAGEMinOutput)%nat
  then rho <$> SS_vec MAGEMinOutput !! j
  else rho_PP <$> PP_vec MAGEMinOutput !! (j - n_SS MAGEMinOutput)%nat.

(** The value stored in [V[i, 0]] for the phase name [name] of row [i]
    (the loop body of [extract_phase_vol_frac]). *)
Definition phase_volume (MAGEMinOutput : MAGEMinOutput) (name : string) : option Qc :=
  let id := positions name (ph MAGEMinOutput) in
  match id with
  | [] => Some 0
  | _ :: _ =>
      rhos ← mapM (rho_at MAGEMinOutput) id;
      rho ← py_div (qsum rhos) (Qc_of_Z (Z.of_nat (length id)));
      ws ← mapM (fun j => ph_frac_wt MAGEMinOutput !! j) id;
      py_div (qsum ws) rho
  end.

(** [V /= np.sum(V)].  On an empty array nothing is divided.  On a
    non-empty array with zero sum numpy stores nan or inf, which the
    rationals do not have: the model stops there. *)
Definition np_normalize (V : list Qc) : option (list Qc) :=
  match V with
  | [] => Some []
  | _ :: _ =>
      let total := qsum V in
      if decide (total = 0) then None else Some (map (fun v => v / total) V)
  end.

(** The array [V] of [extract_phase_vol_frac] after normalisation. *)
Definition volume_fractions (MAGEMinOutput : MAGEMinOutput) : option (list Qc) :=
  V ← mapM (phase_volume MAGEMinOutput) (ph MAGEMinOutput);
  np_normalize V.

Definition extract_phase_vol_frac (phase : string) (MAGEMinOutput : MAGEMinOutput) : option Qc :=
  V ← volume_fractions MAGEMinOutput;
  Some (try_except
          (phase_ind ← index phase (ph MAGEMinOutput);
           V !! phase_ind)
          0).

(** ** Single-point evaluator *)

(** The tuple returned by [gt_single_point_calc_endmembers]. *)
Record endmembers_result := {
  r_gt_frac : Qc;
  r_gt_wt : Qc;
  r_gt_vol : Qc;
  r_py : Qc;
  r_alm : Qc;
  r_spss : Qc;
  r_gr : Qc;
  r_kho : Qc;
  r_out : MAGEMinOutput
}.

(** The locals of [garnet_over_path] that live across loop iterations.
    The three [_initial] variables are unbound before the first
    iteration. *)
Record path_state := {
  X : list Qc;
  Xoxides : list string;
  gt_wt_frac : list Qc;
  gt_mol_frac : list Qc;
  gt_vol_frac : list Qc;
  d_gt_mol_frac : list Qc;
  d_gt_wt_frac : list Qc;
  Mgi : list Qc;
  Fei : list Qc;
  Mni : list Qc;
  Cai : list Qc;
  py_arr : list Qc;
  alm_arr : list Qc;
  spss_arr : list Qc;
  gr_arr : list Qc;
  kho_arr : list Qc;
  gt_mol_frac_initial : option Qc;
  gt_wt_frac_initial : option Qc;
  gt_vol_frac_initial : option Qc
}.

(** The tuple returned by [garnet_over_path]. *)
Record path_result := {
  out_gt_mol_frac : list Qc;
  out_gt_wt_frac : list Qc;
  out_gt_vol_frac : list Qc;
  out_d_gt_mol_frac : list Qc;
  out_d_gt_wt_frac : list Qc;
  out_Mgi : list Qc;
  out_Mni : list Qc;
  out_Fei : list Qc;
  out_Cai : list Qc
}.

(** [fractionate == True]: Python compares by value, so [True] and [1]
    pass and every other integer (the default [0], [False], [2]) does
    not. *)
Definition eq_True (fractionate : Z) : bool := (fractionate =? 1)%Z.

(** [d[0] = g[0]] on the first point, [d[i] = g[i] - g[i-1]] after it. *)
Definition delta_at (i : nat) (g : list Qc) : option Qc :=
  if decide (i = 0)%nat then g !! 0%nat
  else (a ← g !! i; b ← g !! (i - 1)%nat; Some (a - b)).

(** [bulk - (bulk * comp * d)] in numpy arithmetic. *)
Definition deplete (bulk comp : list Qc) (d : Qc) : option (list Qc) :=
  prod ← np_binop Qcmult bulk comp;
  np_binop Qcminus bulk (np_scale prod d).

(** The block under [if gt_frac > 0:]; returns the new [X], [Xoxides]. *)
Definition fractionate_bulk (sys_in : string) (i : nat) (gt_frac : Qc)
    (out : MAGEMinOutput) (d_gt_mol_frac d_gt_wt_frac : list Qc)
    (X : list Qc) (Xoxides : list string) : option (list Qc * list string) :=
  if gt0 gt_frac then
    garnet_ind ← index "g" (ph out);
    let Xoxides := oxides out in
    if decide (sys_in = "wt") then
      ss ← SS_vec out !! garnet_ind;
      d ← d_gt_wt_frac !! i;
      X ← deplete (bulk_wt out) (Comp_wt ss) d;
      Some (X, Xoxides)
    else if decide (sys_in = "mol") then
      ss ← SS_vec out !! garnet_ind;
      d ← d_gt_mol_frac !! i;
      X ← deplete (bulk out) (Comp ss) d;
      Some (X, Xoxides)
    else Some (X, Xoxides)
  else Some (X, Xoxides).

Section Engine.

(** The solver context handle ([data]) is opaque to this file. *)
Context {Data : Type}.

(** [MAGEMin_C.single_point_minimization(P, T, data, X=, Xoxides=, sys_in=)];
    [None] when the call raises. *)
Variable single_point_minimization :
  Qc -> Qc -> Data -> list Qc -> list string -> string -> option MAGEMinOutput.

(** [calculate_molar_fractions] of [bulk_rock_functions]. *)
Variable calculate_molar_fractions : gmap string Qc -> option (gmap string Qc).

Definition gt_single_point_calc_endmembers (P T : Qc) (data : Data)
    (X : list Qc) (Xoxides : list string) (sys_in : string) : option endmembers_result :=
  out ← single_point_minimization P T data X Xoxides sys_in;
  if decide ("g" ∈ ph out) then
    gt_vol ← extract_phase_vol_frac "g" out;
    Some {| r_gt_frac := extract_phase_mol_frac "g" out;
            r_gt_wt := extract_phase_wt_frac "g" out;
            r_gt_vol := gt_vol;
            r_py := extract_end_member_mol_frac "g" out "py";
            r_alm := extract_end_member_mol_frac "g" out "alm";
            r_spss := extract_end_member_mol_frac "g" out "spss";
            r_gr := extract_end_member_mol_frac "g" out "gr";
            r_kho := extract_end_member_mol_frac "g" out "kho";
            r_out := out |}
  else
    Some {| r_gt_frac := 0; r_gt_wt := 0; r_gt_vol := 0;
            r_py := 0; r_alm := 0; r_spss := 0; r_gr := 0; r_kho := 0;
            r_out := out |}.

Variables (T : list Qc) (data : Data) (sys_in : string) (fractionate : Z).

(** One iteration of the [for i in range(len(P))] loop, [Pi] being
    [P[i]]. *)
Definition path_step (i : nat) (Pi : Qc) (st : path_state) : option path_state :=
  Ti ← T !! i;
  r ← gt_single_point_calc_endmembers Pi Ti data (X st) (Xoxides st) sys_in;
  py_arr' ← setitem i (r_py r) (py_arr st);
  alm_arr' ← setitem i (r_alm r) (alm_arr st);
  spss_arr' ← setitem i (r_spss r) (spss_arr st);
  gr_arr' ← setitem i (r_gr r) (gr_arr st);
  kho_arr' ← setitem i (r_kho r) (kho_arr st);
  let garnet_fractions : gmap string Qc :=
    list_to_map [("py", r_py r); ("alm", r_alm r); ("gr", r_gr r);
                 ("spss", r_spss r); ("kho", r_kho r)] in
  mole_fractions ← calculate_molar_fractions garnet_fractions;
  mg ← mole_fractions !! "Mg";
  Mgi' ← setitem i mg (Mgi st);
  mn ← mole_fractions !! "Mn";
  Mni' ← setitem i mn (Mni st);
  fe ← mole_fractions !! "Fe";
  Fei' ← setitem i fe (Fei st);
  ca ← mole_fractions !! "Ca";
  Cai' ← setitem i ca (Cai st);
  let mol_initial :=
    if decide (i = 0)%nat then Some (r_gt_frac r) else gt_mol_frac_initial st in
  let wt_initial :=
    if decide (i = 0)%nat then Some (r_gt_wt r) else gt_wt_frac_initial st in
  let vol_initial :=
    if decide (i = 0)%nat then Some (r_gt_vol r) else gt_vol_frac_initial st in
  m0 ← mol_initial;
  gt_mol_frac' ← setitem i (r_gt_frac r - m0) (gt_mol_frac st);
  w0 ← wt_initial;
  gt_wt_frac' ← setitem i (r_gt_wt r - w0) (gt_wt_frac st);
  v0 ← vol_initial;
  gt_vol_frac' ← setitem i (r_gt_vol r - v0) (gt_vol_frac st);
  if eq_True fractionate then
    dm ← delta_at i gt_mol_frac';
    d_gt_mol_frac' ← setitem i dm (d_gt_mol_frac st);
    dw ← delta_at i gt_wt_frac';
    d_gt_wt_frac' ← setitem i dw (d_gt_wt_frac st);
    '(X', Xoxides') ← fractionate_bulk sys_in i (r_gt_frac r) (r_out r)
                         d_gt_mol_frac' d_gt_wt_frac' (X st) (Xoxides st);
    Some {| X := X'; Xoxides := Xoxides';
            gt_wt_frac := gt_wt_frac'; gt_mol_frac := gt_mol_frac';
            gt_vol_frac := gt_vol_frac';
            d_gt_mol_frac := d_gt_mol_frac'; d_gt_wt_frac := d_gt_wt_frac';
            Mgi := Mgi'; Fei := Fei'; Mni := Mni'; Cai := Cai';
            py_arr := py_arr'; alm_arr := alm_arr'; spss_arr := spss_arr';
            gr_arr := gr_arr'; kho_arr := kho_arr';
            gt_mol_frac_initial := mol_initial;
            gt_wt_frac_initial := wt_initial;
            gt_vol_frac_initial := vol_initial |}
  else
    Some {| X := X st; Xoxides := Xoxides st;
            gt_wt_frac := gt_wt_frac'; gt_mol_frac := gt_mol_frac';
            gt_vol_frac := gt_vol_frac';
            d_gt_mol_frac := d_gt_mol_frac st; d_gt_wt_frac := d_gt_wt_frac st;
            Mgi := Mgi'; Fei := Fei'; Mni := Mni'; Cai := Cai';
            py_arr := py_arr'; alm_arr := alm_arr'; spss_arr := spss_arr';
            gr_arr := gr_arr'; kho_arr := kho_arr';
            gt_mol_frac_initial := mol_initial;
            gt_wt_frac_initial := wt_initial;
            gt_vol_frac_initial := vol_initial |}.

(** The loop from index [i] on, over the remaining pressures.  Besides
    the final locals it returns the locals at the head of every
    iteration it entered, followed by the locals at loop exit when the
    loop completes: entry [k] holds the [X] and [Xoxides] that
    iteration [i + k] hands to the solver, entry [k + 1] what iteration
    [i + k] leaves for the next one. *)
Fixpoint path_loop (i : nat) (todo : list Qc) (st : path_state)
    : list path_state * option path_state :=
  match todo with
  | [] => ([st], Some st)
  | Pi :: todo' =>
      match path_step i Pi st with
      | None => ([st], None)
      | Some st' =>
          let '(tr, r) := path_loop (S i) todo' st' in (st :: tr, r)
      end
  end.

(** The locals before the loop. *)
Definition initial_state (n : nat) (X : list Qc) (Xoxides : list string) : path_state :=
  {| X := X; Xoxides := Xoxides;
     gt_wt_frac := np_zeros n; gt_mol_frac := np_zeros n;
     gt_vol_frac := np_zeros n;
     d_gt_mol_frac := np_zeros n; d_gt_wt_frac := np_zeros n;
     Mgi := np_zeros n; Fei := np_zeros n; Mni := np_zeros n; Cai := np_zeros n;
     py_arr := np_zeros n; alm_arr := np_zeros n; spss_arr := np_zeros n;
     gr_arr := np_zeros n; kho_arr := np_zeros n;
     gt_mol_frac_initial := None; gt_wt_frac_initial := None;
     gt_vol_frac_initial := None |}.

Definition returned (st : path_state) : path_result :=
  {| out_gt_mol_frac := gt_mol_frac st; out_gt_wt_frac := gt_wt_frac st;
     out_gt_vol_frac := gt_vol_frac st;
     out_d_gt_mol_frac := d_gt_mol_frac st; out_d_gt_wt_frac := d_gt_wt_frac st;
     out_Mgi := Mgi st; out_Mni := Mni st; out_Fei := Fei st; out_Cai := Cai st |}.

Definition garnet_over_path (P : list Qc) (X : list Qc) (Xoxides : list string)
    : option path_result :=
  returned <$> (path_loop 0 P (initial_state (length P) X Xoxides)).2.

(** The locals of that run at the head of each iteration, and at loop
    exit. *)
Definition path_states (P : list Qc) (X : list Qc) (Xoxides : list string)
    : list path_state :=
  (path_loop 0 P (initial_state (length P) X Xoxides)).1.

(** What the single-point evaluator returns in iteration [i] of that
    run. *)
Definition step_result (P : list Qc) (X0 : list Qc) (Xoxides0 : list string)
    (i : nat) : option endmembers_result :=
  st ← path_states P X0 Xoxides0 !! i;
  Pi ← P !! i;
  Ti ← T !! i;
  gt_single_point_calc_endmembers Pi Ti data (X st) (Xoxides st) sys_in.

End Engine.

(** ** Predicates used in the statements *)

(** The end-member [end_member] is missing from the end-member list of
    the entry that [phase] selects. *)
Definition end_member_absent (phase : string) (out : MAGEMinOutput) (end_member : string) : Prop :=
  forall i ss, index phase (ph out) = Some i -> SS_vec out !! i = Some ss ->
    end_member ∉ emNames ss.


(** A solver result whose weight fractions and densities are well-formed
    positive numbers: at least one phase, one weight fraction per phase,
    the first [n_SS] phases described by [SS_vec] and the others by
    [PP_vec], every weight fraction and every density positive. *)
Definition well_formed (out : MAGEMinOutput) : Prop :=
  ph out <> [] /\
  length (ph_frac_wt out) = length (ph out) /\
  length (SS_vec out) = n_SS out /\
  (n_SS out + length (PP_vec out))%nat = length (ph out) /\
  Forall (Qclt 0) (ph_frac_wt out) /\
  Forall (fun ss => 0 < rho ss) (SS_vec out) /\
  Forall (fun pp => 0 < rho_PP pp) (PP_vec out).

(** The arrays of the returned tuple, in the order of the [return]. *)
Definition returned_arrays (res : path_result) : list (list Qc) :=
  [out_gt_mol_frac res; out_gt_wt_frac res; out_gt_vol_frac res;
   out_d_gt_mol_frac res; out_d_gt_wt_frac res;
   out_Mgi res; out_Mni res; out_Fei res; out_Cai res].

(** ** A small stand-in for the external collaborators

    Used to run the embedding on concrete paths.  The stand-in solver
    reports garnet and quartz; the garnet mole and weight fraction is the
    pressure it is called with, so that a path of pressures prescribes
    the raw garnet fractions; below 500 degrees it reports quartz
    alone. *)
Module Demo.

Definition frac (n : Z) (d : positive) : Qc := Q2Qc (n # d).

Definition garnet : SS_data :=
  {| emNames := ["py"; "alm"; "spss"; "gr"; "kho"];
     emFrac := [frac 3 5; frac 3 10; 0; frac 1 10; 0];
     emFrac_wt := [frac 1 2; frac 2 5; 0; frac 1 10; 0];
     Comp := [frac 1 2; frac 3 10; frac 1 5];
     Comp_wt := [frac 2 5; frac 2 5; frac 1 5];
     rho := frac 4 1 |}.

Definition quartz : PP_data := {| rho_PP := frac 3 1 |}.

Definition assemblage (g : Qc) (X : list Qc) : MAGEMinOutput :=
  {| ph := ["g"; "q"];
     ph_frac := [g; 1 - g];
     ph_frac_wt := [g; 1 - g];
     SS_vec := [garnet];
     PP_vec := [quartz];
     n_SS := 1;
     oxides := ["SiO2"; "FeO"; "MgO"];
     bulk := X;
     bulk_wt := X |}.

Definition quartz_only (X : list Qc) : MAGEMinOutput :=
  {| ph := ["q"];
     ph_frac := [1];
     ph_frac_wt := [1];
     SS_vec := [];
     PP_vec := [quartz];
     n_SS := 0;
     oxides := ["SiO2"; "FeO"; "MgO"];
     bulk := X;
     bulk_wt := X |}.

Definition solver (P T : Qc) (data : unit) (X : list Qc)
    (Xoxides : list string) (sys_in : string) : option MAGEMinOutput :=
  if bool_decide (T < frac 500 1) then Some (quartz_only X)
  else Some (assemblage P X).

Definition molar_fractions (garnet_fractions : gmap string Qc)
    : option (gmap string Qc) :=
  py ← garnet_fractions !! "py";
  alm ← garnet_fractions !! "alm";
  gr ← garnet_fractions !! "gr";
  spss ← garnet_fractions !! "spss";
  kho ← garnet_fractions !! "kho";
  Some (list_to_map [("Mg", py + kho); ("Mn", spss); ("Fe", alm); ("Ca", gr)]).

(** A bulk composition, listed in an order other than the solver's. *)
Definition X0 : list Qc := [frac 1 4; frac 3 5; frac 3 20].
Definition Xoxides0 : list string := ["FeO"; "SiO2"; "MgO"].

(** A solver that answers every call with the same assemblage. *)
Definition steady (P T : Qc) (data : unit) (X : list Qc)
    (Xoxides : list string) (sys_in : string) : option MAGEMinOutput :=
  Some (assemblage (frac 1 8) X0).

(** Three points with raw garnet mole fractions 0.00, 0.05, 0.12. *)
Definition P3 : list Qc := [0; frac 1 20; frac 3 25].
Definition T3 : list Qc := [frac 600 1; frac 650 1; frac 700 1].

(** Two points that start with garnet already present (0.125, 0.375). *)
Definition P2 : list Qc := [frac 1 8; frac 3 8].
Definition T2 : list Qc := [frac 600 1; frac 700 1].

(** Two points, the first below the garnet stability field. *)
Definition Pcold : list Qc := [frac 1 10; frac 1 5].
Definition Tcold : list Qc := [frac 400 1; frac 700 1].

Definition path (T : list Qc) (sys_in : string) (fractionate : Z)
    (P : list Qc) : option path_result :=
  garnet_over_path solver molar_fractions T tt sys_in fractionate P X0 Xoxides0.

Definition locals (T : list Qc) (sys_in : string) (fractionate : Z)
    (P : list Qc) : list path_state :=
  path_states solver molar_fractions T tt sys_in fractionate P X0 Xoxides0.

Definition evaluated (T : list Qc) (sys_in : string) (fractionate : Z)
    (P : list Qc) (i : nat) : option endmembers_result :=
  step_result solver molar_fractions T tt sys_in fractionate P X0 Xoxides0 i.

End Demo.

(** ** Conditions under which a run completes *)

(** The fourteen arrays of the locals all have length [n]. *)
Definition arrays_sized (n : nat) (st : path_state) : Prop :=
  length (gt_wt_frac st) = n /\ length (gt_mol_frac st) = n /\
  length (gt_vol_frac st) = n /\
  length (d_gt_mol_frac st) = n /\ length (d_gt_wt_frac st) = n /\
  length (Mgi st) = n /\ length (Fei st) = n /\ length (Mni st) = n /\
  length (Cai st) = n /\
  length (py_arr st) = n /\ length (alm_arr st) = n /\
  length (spss_arr st) = n /\ length (gr_arr st) = n /\
  length (kho_arr st) = n.

(** The three [_initial] variables are bound. *)
Definition initials_bound (st : path_state) : Prop :=
  is_Some (gt_mol_frac_initial st) /\ is_Some (gt_wt_frac_initial st) /\
  is_Some (gt_vol_frac_initial st).

(** A solver result on which neither the volume reconstruction nor the
    bulk update can raise: when garnet is listed, the volume fractions
    are computable, garnet has an entry in [SS_vec], and its composition
    vectors are as long as the bulk vectors. *)
Definition garnet_ready (out : MAGEMinOutput) : Prop :=
  forall gi, index "g" (ph out) = Some gi ->
    is_Some (volume_fractions out) /\
    exists ss, SS_vec out !! gi = Some ss /\
      length (bulk_wt out) = length (Comp_wt ss) /\
      length (bulk out) = length (Comp ss).

(** The dictionary that [garnet_over_path] hands to the converter. *)
Definition garnet_fractions_of (r : endmembers_result) : gmap string Qc :=
  list_to_map [("py", r_py r); ("alm", r_alm r); ("gr", r_gr r);
               ("spss", r_spss r); ("kho", r_kho r)].

(** The converter answers every such dictionary with the four element
    keys. *)
Definition converter_total
    (calculate_molar_fractions : gmap string Qc -> option (gmap string Qc)) : Prop :=
  forall r, exists mole_fractions,
    calculate_molar_fractions (garnet_fractions_of r) = Some mole_fractions /\
    is_Some (mole_fractions !! "Mg") /\ is_Some (mole_fractions !! "Mn") /\
    is_Some (mole_fractions !! "Fe") /\ is_Some (mole_fractions !! "Ca").

(** ** The remaining functions of the file *)

(** What [get_phase_comp_mol] and [get_phase_comp_wt] return: a
    composition array, or the float [0.] of the [except] branch. *)
Inductive phase_comp :=
  | Composition (c : list Qc)
  | NoComposition.

Definition get_phase_comp_mol (phase : string) (MAGEMinOutput : MAGEMinOutput) : phase_comp :=
  try_except
    (phase_ind ← index phase (ph MAGEMinOutput);
     ss ← SS_vec MAGEMinOutput !! phase_ind;
     Some (Composition (Comp ss)))
    NoComposition.

(** The source reads [.Comp] here as well. *)
Definition get_phase_comp_wt (phase : string) (MAGEMinOutput : MAGEMinOutput) : phase_comp :=
  try_except
    (phase_ind ← index phase (ph MAGEMinOutput);
     ss ← SS_vec MAGEMinOutput !! phase_ind;
     Some (Composition (Comp ss)))
    NoComposition.

(** The tuple returned by [gt_single_point_calc_elements]. *)
Record elements_result := {
  e_gt_frac : Qc;
  e_gt_wt : Qc;
  e_gt_vol : Qc;
  e_Mg : Qc;
  e_Mn : Qc;
  e_Fe : Qc;
  e_Ca : Qc;
  e_out : MAGEMinOutput
}.

(** The eight arrays returned by [generate_2D_grid_endmembers]. *)
Record grid_endmembers := {
  g_gt_mol_frac : list Qc;
  g_gt_wt_frac : list Qc;
  g_gt_vol_frac : list Qc;
  g_py_arr : list Qc;
  g_alm_arr : list Qc;
  g_spss_arr : list Qc;
  g_gr_arr : list Qc;
  g_kho_arr : list Qc
}.

(** The four element arrays filled by [generate_2D_grid_elements]. *)
Record grid_element_arrays := {
  ge_Mgi : list Qc;
  ge_Mni : list Qc;
  ge_Fei : list Qc;
  ge_Cai : list Qc
}.

(** The tuple returned by [generate_2D_grid_elements]. *)
Record grid_elements := {
  gel_gt_mol_frac : list Qc;
  gel_gt_wt_frac : list Qc;
  gel_gt_vol_frac : list Qc;
  gel_Mgi : list Qc;
  gel_Mni : list Qc;
  gel_Fei : list Qc;
  gel_Cai : list Qc
}.

(** The body of the loop of [generate_2D_grid_endmembers], on the list
    [out] of solver results. *)
Definition grid_endmembers_step (out : list MAGEMinOutput) (i : nat)
    (a : grid_endmembers) : option grid_endmembers :=
  o ← out !! i;
  gt_mol_frac' ← setitem i (extract_phase_mol_frac "g" o) (g_gt_mol_frac a);
  gt_wt_frac' ← setitem i (extract_phase_wt_frac "g" o) (g_gt_wt_frac a);
  v ← extract_phase_vol_frac "g" o;
  gt_vol_frac' ← setitem i v (g_gt_vol_frac a);
  py_arr' ← setitem i (extract_end_member_mol_frac "g" o "py") (g_py_arr a);
  alm_arr' ← setitem i (extract_end_member_mol_frac "g" o "alm") (g_alm_arr a);
  spss_arr' ← setitem i (extract_end_member_mol_frac "g" o "spss") (g_spss_arr a);
  gr_arr' ← setitem i (extract_end_member_mol_frac "g" o "gr") (g_gr_arr a);
  kho_arr' ← setitem i (extract_end_member_mol_frac "g" o "kho") (g_kho_arr a);
  Some {| g_gt_mol_frac := gt_mol_frac'; g_gt_wt_frac := gt_wt_frac';
          g_gt_vol_frac := gt_vol_frac';
          g_py_arr := py_arr'; g_alm_arr := alm_arr'; g_spss_arr := spss_arr';
          g_gr_arr := gr_arr'; g_kho_arr := kho_arr' |}.

(** [for i in range(...)]: [count] iterations from index [i] on. *)
Fixpoint grid_endmembers_loop (out : list MAGEMinOutput) (count i : nat)
    (a : grid_endmembers) : option grid_endmembers :=
  match count with
  | O => Some a
  | S count' =>
      a' ← grid_endmembers_step out i a;
      grid_endmembers_loop out count' (S i) a'
  end.

Section Grid.

Context {Data : Type}.

Variable single_point_minimization :
  Qc -> Qc -> Data -> list Qc -> list string -> string -> option MAGEMinOutput.

(** [MAGEMin_C.multi_point_minimization(P, T, data, X=, Xoxides=, sys_in=)]
    on one-dimensional [P] and [T]; [None] when the call raises. *)
Variable multi_point_minimization :
  list Qc -> list Qc -> Data -> list Qc -> list string -> string ->
  option (list MAGEMinOutput).

Variable calculate_molar_fractions : gmap string Qc -> option (gmap string Qc).

Definition gt_single_point_calc_elements (P T : Qc) (data : Data)
    (X : list Qc) (Xoxides : list string) (sys_in : string) : option elements_result :=
  r ← gt_single_point_calc_endmembers single_point_minimization
         P T data X Xoxides sys_in;
  let garnet_fractions : gmap string Qc :=
    list_to_map [("py", r_py r); ("alm", r_alm r); ("gr", r_gr r);
                 ("spss", r_spss r); ("kho", r_kho r)] in
  mole_fractions ← calculate_molar_fractions garnet_fractions;
  Mg ← mole_fractions !! "Mg";
  Mn ← mole_fractions !! "Mn";
  Fe ← mole_fractions !! "Fe";
  Ca ← mole_fractions !! "Ca";
  Some {| e_gt_frac := r_gt_frac r; e_gt_wt := r_gt_wt r; e_gt_vol := r_gt_vol r;
          e_Mg := Mg; e_Mn := Mn; e_Fe := Fe; e_Ca := Ca; e_out := r_out r |}.

Definition generate_2D_grid_endmembers (P T : list Qc) (data : Data)
    (X : list Qc) (Xoxides : list string) (sys_in : string) : option grid_endmembers :=
  out ← multi_point_minimization P T data X Xoxides sys_in;
  grid_endmembers_loop out (length T) 0
    {| g_gt_mol_frac := np_zeros (length P); g_gt_wt_frac := np_zeros (length P);
       g_gt_vol_frac := np_zeros (length P);
       g_py_arr := np_zeros (length P); g_alm_arr := np_zeros (length P);
       g_spss_arr := np_zeros (length P); g_gr_arr := np_zeros (length P);
       g_kho_arr := np_zeros (length P) |}.

(** The body of the loop of [generate_2D_grid_elements]. *)
Definition grid_elements_step (e : grid_endmembers) (i : nat)
    (a : grid_element_arrays) : option grid_element_arrays :=
  py ← g_py_arr e !! i;
  alm ← g_alm_arr e !! i;
  gr ← g_gr_arr e !! i;
  spss ← g_spss_arr e !! i;
  kho ← g_kho_arr e !! i;
  let garnet_fractions : gmap string Qc :=
    list_to_map [("py", py); ("alm", alm); ("gr", gr); ("spss", spss); ("kho", kho)] in
  mole_fractions ← calculate_molar_fractions garnet_fractions;
  mg ← mole_fractions !! "Mg";
  Mgi' ← setitem i mg (ge_Mgi a);
  mn ← mole_fractions !! "Mn";
  Mni' ← setitem i mn (ge_Mni a);
  fe ← mole_fractions !! "Fe";
  Fei' ← setitem i fe (ge_Fei a);
  ca ← mole_fractions !! "Ca";
  Cai' ← setitem i ca (ge_Cai a);
  Some {| ge_Mgi := Mgi'; ge_Mni := Mni'; ge_Fei := Fei'; ge_Cai := Cai' |}.

Fixpoint grid_elements_loop (e : grid_endmembers) (count i : nat)
    (a : grid_element_arrays) : option grid_element_arrays :=
  match count with
  | O => Some a
  | S count' =>
      a' ← grid_elements_step e i a;
      grid_elements_loop e count' (S i) a'
  end.

Definition generate_2D_grid_elements (P T : list Qc) (data : Data)
    (X : list Qc) (Xoxides : list string) (sys_in : string) : option grid_elements :=
  e ← generate_2D_grid_endmembers P T data X Xoxides sys_in;
  a ← grid_elements_loop e (length (g_py_arr e)) 0
         {| ge_Mgi := np_zeros (length P); ge_Mni := np_zeros (length P);
            ge_Fei := np_zeros (length P); ge_Cai := np_zeros (length P) |};
  Some {| gel_gt_mol_frac := g_gt_mol_frac e; gel_gt_wt_frac := g_gt_wt_frac e;
          gel_gt_vol_frac := g_gt_vol_frac e;
          gel_Mgi := ge_Mgi a; gel_Mni := ge_Mni a;
          gel_Fei := ge_Fei a; gel_Cai := ge_Cai a |}.

End Grid.

(** The vectors the bulk update of iteration [i] works with, read from
    the solver result [out], its garnet entry [ss] and the locals [st']
    the iteration leaves: weight-basis for ["wt"], mole-basis for
    ["mol"]. *)
Definition basis_vectors (sys_in : string) (out : MAGEMinOutput) (ss : SS_data)
    (st' : path_state) (i : nat) (bulkv comp : list Qc) (d : Qc) : Prop :=
  (sys_in = "wt" /\ bulkv = bulk_wt out /\ comp = Comp_wt ss /\
   d_gt_wt_frac st' !! i = Some d) \/
  (sys_in = "mol" /\ bulkv = bulk out /\ comp = Comp ss /\
   d_gt_mol_frac st' !! i = Some d).

(** The eight arrays of the grid have length [n]. *)
Definition grid_sized (n : nat) (a : grid_endmembers) : Prop :=
  length (g_gt_mol_frac a) = n /\ length (g_gt_wt_frac a) = n /\
  length (g_gt_vol_frac a) = n /\
  length (g_py_arr a) = n /\ length (g_alm_arr a) = n /\
  length (g_spss_arr a) = n /\ length (g_gr_arr a) = n /\
  length (g_kho_arr a) = n.

(** Index [j] of the grid arrays holds what the extractors read from the
    solver result [o], [v] being its garnet volume fraction. *)
Definition grid_point (o : MAGEMinOutput) (v : Qc) (a : grid_endmembers)
    (j : nat) : Prop :=
  g_gt_mol_frac a !! j = Some (extract_phase_mol_frac "g" o) /\
  g_gt_wt_frac a !! j = Some (extract_phase_wt_frac "g" o) /\
  g_gt_vol_frac a !! j = Some v /\
  g_py_arr a !! j = Some (extract_end_member_mol_frac "g" o "py") /\
  g_alm_arr a !! j = Some (extract_end_member_mol_frac "g" o "alm") /\
  g_spss_arr a !! j = Some (extract_end_member_mol_frac "g" o "spss") /\
  g_gr_arr a !! j = Some (extract_end_member_mol_frac "g" o "gr") /\
  g_kho_arr a !! j = Some (extract_end_member_mol_frac "g" o "kho").

(** Index [j] of the grid arrays agrees with index [j] of [b]. *)
Definition grid_same (a b : grid_endmembers) (j : nat) : Prop :=
  g_gt_mol_frac a !! j = g_gt_mol_frac b !! j /\
  g_gt_wt_frac a !! j = g_gt_wt_frac b !! j /\
  g_gt_vol_frac a !! j = g_gt_vol_frac b !! j /\
  g_py_arr a !! j = g_py_arr b !! j /\
  g_alm_arr a !! j = g_alm_arr b !! j /\
  g_spss_arr a !! j = g_spss_arr b !! j /\
  g_gr_arr a !! j = g_gr_arr b !! j /\
  g_kho_arr a !! j = g_kho_arr b !! j.

(** The grid arrays before the loop. *)
Definition grid_zeros (n : nat) : grid_endmembers :=
  {| g_gt_mol_frac := np_zeros n; g_gt_wt_frac := np_zeros n;
     g_gt_vol_frac := np_zeros n;
     g_py_arr := np_zeros n; g_alm_arr := np_zeros n;
     g_spss_arr := np_zeros n; g_gr_arr := np_zeros n;
     g_kho_arr := np_zeros n |}.

(** The four element arrays of the grid have length [n]. *)
Definition element_sized (n : nat) (a : grid_element_arrays) : Prop :=
  length (ge_Mgi a) = n /\ length (ge_Mni a) = n /\
  length (ge_Fei a) = n /\ length (ge_Cai a) = n.

(** Index [j] of the element arrays holds the converter's answer for the
    end-member fractions at index [j] of the grid arrays [e]. *)
Definition element_point
    (calculate_molar_fractions : gmap string Qc -> option (gmap string Qc))
    (e : grid_endmembers) (a : grid_element_arrays) (j : nat) : Prop :=
  exists py alm gr spss kho mole_fractions,
    g_py_arr e !! j = Some py /\ g_alm_arr e !! j = Some alm /\
    g_gr_arr e !! j = Some gr /\ g_spss_arr e !! j = Some spss /\
    g_kho_arr e !! j = Some kho /\
    calculate_molar_fractions
      (list_to_map [("py", py); ("alm", alm); ("gr", gr); ("spss", spss);
                    ("kho", kho)]) = Some mole_fractions /\
    is_Some (mole_fractions !! "Mg") /\ ge_Mgi a !! j = mole_fractions !! "Mg" /\
    is_Some (mole_fractions !! "Mn") /\ ge_Mni a !! j = mole_fractions !! "Mn" /\
    is_Some (mole_fractions !! "Fe") /\ ge_Fei a !! j = mole_fractions !! "Fe" /\
    is_Some (mole_fractions !! "Ca") /\ ge_Cai a !! j = mole_fractions !! "Ca".

(** Index [j] of the element arrays agrees with index [j] of [b]. *)
Definition element_same (a b : grid_element_arrays) (j : nat) : Prop :=
  ge_Mgi a !! j = ge_Mgi b !! j /\ ge_Mni a !! j = ge_Mni b !! j /\
  ge_Fei a !! j = ge_Fei b !! j /\ ge_Cai a !! j = ge_Cai b !! j.

(** The element arrays of the tuple [generate_2D_grid_elements]
    returns. *)
Definition element_arrays_of (ge : grid_elements) : grid_element_arrays :=
  {| ge_Mgi := gel_Mgi ge; ge_Mni := gel_Mni ge;
     ge_Fei := gel_Fei ge; ge_Cai := gel_Cai ge |}.

(** The dictionary of an all-zero garnet. *)
Definition no_garnet_fractions : gmap string Qc :=
  list_to_map [("py", 0); ("alm", 0); ("gr", 0); ("spss", 0); ("kho", 0)].

(** The locals [st1] of a run over [n] points against the locals [st2]
    of a run over more points: same bulk composition, oxide list and
    first-point values, and every array of [st1] is the first [n]
    entries of the array of [st2]. *)
Definition locals_prefix (n : nat) (st1 st2 : path_state) : Prop :=
  X st1 = X st2 /\ Xoxides st1 = Xoxides st2 /\
  gt_mol_frac_initial st1 = gt_mol_frac_initial st2 /\
  gt_wt_frac_initial st1 = gt_wt_frac_initial st2 /\
  gt_vol_frac_initial st1 = gt_vol_frac_initial st2 /\
  gt_wt_frac st1 = take n (gt_wt_frac st2) /\
  gt_mol_frac st1 = take n (gt_mol_frac st2) /\
  gt_vol_frac st1 = take n (gt_vol_frac st2) /\
  d_gt_mol_frac st1 = take n (d_gt_mol_frac st2) /\
  d_gt_wt_frac st1 = take n (d_gt_wt_frac st2) /\
  Mgi st1 = take n (Mgi st2) /\ Fei st1 = take n (Fei st2) /\
  Mni st1 = take n (Mni st2) /\ Cai st1 = take n (Cai st2) /\
  py_arr st1 = take n (py_arr st2) /\ alm_arr st1 = take n (alm_arr st2) /\
  spss_arr st1 = take n (spss_arr st2) /\ gr_arr st1 = take n (gr_arr st2) /\
  kho_arr st1 = take n (kho_arr st2).

(** The first [n] entries of each returned array. *)
Definition truncated (n : nat) (res : path_result) : path_result :=
  {| out_gt_mol_frac := take n (out_gt_mol_frac res);
     out_gt_wt_frac := take n (out_gt_wt_frac res);
     out_gt_vol_frac := take n (out_gt_vol_frac res);
     out_d_gt_mol_frac := take n (out_d_gt_mol_frac res);
     out_d_gt_wt_frac := take n (out_d_gt_wt_frac res);
     out_Mgi := take n (out_Mgi res); out_Mni := take n (out_Mni res);
     out_Fei := take n (out_Fei res); out_Cai := take n (out_Cai res) |}.

(** ** Rounded arithmetic

    The rationals above are exact.  A property that rests on an
    algebraic law which rounding breaks is not a property of the program,
    so the reconstruction of the volume fractions is embedded a second
    time, with a rounding [fl] after every arithmetic operation, the way
    IEEE arithmetic computes.  The exact embedding is the instance in
    which [fl] is the identity.  Overflow, underflow and the non-finite
    floats stay outside the model. *)
Section Rounded.

Variable fl : Qc -> Qc.

(** [np.sum]: numpy chooses the order in which it adds the entries. *)
Variable np_sum : list Qc -> Qc.

(** Python float division. *)
Definition py_div_fl (x y : Qc) : option Qc :=
  if decide (y = 0) then None else Some (fl (x / y)).

(** Python's [sum(...)] over floats: it starts from the integer [0], to
    which the first float is added without error, and goes on from left
    to right. *)
Definition py_sum_fl (l : list Qc) : Qc :=
  match l with
  | [] => 0
  | x :: l' => foldl (fun s y => fl (s + y)) x l'
  end.

(** The value stored in [V[i, 0]] for the phase name [name] of row [i]. *)
Definition phase_volume_fl (MAGEMinOutput : MAGEMinOutput) (name : string) : option Qc :=
  let id := positions name (ph MAGEMinOutput) in
  match id with
  | [] => Some 0
  | _ :: _ =>
      rhos ← mapM (rho_at MAGEMinOutput) id;
      rho ← py_div_fl (py_sum_fl rhos) (Qc_of_Z (Z.of_nat (length id)));
      ws ← mapM (fun j => ph_frac_wt MAGEMinOutput !! j) id;
      py_div_fl (py_sum_fl ws) rho
  end.

(** [V /= np.sum(V)], with the conventions of [np_normalize]. *)
Definition np_normalize_fl (V : list Qc) : option (list Qc) :=
  match V with
  | [] => Some []
  | _ :: _ =>
      let total := np_sum V in
      if decide (total = 0) then None else Some (map (fun v => fl (v / total)) V)
  end.

Definition volume_fractions_fl (MAGEMinOutput : MAGEMinOutput) : option (list Qc) :=
  V ← mapM (phase_volume_fl MAGEMinOutput) (ph MAGEMinOutput);
  np_normalize_fl V.

Definition extract_phase_vol_frac_fl (phase : string) (MAGEMinOutput : MAGEMinOutput) : option Qc :=
  V ← volume_fractions_fl MAGEMinOutput;
  Some (try_except
          (phase_ind ← index phase (ph MAGEMinOutput);
           V !! phase_ind)
          0).

(** [adds_up l s]: [s] is obtained from the entries of [l] by rounded
    additions, one entry after the other or in blocks, in any order. *)
Inductive adds_up : list Qc -> Qc -> Prop :=
  | adds_up_one (x : Qc) : adds_up [x] x
  | adds_up_app (l1 l2 : list Qc) (s1 s2 : Qc) :
      adds_up l1 s1 -> adds_up l2 s2 -> adds_up (l1 ++ l2) (fl (s1 + s2))
  | adds_up_perm (l l' : list Qc) (s : Qc) :
      l ≡ₚ l' -> adds_up l s -> adds_up l' s.

End Rounded.

(** Rounding with relative error at most [eps] on the non-negative
    numbers (the standard model of floating-point arithmetic). *)
Definition rounds_within (fl : Qc -> Qc) (eps : Qc) : Prop :=
  forall x, 0 <= x -> (1 - eps) * x <= fl x /\ fl x <= (1 + eps) * x.

(** The tolerance for a sum of [n] rounded fractions: [2 * n * eps]. *)
Definition tolerance (n : nat) (eps : Qc) : Qc :=
  2 * Qc_of_Z (Z.of_nat n) * eps.

(** [np.sum] adds the entries up, in an order of its own. *)
Definition sums_by_additions (fl : Qc -> Qc) (np_sum : list Qc -> Qc) : Prop :=
  forall l, l <> [] -> adds_up fl l (np_sum l).

(** *** Rounding to binary64 *)

(** The integer nearest to [q], ties to the even one. *)
Definition nearest_even (q : Q) : Z :=
  let f := Qfloor q in
  match Qcompare (q - inject_Z f) (1 # 2) with
  | Lt => f
  | Gt => (f + 1)%Z
  | Eq => if Z.even f then f else (f + 1)%Z
  end.

(** The binary exponent of a positive rational: the [e] with
    [2 ^ e <= q < 2 ^ (e + 1)]. *)
Definition exponent (q : Q) : Z :=
  let e := (Z.log2 (Qnum q) - Z.log2 (Zpos (Qden q)))%Z in
  if Qle_bool (Qpower 2 e) q then e else (e - 1)%Z.

(** A positive rational rounded to 53 significant bits. *)
Definition round53 (q : Q) : Q :=
  let e := exponent q in
  (inject_Z (nearest_even (q * Qpower 2 (52 - e))) * Qpower 2 (e - 52))%Q.

(** Round to nearest, ties to even, with the 53-bit significand of
    binary64 and an unbounded exponent. *)
Definition binary64 (x : Qc) : Qc :=
  if decide (x = 0) then 0
  else if decide (0 < x) then Q2Qc (round53 x)
  else - Q2Qc (round53 (- x)).

(** The unit roundoff of binary64. *)
Definition eps64 : Qc := Q2Qc (Qpower 2 (-53)).

(** ** The reconstruction in the specification's words

    Following the specification: each phase's weight fraction divided by
    the average density of the sub-phases sharing its name, normalised
    over the whole assemblage (exact arithmetic). *)
Definition spec_phase_volume (out : MAGEMinOutput) (i : nat) : option Qc :=
  name ← ph out !! i;
  let id := positions name (ph out) in
  rhos ← mapM (rho_at out) id;
  rho ← py_div (qsum rhos) (Qc_of_Z (Z.of_nat (length id)));
  w ← ph_frac_wt out !! i;
  py_div w rho.

Definition spec_volume_fractions (out : MAGEMinOutput) : option (list Qc) :=
  V ← mapM (spec_phase_volume out) (seq 0 (length (ph out)));
  np_normalize V.

(** The phase names of an assemblage, each once. *)
Definition phase_names (out : MAGEMinOutput) : list string :=
  remove_dups (ph out).

(** ** Further concrete inputs *)
Module Cases.

(** Two feldspars on a solvus next to quartz. *)
Definition two_feldspars : MAGEMinOutput :=
  {| ph := ["fsp"; "fsp"; "q"];
     ph_frac := [Demo.frac 1 5; Demo.frac 3 10; Demo.frac 1 2];
     ph_frac_wt := [Demo.frac 1 5; Demo.frac 3 10; Demo.frac 1 2];
     SS_vec := [Demo.garnet; Demo.garnet];
     PP_vec := [Demo.quartz];
     n_SS := 2;
     oxides := []; bulk := []; bulk_wt := [] |}.

(** Quartz alone, listed as a pure phase for which [PP_vec] has no
    entry. *)
Definition unlisted_quartz : MAGEMinOutput :=
  {| ph := ["q"]; ph_frac := [1]; ph_frac_wt := [1];
     SS_vec := []; PP_vec := []; n_SS := 0;
     oxides := []; bulk := []; bulk_wt := [] |}.

(** A solver that raises at pressure 1/20 and answers like the
    stand-in solver elsewhere. *)
Definition flaky (P T : Qc) (data : unit) (X : list Qc)
    (Xoxides : list string) (sys_in : string) : option MAGEMinOutput :=
  if bool_decide (P = Demo.frac 1 20) then None
  else Demo.solver P T data X Xoxides sys_in.

(** Two points along which garnet shrinks (raw fractions 3/8, 1/8). *)
Definition Pdown : list Qc := [Demo.frac 3 8; Demo.frac 1 8].

(** A solver that reports the bulk composition normalised to sum 1
    (garnet fraction as in the stand-in solver). *)
Definition normalising (P T : Qc) (data : unit) (X : list Qc)
    (Xoxides : list string) (sys_in : string) : option MAGEMinOutput :=
  Some (Demo.assemblage P (map (fun x => x / qsum X) X)).

(** A bulk composition given in percent. *)
Definition Xpercent : list Qc := [Demo.frac 25 1; Demo.frac 60 1; Demo.frac 15 1].

(** A batched solver that answers point by point like the stand-in
    solver. *)
Definition batch (P T : list Qc) (data : unit) (X : list Qc)
    (Xoxides : list string) (sys_in : string) : option (list MAGEMinOutput) :=
  mapM (fun pt => Demo.solver pt.1 pt.2 data X Xoxides sys_in) (zip P T).

(** A batched solver whose second point is that quartz. *)
Definition batch_bad (P T : list Qc) (data : unit) (X : list Qc)
    (Xoxides : list string) (sys_in : string) : option (list MAGEMinOutput) :=
  Some [Demo.assemblage (Demo.frac 1 8) X; unlisted_quartz].

(** The first two points of the three-point path, and its last point. *)
Definition P_head : list Qc := [0; Demo.frac 1 20].
Definition P_more : list Qc := [Demo.frac 3 25].

(** A solution phase of density [d], with the composition of the
    stand-in garnet. *)
Definition solution (d : Qc) : SS_data :=
  {| emNames := emNames Demo.garnet; emFrac := emFrac Demo.garnet;
     emFrac_wt := emFrac_wt Demo.garnet;
     Comp := Comp Demo.garnet; Comp_wt := Comp_wt Demo.garnet;
     rho := d |}.

(** Two feldspars of density 2 next to quartz of density 1.  Every
    number, and every intermediate result of the reconstruction, is a
    short binary fraction, so that binary64 computes on them without
    rounding. *)
Definition twin_feldspars : MAGEMinOutput :=
  {| ph := ["fsp"; "fsp"; "q"];
     ph_frac := [Demo.frac 1 4; Demo.frac 1 4; Demo.frac 1 2];
     ph_frac_wt := [Demo.frac 1 4; Demo.frac 1 4; Demo.frac 1 2];
     SS_vec := [solution (Demo.frac 2 1); solution (Demo.frac 2 1)];
     PP_vec := [{| rho_PP := 1 |}];
     n_SS := 2;
     oxides := []; bulk := []; bulk_wt := [] |}.

(** Garnet of density 3 and weight fraction 0.25 next to quartz of
    density 1 and weight fraction 0.75. *)
Definition garnet_quartz : MAGEMinOutput :=
  {| ph := ["g"; "q"];
     ph_frac := [Demo.frac 1 4; Demo.frac 3 4];
     ph_frac_wt := [Demo.frac 1 4; Demo.frac 3 4];
     SS_vec := [solution (Demo.frac 3 1)];
     PP_vec := [{| rho_PP := 1 |}];
     n_SS := 1;
     oxides := []; bulk := []; bulk_wt := [] |}.

End Cases.
(** ** Facts about the primitives *)

Lemma index_None {A} `{EqDecision A} (x : A) (l : list A) :
  x ∉ l -> index x l = None.
Proof.
  induction l as [|y l IH]; intros Hx; simpl; [done|].
  apply not_elem_of_cons in Hx as [Hne Hl].
  destruct (decide (y = x)); [congruence|].
  by rewrite IH.
Qed.

Lemma index_Some {A} `{EqDecision A} (x : A) (l : list A) (i : nat) :
  index x l = Some i -> l !! i = Some x.
Proof.
  revert i. induction l as [|y l IH]; intros i; simpl; [done|].
  destruct (decide (y = x)) as [->|].
  - by intros [= <-].
  - destruct (index x l) as [j|] eqn:E; simpl; [|done].
    intros [= <-]. simpl. by apply IH.
Qed.

Lemma index_is_Some {A} `{EqDecision A} (x : A) (l : list A) :
  x ∈ l -> is_Some (index x l).
Proof.
  induction l as [|y l IH]; intros Hx; simpl.
  - by apply elem_of_nil in Hx.
  - destruct (decide (y = x)); [by eexists|].
    apply elem_of_cons in Hx as [->|Hx]; [done|].
    destruct (IH Hx) as [j ->]. by eexists.
Qed.

Lemma setitem_Some {A} (i : nat) (v : A) (a a' : list A) :
  setitem i v a = Some a' -> (i < length a)%nat /\ a' = <[i:=v]> a.
Proof. unfold setitem. case_decide; [|done]. by intros [= <-]. Qed.

(** ** Result extractors: absence is reported as zero *)

(** C8. When the queried phase is not in the assemblage, the phase
    mole-fraction, phase weight-fraction and end-member mole-fraction
    queries all return 0; when the queried end-member is not in the
    end-member list of that phase, the end-member query returns 0.  The
    extractors are total: the exceptions of the lookups are caught inside
    them. *)
Theorem extractors_absent_zero (phase end_member : string) (out : MAGEMinOutput) :
  (phase ∉ ph out ->
     extract_phase_mol_frac phase out = 0 /\
     extract_phase_wt_frac phase out = 0 /\
     extract_end_member_mol_frac phase out end_member = 0) /\
  (end_member_absent phase out end_member ->
     extract_end_member_mol_frac phase out end_member = 0).
Proof.
  split.
  - intros Habs.
    unfold extract_phase_mol_frac, extract_phase_wt_frac,
      extract_end_member_mol_frac.
    by rewrite (index_None _ _ Habs).
  - intros Habs. unfold extract_end_member_mol_frac.
    destruct (index phase (ph out)) as [i|] eqn:Hi; [|done]. simpl.
    destruct (SS_vec out !! i) as [ss|] eqn:Hss; [|done]. simpl.
    by rewrite (index_None _ _ (Habs i ss Hi Hss)).
Qed.

(** ** Volume fractions *)

Lemma qsum_pos (l : list Qc) : l <> [] -> Forall (Qclt 0) l -> 0 < qsum l.
Proof.
  intros Hne Hl. destruct Hl as [|x l Hx Hl]; [done|]. clear Hne.
  revert x Hx. induction Hl as [|y l Hy Hl IH]; intros x Hx; simpl.
  - by rewrite Qcplus_0_r.
  - apply Qcplus_pos_pos; [done|]. by apply IH.
Qed.

Lemma qsum_map_div (l : list Qc) (t : Qc) :
  qsum (map (fun v => v / t) l) = qsum l / t.
Proof.
  induction l as [|x l IH]; simpl.
  - unfold Qcdiv. by rewrite Qcmult_0_l.
  - rewrite IH. unfold Qcdiv. by rewrite Qcmult_plus_distr_l.
Qed.

Lemma np_normalize_sum (V : list Qc) :
  V <> [] -> Forall (Qclt 0) V ->
  np_normalize V = Some (map (fun v => v / qsum V) V) /\
  qsum (map (fun v => v / qsum V) V) = 1.
Proof.
  intros Hne Hpos.
  assert (Ht : qsum V <> 0).
  { intros Heq. pose proof (qsum_pos V Hne Hpos) as Hlt.
    rewrite Heq in Hlt. by apply Qclt_not_eq in Hlt. }
  split.
  - unfold np_normalize. destruct V; [done|]. by case_decide.
  - rewrite qsum_map_div. unfold Qcdiv. by apply Qcmult_inv_r.
Qed.

Lemma positions_from_spec (k : nat) (name : string) (l : list string) (j : nat) :
  j ∈ positions_from k name l <-> (k <= j)%nat /\ l !! (j - k)%nat = Some name.
Proof.
  revert k. induction l as [|p l IH]; intros k; simpl.
  - split; [by intros ?%elem_of_nil | by intros [_ ?]].
  - destruct (decide (p = name)) as [->|Hne].
    + rewrite elem_of_cons, IH. split.
      * intros [->|[Hle Hl]].
        -- split; [lia|]. by rewrite Nat.sub_diag.
        -- split; [lia|]. by replace (j - k)%nat with (S (j - S k)) by lia.
      * intros [Hle Hl]. destruct (decide (j = k)) as [->|Hjk]; [by left|].
        right. split; [lia|].
        by replace (j - k)%nat with (S (j - S k)) in Hl by lia.
    + rewrite IH. split.
      * intros [Hle Hl]. split; [lia|].
        by replace (j - k)%nat with (S (j - S k)) by lia.
      * intros [Hle Hl]. destruct (decide (j = k)) as [->|Hjk].
        -- rewrite Nat.sub_diag in Hl. simpl in Hl. congruence.
        -- split; [lia|].
           by replace (j - k)%nat with (S (j - S k)) in Hl by lia.
Qed.

Lemma positions_spec (name : string) (l : list string) (j : nat) :
  j ∈ positions name l <-> l !! j = Some name.
Proof.
  unfold positions. rewrite positions_from_spec, Nat.sub_0_r.
  split; [by intros [_ ?] | intros; split; [lia|done]].
Qed.

Lemma mapM_pos {A} (f : A -> option Qc) (l : list A) :
  (forall x, x ∈ l -> exists y, f x = Some y /\ 0 < y) ->
  exists ys, mapM f l = Some ys /\ Forall (Qclt 0) ys /\ length ys = length l.
Proof.
  induction l as [|x l IH]; intros Hf.
  - by exists [].
  - destruct (Hf x) as (y & Hy & Hpos); [by left|].
    destruct IH as (ys & Hys & Hall & Hlen).
    { intros z Hz. apply Hf. by right. }
    exists (y :: ys). rewrite mapM_Some. split_and!.
    + constructor; [done|]. by apply mapM_Some.
    + by constructor.
    + simpl. by rewrite Hlen.
Qed.

Lemma py_div_pos (x y : Qc) : 0 < y -> py_div x y = Some (x / y).
Proof.
  intros Hy. unfold py_div. case_decide as Hz; [|done].
  rewrite Hz in Hy. by apply Qclt_not_eq in Hy.
Qed.

Lemma rho_at_pos (out : MAGEMinOutput) (j : nat) :
  well_formed out -> (j < length (ph out))%nat ->
  exists r, rho_at out j = Some r /\ 0 < r.
Proof.
  intros (_ & _ & Hss & Hpp & _ & Hrs & Hrp) Hj. unfold rho_at.
  case_decide as Hlt.
  - destruct (lookup_lt_is_Some_2 (SS_vec out) j) as [ss Hlk]; [lia|].
    exists (rho ss). rewrite Hlk. split; [done|].
    by apply (Forall_lookup_1 _ _ _ _ Hrs Hlk).
  - destruct (lookup_lt_is_Some_2 (PP_vec out) (j - n_SS out)) as [pp Hlk]; [lia|].
    exists (rho_PP pp). rewrite Hlk. split; [done|].
    by apply (Forall_lookup_1 _ _ _ _ Hrp Hlk).
Qed.

Lemma phase_volume_pos (out : MAGEMinOutput) (name : string) :
  well_formed out -> name ∈ ph out ->
  exists v, phase_volume out name = Some v /\ 0 < v.
Proof.
  intros Hwf Hin. pose proof Hwf as (_ & Hw & _ & _ & Hwpos & _).
  unfold phase_volume.
  destruct (positions name (ph out)) as [|j0 id] eqn:Hid.
  { apply list_elem_of_lookup in Hin as [j Hj].
    apply positions_spec in Hj. rewrite Hid in Hj. by apply elem_of_nil in Hj. }
  assert (Hrange : forall j, j ∈ j0 :: id -> (j < length (ph out))%nat).
  { intros j Hj. rewrite <- Hid in Hj. apply positions_spec in Hj.
    by apply lookup_lt_Some in Hj. }
  destruct (mapM_pos (rho_at out) (j0 :: id)) as (rhos & -> & Hrhos & Hlr).
  { intros j Hj. apply rho_at_pos; auto. }
  destruct (mapM_pos (fun j => ph_frac_wt out !! j) (j0 :: id))
    as (ws & Hws & Hwspos & Hlw).
  { intros j Hj.
    destruct (lookup_lt_is_Some_2 (ph_frac_wt out) j) as [w Hlk].
    { rewrite Hw. auto. }
    exists w. split; [done|]. by apply (Forall_lookup_1 _ _ _ _ Hwpos Hlk). }
  assert (Hn : 0 < Qc_of_Z (Z.of_nat (length (j0 :: id)))).
  { rewrite <- Z2Qc_inj_0. apply (proj1 (Z2Qc_inj_lt 0 _)). rewrite length_cons. lia. }
  assert (Hsr : 0 < qsum rhos).
  { apply qsum_pos; [|done]. intros ->. done. }
  assert (Hsw : 0 < qsum ws).
  { apply qsum_pos; [|done]. intros ->. done. }
  set (n := Qc_of_Z (Z.of_nat (length (j0 :: id)))) in *.
  assert (Havg : 0 < qsum rhos / n).
  { apply Qcmult_pos_pos; [done|]. by apply Qcinv_pos. }
  exists (qsum ws / (qsum rhos / n)). split.
  - cbn [mbind option_bind]. rewrite (py_div_pos _ _ Hn). cbn [mbind option_bind].
    rewrite Hws. cbn [mbind option_bind]. by rewrite (py_div_pos _ _ Havg).
  - apply Qcmult_pos_pos; [done|]. by apply Qcinv_pos.
Qed.

(** A phase name listed once, in row [j], contributes its weight fraction
    divided by its density. *)
Lemma phase_volume_single (out : MAGEMinOutput) (name : string) (j : nat)
    (w d : Qc) :
  positions name (ph out) = [j] ->
  rho_at out j = Some d -> ph_frac_wt out !! j = Some w -> 0 < d ->
  phase_volume out name = Some (w / d).
Proof.
  intros Hid Hd Hw Hpos. unfold phase_volume. rewrite Hid.
  cbn [mapM]. rewrite Hd, Hw.
  cbn [mbind option_bind mret option_ret qsum foldr length].
  rewrite !Qcplus_0_r.
  change (Qc_of_Z (Z.of_nat 1)) with (Qc_of_Z 1). rewrite Z2Qc_inj_1.
  rewrite (py_div_pos d 1) by done. cbn [mbind option_bind].
  rewrite (right_id 1 Qcdiv). by apply py_div_pos.
Qed.

(** Without any phase the array is empty, and so is its sum. *)
Remark volume_fractions_no_phase (out : MAGEMinOutput) :
  ph out = [] -> volume_fractions out = Some [].
Proof. intros Hph. unfold volume_fractions. by rewrite Hph. Qed.

(** ** Rounded arithmetic *)

(** Orders and operations of [Qc] read on the underlying fractions, for
    linear and nonlinear arithmetic. *)
Ltac to_Q :=
  unfold Qcle, Qclt, Qcminus, Qcdiv, Qcplus, Qcmult, Qcopp, Qcinv in *;
  cbn [this Q2Qc] in *;
  rewrite ?Qred_correct in *.

Section Binary64Facts.

Local Open Scope Q_scope.

Lemma two_power_pos (k : Z) : 0 < 2 ^ k.
Proof. by apply Qpower_0_lt. Qed.

Lemma two_power_plus (n m : Z) : 2 ^ (n + m) == 2 ^ n * 2 ^ m.
Proof. by apply Qpower_plus. Qed.

Lemma two_power_Z (n : Z) : (0 <= n)%Z -> 2 ^ n == inject_Z (2 ^ n).
Proof. intros Hn. symmetry. by apply (Zpower_Qpower 2). Qed.

Lemma exponent_le (q : Q) : 0 < q -> 2 ^ exponent q <= q.
Proof.
  intros Hq. unfold exponent.
  destruct (Qle_bool _ q) eqn:Hb; [by apply Qle_bool_iff|]. clear Hb.
  destruct q as [a b]. cbn [Qnum Qden].
  assert (Ha : (0 < a)%Z).
  { unfold Qlt in Hq. simpl in Hq. lia. }
  destruct (Z.log2_spec a Ha) as [Hla _].
  destruct (Z.log2_spec (Z.pos b) (Pos2Z.is_pos b)) as [_ Hlb].
  pose proof (Z.log2_nonneg a) as Hna.
  pose proof (Z.log2_nonneg (Z.pos b)) as Hnb.
  set (la := Z.log2 a) in *. set (lb := Z.log2 (Z.pos b)) in *.
  replace (la - lb - 1)%Z with (la + - (lb + 1))%Z by lia.
  rewrite two_power_plus, Qpower_opp.
  rewrite !two_power_Z by lia.
  replace (Z.succ lb) with (lb + 1)%Z in Hlb by lia.
  assert (Hp : (0 < 2 ^ (lb + 1))%Z) by (apply Z.pow_pos_nonneg; lia).
  set (u := (2 ^ la)%Z) in *. set (v := (2 ^ (lb + 1))%Z) in *.
  rewrite (Qmake_Qdiv a b).
  assert (Hv : 0 < inject_Z v).
  { change 0 with (inject_Z 0). rewrite <- Zlt_Qlt. lia. }
  assert (Hb : 0 < inject_Z (Z.pos b)).
  { change 0 with (inject_Z 0). rewrite <- Zlt_Qlt. lia. }
  assert (Hu : inject_Z u <= inject_Z a) by (rewrite <- Zle_Qle; lia).
  assert (Hbv : inject_Z (Z.pos b) <= inject_Z v) by (rewrite <- Zle_Qle; lia).
  assert (H0u : 0 <= inject_Z u).
  { change 0 with (inject_Z 0). rewrite <- Zle_Qle. subst u. apply Z.pow_nonneg. lia. }
  apply Qle_shift_div_l; [done|].
  assert (Hw : 0 < / inject_Z v) by (by apply Qinv_lt_0_compat).
  assert (Hwv : / inject_Z v * inject_Z v == 1).
  { rewrite Qmult_comm. apply Qmult_inv_r. lra. }
  set (w := / inject_Z v) in *.
  assert (H1 : inject_Z u * w * inject_Z (Z.pos b) <= inject_Z u * w * inject_Z v).
  { assert (0 <= inject_Z u * w) by nra. nra. }
  assert (H2 : inject_Z u * w * inject_Z v == inject_Z u).
  { rewrite <- Qmult_assoc, Hwv. ring. }
  lra.
Qed.

Lemma nearest_even_close (y : Q) :
  - (1 # 2) <= inject_Z (nearest_even y) - y /\
  inject_Z (nearest_even y) - y <= 1 # 2.
Proof.
  unfold nearest_even.
  pose proof (Qfloor_le y) as Hlo. pose proof (Qlt_floor y) as Hhi.
  rewrite inject_Z_plus in Hhi. change (inject_Z 1) with 1 in Hhi.
  set (f := Qfloor y) in *.
  destruct (Qcompare_spec (y - inject_Z f) (1 # 2)) as [He|Hl|Hg].
  - destruct (Z.even f).
    + lra.
    + rewrite inject_Z_plus. change (inject_Z 1) with 1. lra.
  - lra.
  - rewrite inject_Z_plus. change (inject_Z 1) with 1. lra.
Qed.

(** Rounding to 53 bits moves a positive number by at most the fraction
    [2 ^ -53] of itself. *)
Lemma round53_accurate (q : Q) :
  0 < q ->
  (1 - 2 ^ (-53)) * q <= round53 q /\ round53 q <= (1 + 2 ^ (-53)) * q.
Proof.
  intros Hq. unfold round53.
  pose proof (exponent_le q Hq) as He.
  set (e := exponent q) in *.
  pose proof (nearest_even_close (q * 2 ^ (52 - e))) as [Hlo Hhi].
  set (m := inject_Z (nearest_even (q * 2 ^ (52 - e)))) in *.
  pose proof (two_power_pos (e - 52)) as Hp.
  assert (Hinv : 2 ^ (52 - e) * 2 ^ (e - 52) == 1).
  { rewrite <- two_power_plus. by replace (52 - e + (e - 52))%Z with 0%Z by lia. }
  assert (Hhalf : (1 # 2) * 2 ^ (e - 52) == 2 ^ e * 2 ^ (-53)).
  { replace (e - 52)%Z with (e + -53 + 1)%Z by lia.
    rewrite !two_power_plus. change (2 ^ 1) with 2. ring. }
  pose proof (two_power_pos (-53)) as H53.
  set (a := 2 ^ (52 - e)) in *. set (b := 2 ^ (e - 52)) in *.
  set (c := 2 ^ (-53)) in *. set (d := 2 ^ e) in *.
  assert (Hq' : q == q * a * b) by (rewrite <- Qmult_assoc, Hinv; ring).
  split; nra.
Qed.

End Binary64Facts.

Lemma binary64_rounds : rounds_within binary64 eps64.
Proof.
  intros x Hx. unfold binary64.
  case_decide as H0.
  { subst x. by rewrite !Qcmult_0_r. }
  case_decide as Hpos.
  - destruct (round53_accurate x) as [Hlo Hhi]; [done|].
    unfold eps64. to_Q. split; lra.
  - exfalso. apply Hpos. apply Qcle_lt_or_eq in Hx as [?|?]; [done|congruence].
Qed.

(** *** Powers and Bernoulli's inequality *)

Lemma Qc_of_nat_S (n : nat) :
  Qc_of_Z (Z.of_nat (S n)) = Qc_of_Z (Z.of_nat n) + 1.
Proof.
  by rewrite Nat2Z.inj_succ, <- Z.add_1_r, Z2Qc_inj_add, Z2Qc_inj_1.
Qed.

Lemma Qc_of_nat_nonneg (n : nat) : 0 <= Qc_of_Z (Z.of_nat n).
Proof. rewrite <- Z2Qc_inj_0. apply (proj1 (Z2Qc_inj_le 0 _)). lia. Qed.

Lemma Qcpower_S (p : Qc) (n : nat) : p ^ S n = p * p ^ n.
Proof. done. Qed.

Lemma Qcpower_le_one (p : Qc) (n : nat) : 0 <= p -> p <= 1 -> p ^ n <= 1.
Proof.
  intros H0 H1. induction n as [|n IH]; [done|].
  rewrite Qcpower_S. pose proof (Qcpower_pos p n H0) as Hn.
  to_Q. nra.
Qed.

Lemma Qcpower_one_le (p : Qc) (n : nat) : 1 <= p -> 1 <= p ^ n.
Proof.
  intros H1. induction n as [|n IH]; [done|].
  rewrite Qcpower_S. to_Q. nra.
Qed.

Lemma Qcpower_plus (p : Qc) (n m : nat) : p ^ (n + m) = p ^ n * p ^ m.
Proof.
  induction n as [|n IH]; simpl plus.
  - by rewrite Qcmult_1_l.
  - rewrite !Qcpower_S, IH. ring.
Qed.

Lemma bernoulli (e : Qc) (n : nat) :
  0 <= e -> e <= 1 -> 1 - Qc_of_Z (Z.of_nat n) * e <= (1 - e) ^ n.
Proof.
  intros H0 H1. induction n as [|n IH].
  - change (Z.of_nat 0) with 0%Z. rewrite Z2Qc_inj_0, Qcmult_0_l.
    change ((1 - e) ^ 0) with 1. to_Q. lra.
  - rewrite Qcpower_S, Qc_of_nat_S.
    pose proof (Qc_of_nat_nonneg n) as Hn.
    set (k := Qc_of_Z (Z.of_nat n)) in *. set (q := (1 - e) ^ n) in *.
    to_Q. nra.
Qed.

Lemma Qcpower_mult (p q : Qc) (n : nat) : (p * q) ^ n = p ^ n * q ^ n.
Proof.
  induction n as [|n IH]; [by rewrite Qcmult_1_l|].
  rewrite !Qcpower_S, IH. ring.
Qed.

(** *** Sums *)

Lemma qsum_app (l1 l2 : list Qc) : qsum (l1 ++ l2) = qsum l1 + qsum l2.
Proof.
  induction l1 as [|x l1 IH]; simpl.
  - by rewrite Qcplus_0_l.
  - rewrite IH. ring.
Qed.

Lemma qsum_perm (l l' : list Qc) : l ≡ₚ l' -> qsum l = qsum l'.
Proof.
  induction 1 as [|x l l' _ IH|x y l|l l' l'' _ IH1 _ IH2]; simpl.
  - done.
  - by rewrite IH.
  - ring.
  - by rewrite IH1.
Qed.

Lemma qsum_nonneg (l : list Qc) : Forall (Qclt 0) l -> 0 <= qsum l.
Proof.
  induction 1 as [|x l Hx _ IH]; simpl; [done|].
  apply Qcplus_nonneg_nonneg; [by apply Qclt_le_weak|done].
Qed.

Lemma fl_pos (fl : Qc -> Qc) (eps x : Qc) :
  rounds_within fl eps -> eps < 1 -> 0 < x -> 0 < fl x.
Proof.
  intros Hfl He Hx. destruct (Hfl x) as [Hlo _]; [by apply Qclt_le_weak|].
  to_Q. nra.
Qed.

Lemma adds_up_nonempty (fl : Qc -> Qc) (l : list Qc) (s : Qc) :
  adds_up fl l s -> (1 <= length l)%nat.
Proof.
  induction 1 as [x|l1 l2 s1 s2 _ IH1 _ IH2|l l' s Hp _ IH].
  - done.
  - rewrite length_app. lia.
  - by rewrite <- (Permutation_length Hp).
Qed.

(** Whatever the order of the additions, the rounded sum of [n]
    positive numbers lies within the factors [(1 - eps) ^ (n - 1)] and
    [(1 + eps) ^ (n - 1)] of their exact sum. *)
Lemma adds_up_bounds (fl : Qc -> Qc) (eps : Qc) (l : list Qc) (s : Qc) :
  rounds_within fl eps -> 0 <= eps -> eps <= 1 ->
  adds_up fl l s -> Forall (Qclt 0) l ->
  (1 - eps) ^ (length l - 1) * qsum l <= s /\
  s <= (1 + eps) ^ (length l - 1) * qsum l.
Proof.
  intros Hfl He0 He1 Hs. 
  assert (Hp0 : 0 <= 1 - eps) by (to_Q; lra).
  assert (Hp1 : 1 - eps <= 1) by (to_Q; lra).
  assert (HP1 : 1 <= 1 + eps) by (to_Q; lra).
  induction Hs as [x|l1 l2 s1 s2 Hs1 IH1 Hs2 IH2|l l' s Hp _ IH]; intros Hpos.
  - simpl. rewrite Qcplus_0_r, !Qcmult_1_l. split; apply Qcle_refl.
  - apply Forall_app in Hpos as [Hpos1 Hpos2].
    destruct (IH1 Hpos1) as [Hlo1 Hhi1]. destruct (IH2 Hpos2) as [Hlo2 Hhi2].
    pose proof (adds_up_nonempty _ _ _ Hs1) as Hn1.
    pose proof (adds_up_nonempty _ _ _ Hs2) as Hn2.
    pose proof (qsum_nonneg _ Hpos1) as Hq1.
    pose proof (qsum_nonneg _ Hpos2) as Hq2.
    rewrite length_app, qsum_app.
    replace (length l1 + length l2 - 1)%nat
      with (S ((length l1 - 1) + (length l2 - 1)))%nat by lia.
    rewrite !Qcpower_S, !Qcpower_plus.
    pose proof (Qcpower_pos _ (length l1 - 1) Hp0) as HA0.
    pose proof (Qcpower_pos _ (length l2 - 1) Hp0) as HB0.
    pose proof (Qcpower_le_one _ (length l1 - 1) Hp0 Hp1) as HA1.
    pose proof (Qcpower_le_one _ (length l2 - 1) Hp0 Hp1) as HB1.
    pose proof (Qcpower_one_le _ (length l1 - 1) HP1) as HA'.
    pose proof (Qcpower_one_le _ (length l2 - 1) HP1) as HB'.
    set (A := (1 - eps) ^ (length l1 - 1)) in *.
    set (B := (1 - eps) ^ (length l2 - 1)) in *.
    set (A' := (1 + eps) ^ (length l1 - 1)) in *.
    set (B' := (1 + eps) ^ (length l2 - 1)) in *.
    set (q1 := qsum l1) in *. set (q2 := qsum l2) in *.
    assert (Hs1' : 0 <= s1) by (to_Q; nra).
    assert (Hs2' : 0 <= s2) by (to_Q; nra).
    destruct (Hfl (s1 + s2)) as [Hlo Hhi]; [by apply Qcplus_nonneg_nonneg|].
    set (r := fl (s1 + s2)) in *.
    assert (HL1 : A * B * q1 <= s1) by (to_Q; nra).
    assert (HL2 : A * B * q2 <= s2) by (to_Q; nra).
    assert (HU1 : s1 <= A' * B' * q1) by (to_Q; nra).
    assert (HU2 : s2 <= A' * B' * q2) by (to_Q; nra).
    set (AB := A * B) in *. set (AB' := A' * B') in *.
    assert (HAB : 0 <= AB) by (subst AB; to_Q; nra).
    assert (HAB' : 0 <= AB') by (subst AB'; to_Q; nra).
    split.
    + replace ((1 - eps) * (A * B) * (q1 + q2))
        with ((1 - eps) * (AB * q1 + AB * q2)) by (subst AB; ring).
      clearbody AB AB' A B A' B' r q1 q2. to_Q. nra.
    + replace ((1 + eps) * (A' * B') * (q1 + q2))
        with ((1 + eps) * (AB' * q1 + AB' * q2)) by (subst AB'; ring).
      clearbody AB AB' A B A' B' r q1 q2. to_Q. nra.
  - rewrite <- Hp in Hpos.
    rewrite <- (Permutation_length Hp), <- (qsum_perm _ _ Hp). by apply IH.
Qed.

Lemma qsum_rounded_quotients (fl : Qc -> Qc) (eps : Qc) (us : list Qc) (t : Qc) :
  rounds_within fl eps -> 0 < t -> Forall (Qclt 0) us ->
  (1 - eps) * (qsum us / t) <= qsum (map (fun v => fl (v / t)) us) /\
  qsum (map (fun v => fl (v / t)) us) <= (1 + eps) * (qsum us / t).
Proof.
  intros Hfl Ht. pose proof (Qcinv_pos _ Ht) as Hw. unfold Qcdiv.
  set (w := / t) in *. clearbody w.
  induction 1 as [|x l Hx _ [IHlo IHhi]]; simpl.
  - rewrite Qcmult_0_l, !Qcmult_0_r. split; apply Qcle_refl.
  - destruct (Hfl (x * w)) as [Hlo Hhi].
    { apply Qclt_le_weak. by apply Qcmult_pos_pos. }
    set (y := fl (x * w)) in *. clearbody y.
    set (T := qsum (map (fun v => fl (v * w)) l)) in *. clearbody T.
    set (q := qsum l) in *. clearbody q.
    split; to_Q; nra.
Qed.

Lemma Qcpower_pos_strict (p : Qc) (n : nat) : 0 < p -> 0 < p ^ n.
Proof.
  intros Hp. induction n as [|n IH]; [done|].
  rewrite Qcpower_S. by apply Qcmult_pos_pos.
Qed.

(** The entries of a normalised array of [n] positive numbers are
    positive, and their exact sum [T] satisfies
    [(1 - eps) ^ n <= T <= 1 / (1 - eps) ^ n]. *)
Lemma normalised_sum_powers (fl : Qc -> Qc) (eps : Qc) (us : list Qc) (t : Qc) :
  rounds_within fl eps -> 0 <= eps -> eps < 1 ->
  Forall (Qclt 0) us -> adds_up fl us t ->
  0 < t /\
  Forall (Qclt 0) (map (fun v => fl (v / t)) us) /\
  (1 - eps) ^ length us <= qsum (map (fun v => fl (v / t)) us) /\
  qsum (map (fun v => fl (v / t)) us) * (1 - eps) ^ length us <= 1.
Proof.
  intros Hfl He0 He1 Hpos Hs.
  pose proof (adds_up_nonempty _ _ _ Hs) as Hlen.
  destruct (length us) as [|k] eqn:Hk; [lia|]. clear Hlen.
  assert (Hus : us <> []) by (intros ->; discriminate).
  pose proof (qsum_pos us Hus Hpos) as Hq.
  destruct (adds_up_bounds fl eps us t Hfl He0 (Qclt_le_weak _ _ He1) Hs Hpos)
    as [Hlo Hhi].
  rewrite Hk in Hlo, Hhi. replace (S k - 1)%nat with k in Hlo, Hhi by lia.
  assert (Hp0 : 0 < 1 - eps) by (clear - He1; to_Q; lra).
  pose proof (Qcpower_pos_strict _ k Hp0) as HA.
  assert (HAB : (1 - eps) ^ k * (1 + eps) ^ k <= 1).
  { rewrite <- Qcpower_mult. apply Qcpower_le_one; clear - He0 He1; to_Q; nra. }
  assert (HB1 : 1 <= (1 + eps) ^ k).
  { apply Qcpower_one_le. clear - He0. to_Q. lra. }
  rewrite Qcpower_S.
  set (A := (1 - eps) ^ k) in *. clearbody A.
  set (B := (1 + eps) ^ k) in *. clearbody B.
  set (q := qsum us) in *.
  assert (Ht : 0 < t) by (clear - Hlo HA Hq; to_Q; nra).
  split; [done|].
  split.
  { apply Forall_fmap. eapply Forall_impl; [exact Hpos|]. intros v Hv. simpl.
    apply (fl_pos fl eps); [done..|].
    apply Qcmult_pos_pos; [done|]. by apply Qcinv_pos. }
  destruct (qsum_rounded_quotients fl eps us t Hfl Ht Hpos) as [HTlo HThi].
  fold q in HTlo, HThi.
  set (T := qsum (map (fun v => fl (v / t)) us)) in *. clearbody T.
  pose proof (Qcinv_pos _ Ht) as Hw.
  assert (Hwt : q / t * t = q).
  { unfold Qcdiv. rewrite <- Qcmult_assoc, Qcmult_inv_l; [ring|].
    intros Heq. rewrite Heq in Ht. by apply Qclt_not_eq in Ht. }
  assert (Hr0 : 0 < q / t) by (by apply Qcmult_pos_pos).
  set (r := q / t) in *. clearbody r. clearbody q. clear Hw.
  assert (HBr : 1 <= B * r).
  { assert (Hx : t <= B * r * t).
    { rewrite <- Qcmult_assoc, Hwt. done. }
    clear - Hx Ht. to_Q. nra. }
  assert (HAr : A * r <= 1).
  { assert (Hx : A * r * t <= t).
    { rewrite <- Qcmult_assoc, Hwt. done. }
    clear - Hx Ht. to_Q. nra. }
  assert (HArr : A <= r).
  { clear - HAB HBr HB1. to_Q. nra. }
  split.
  - assert (Hx : (1 - eps) * A <= (1 - eps) * r).
    { clear - HArr Hp0. to_Q. nra. }
    clear - Hx HTlo. to_Q. lra.
  - assert (H1 : T * A <= (1 + eps) * (A * r)).
    { clear - HThi HA. to_Q. nra. }
    assert (H2 : T * A <= 1 + eps).
    { clear - H1 HAr He0. to_Q. nra. }
    clear - H2 Hp0 He0. to_Q. nra.
Qed.

(** A number pinched between [c] and [1 / c], for a [c] within [a] of
    1, is within [2 * a] of 1. *)
Lemma pinch (T c a : Qc) :
  0 <= a -> 2 * a <= 1 -> 1 - a <= c -> c <= T -> T * c <= 1 ->
  1 - 2 * a <= T /\ T <= 1 + 2 * a.
Proof.
  intros Ha Ha' Hc Hlo Hhi.
  assert (Hz : T * (1 - a) <= 1) by (to_Q; nra).
  split; to_Q; nra.
Qed.

(** The exact sum of the normalised entries is within the tolerance of 1,
    and every sum of them by rounded additions within twice the
    tolerance. *)
Lemma normalised_sum_bounds (fl : Qc -> Qc) (eps : Qc) (us : list Qc) (t : Qc) :
  rounds_within fl eps -> 0 <= eps ->
  2 * tolerance (length us) eps <= 1 ->
  Forall (Qclt 0) us -> adds_up fl us t ->
  0 < t /\
  (1 - tolerance (length us) eps
     <= qsum (map (fun v => fl (v / t)) us) /\
   qsum (map (fun v => fl (v / t)) us)
     <= 1 + tolerance (length us) eps) /\
  (forall s, adds_up fl (map (fun v => fl (v / t)) us) s ->
     1 - 2 * tolerance (length us) eps <= s /\
     s <= 1 + 2 * tolerance (length us) eps).
Proof.
  unfold tolerance. intros Hfl He0 Hn Hpos Hs.
  pose proof (adds_up_nonempty _ _ _ Hs) as Hlen.
  pose proof (Qc_of_nat_nonneg (length us)) as Hn0.
  assert (Hn1 : 1 <= Qc_of_Z (Z.of_nat (length us))).
  { rewrite <- Z2Qc_inj_1. apply (proj1 (Z2Qc_inj_le 1 _)). lia. }
  assert (He1 : eps < 1).
  { set (c := Qc_of_Z (Z.of_nat (length us))) in *. clearbody c.
    clear - Hn Hn1 He0. to_Q. nra. }
  destruct (normalised_sum_powers fl eps us t Hfl He0 He1 Hpos Hs)
    as (Ht & HVpos & Hlo & Hhi).
  split; [done|].
  set (V := map (fun v => fl (v / t)) us) in *.
  assert (HlenV : length V = length us) by (subst V; by rewrite length_map).
  assert (Hp0 : 0 <= 1 - eps) by (clear - He1; to_Q; lra).
  assert (Hp1 : 1 - eps <= 1) by (clear - He0; to_Q; lra).
  pose proof (bernoulli eps (length us) He0 (Qclt_le_weak _ _ He1)) as Hb.
  split.
  - set (c := Qc_of_Z (Z.of_nat (length us))) in *.
    replace (2 * c * eps) with (2 * (c * eps)) by ring.
    apply (pinch _ ((1 - eps) ^ length us)); [| |done..].
    + clearbody c. clear - Hn0 He0. to_Q. nra.
    + clearbody c. clear - Hn. to_Q. nra.
  - intros s Hsum.
    destruct (adds_up_bounds fl eps V s Hfl He0 (Qclt_le_weak _ _ He1) Hsum HVpos)
      as [Hslo Hshi].
    rewrite HlenV in Hslo, Hshi.
    destruct (length us) as [|k] eqn:Hk; [lia|].
    replace (S k - 1)%nat with k in Hslo, Hshi by lia.
    pose proof (bernoulli eps (k + S k) He0 (Qclt_le_weak _ _ He1)) as Hb2.
    rewrite Qcpower_plus in Hb2.
    assert (HAB : (1 - eps) ^ k * (1 + eps) ^ k <= 1).
    { rewrite <- Qcpower_mult. apply Qcpower_le_one; clear - He0 He1; to_Q; nra. }
    pose proof (Qcpower_pos _ k Hp0) as HA.
    pose proof (Qcpower_pos _ (S k) Hp0) as HA'.
    assert (Hkk : Qc_of_Z (Z.of_nat (k + S k)) + 1 = 2 * Qc_of_Z (Z.of_nat (S k))).
    { replace (Z.of_nat (k + S k))
        with (Z.of_nat (S k) + Z.of_nat (S k) - 1)%Z by lia.
      rewrite Z2Qc_inj_sub, Z2Qc_inj_add, Z2Qc_inj_1. ring. }
    set (m := Qc_of_Z (Z.of_nat (k + S k))) in *.
    set (c := Qc_of_Z (Z.of_nat (S k))) in *.
    set (A := (1 - eps) ^ k) in *. set (A' := (1 - eps) ^ S k) in *.
    set (B := (1 + eps) ^ k) in *. set (T := qsum V) in *.
    clearbody m c A A' B T.
    apply (pinch _ (A * A')).
    + clear - Hn0 He0. to_Q. nra.
    + clear - Hn. to_Q. nra.
    + assert (Hm : m = 2 * c - 1) by (rewrite <- Hkk; ring).
      subst m. clear - Hb2 He0. to_Q. nra.
    + assert (Hx : A * A' <= A * T) by (clear - HA Hlo; to_Q; nra).
      clear - Hx Hslo. to_Q. lra.
    + assert (H1 : s * A <= B * A * T).
      { clear - Hshi HA. to_Q. nra. }
      assert (H2 : s * A <= T).
      { assert (0 <= T) by (clear - Hlo HA'; to_Q; lra).
        clear - H1 HAB H. to_Q. nra. }
      assert (H3 : s * A * A' <= T * A').
      { clear - H2 HA'. to_Q. nra. }
      clear - H3 Hhi. to_Q. nra.
Qed.

(** *** The rounded reconstruction on well-formed results *)

Lemma py_sum_fl_adds_up (fl : Qc -> Qc) (l : list Qc) :
  l <> [] -> adds_up fl l (py_sum_fl fl l).
Proof.
  destruct l as [|x l]; [done|]. intros _. simpl.
  change (x :: l) with ([x] ++ l).
  assert (Hx : adds_up fl [x] x) by constructor.
  revert Hx. generalize [x]. revert x.
  induction l as [|y l IH]; intros x l0 Hx; simpl.
  - by rewrite app_nil_r.
  - replace (l0 ++ y :: l) with ((l0 ++ [y]) ++ l) by (by rewrite <- app_assoc).
    apply IH. apply adds_up_app; [done|constructor].
Qed.

Lemma py_sum_fl_pos (fl : Qc -> Qc) (eps : Qc) (l : list Qc) :
  rounds_within fl eps -> eps < 1 ->
  l <> [] -> Forall (Qclt 0) l -> 0 < py_sum_fl fl l.
Proof.
  intros Hfl He Hne Hpos. destruct Hpos as [|x l Hx Hl]; [done|]. clear Hne.
  simpl. revert x Hx. induction Hl as [|y l Hy _ IH]; intros x Hx; simpl.
  - done.
  - apply IH. apply (fl_pos fl eps); [done..|]. by apply Qcplus_pos_pos.
Qed.

Lemma py_div_fl_pos (fl : Qc -> Qc) (x y : Qc) :
  0 < y -> py_div_fl fl x y = Some (fl (x / y)).
Proof.
  intros Hy. unfold py_div_fl. case_decide as Hz; [|done].
  rewrite Hz in Hy. by apply Qclt_not_eq in Hy.
Qed.

Lemma phase_volume_fl_pos (fl : Qc -> Qc) (eps : Qc) (out : MAGEMinOutput)
    (name : string) :
  rounds_within fl eps -> eps < 1 ->
  well_formed out -> name ∈ ph out ->
  exists v, phase_volume_fl fl out name = Some v /\ 0 < v.
Proof.
  intros Hfl He Hwf Hin. pose proof Hwf as (_ & Hw & _ & _ & Hwpos & _).
  unfold phase_volume_fl.
  destruct (positions name (ph out)) as [|j0 id] eqn:Hid.
  { apply list_elem_of_lookup in Hin as [j Hj].
    apply positions_spec in Hj. rewrite Hid in Hj. by apply elem_of_nil in Hj. }
  assert (Hrange : forall j, j ∈ j0 :: id -> (j < length (ph out))%nat).
  { intros j Hj. rewrite <- Hid in Hj. apply positions_spec in Hj.
    by apply lookup_lt_Some in Hj. }
  destruct (mapM_pos (rho_at out) (j0 :: id)) as (rhos & -> & Hrhos & Hlr).
  { intros j Hj. apply rho_at_pos; auto. }
  destruct (mapM_pos (fun j => ph_frac_wt out !! j) (j0 :: id))
    as (ws & Hws & Hwspos & Hlw).
  { intros j Hj.
    destruct (lookup_lt_is_Some_2 (ph_frac_wt out) j) as [w Hlk].
    { rewrite Hw. auto. }
    exists w. split; [done|]. by apply (Forall_lookup_1 _ _ _ _ Hwpos Hlk). }
  assert (Hn : 0 < Qc_of_Z (Z.of_nat (length (j0 :: id)))).
  { rewrite <- Z2Qc_inj_0. apply (proj1 (Z2Qc_inj_lt 0 _)). rewrite length_cons. lia. }
  assert (Hsr : 0 < py_sum_fl fl rhos).
  { apply (py_sum_fl_pos fl eps); [done..| |done]. intros ->. done. }
  assert (Hsw : 0 < py_sum_fl fl ws).
  { apply (py_sum_fl_pos fl eps); [done..| |done]. intros ->. done. }
  set (n := Qc_of_Z (Z.of_nat (length (j0 :: id)))) in *.
  assert (Havg : 0 < fl (py_sum_fl fl rhos / n)).
  { apply (fl_pos fl eps); [done..|].
    apply Qcmult_pos_pos; [done|]. by apply Qcinv_pos. }
  exists (fl (py_sum_fl fl ws / fl (py_sum_fl fl rhos / n))). split.
  - cbn [mbind option_bind]. rewrite (py_div_fl_pos _ _ _ Hn). cbn [mbind option_bind].
    rewrite Hws. cbn [mbind option_bind]. by rewrite (py_div_fl_pos _ _ _ Havg).
  - apply (fl_pos fl eps); [done..|].
    apply Qcmult_pos_pos; [done|]. by apply Qcinv_pos.
Qed.

Lemma positions_from_absent (k : nat) (name : string) (l : list string) :
  name ∉ l -> positions_from k name l = [].
Proof.
  revert k. induction l as [|p l IH]; intros k Hn; simpl; [done|].
  apply not_elem_of_cons in Hn as [Hne Hn].
  destruct (decide (p = name)); [congruence|]. by apply IH.
Qed.

Lemma positions_from_NoDup (k : nat) (name : string) (l : list string) (j : nat) :
  NoDup l -> l !! j = Some name -> positions_from k name l = [(k + j)%nat].
Proof.
  revert k j. induction l as [|p l IH]; intros k j Hnd Hj; [done|].
  apply NoDup_cons in Hnd as [Hp Hnd]. simpl.
  destruct j as [|j]; simpl in Hj.
  - injection Hj as ->. rewrite decide_True by done.
    rewrite positions_from_absent by done. by rewrite Nat.add_0_r.
  - rewrite decide_False.
    + rewrite (IH (S k) j) by done. f_equal. lia.
    + intros ->. apply Hp. by eapply list_elem_of_lookup_2.
Qed.

(** A phase name listed once, in row [j], contributes its weight fraction
    divided by the average of its one density. *)
Lemma phase_volume_fl_single (fl : Qc -> Qc) (eps : Qc) (out : MAGEMinOutput)
    (name : string) (j : nat) (w d : Qc) :
  rounds_within fl eps -> eps < 1 ->
  NoDup (ph out) -> ph out !! j = Some name ->
  rho_at out j = Some d -> ph_frac_wt out !! j = Some w -> 0 < d ->
  phase_volume_fl fl out name = Some (fl (w / fl (d / 1))).
Proof.
  intros Hfl He Hnd Hj Hd Hw Hpos. unfold phase_volume_fl, positions.
  rewrite (positions_from_NoDup 0 name _ j Hnd Hj). simpl plus.
  cbn [mapM]. rewrite Hd, Hw.
  cbn [mbind option_bind mret option_ret py_sum_fl foldl length].
  change (Qc_of_Z (Z.of_nat 1)) with (Qc_of_Z 1). rewrite Z2Qc_inj_1.
  rewrite (py_div_fl_pos fl d 1) by done. cbn [mbind option_bind].
  apply py_div_fl_pos. apply (fl_pos fl eps); [done..|].
  by rewrite (right_id 1 Qcdiv).
Qed.

(** The whole array: one positive entry per row before the
    normalisation, each divided by their rounded total after it. *)
Lemma volume_fractions_fl_Some (fl : Qc -> Qc) (np_sum : list Qc -> Qc)
    (eps : Qc) (out : MAGEMinOutput) :
  rounds_within fl eps -> sums_by_additions fl np_sum ->
  0 <= eps -> 2 * tolerance (length (ph out)) eps <= 1 ->
  well_formed out ->
  exists us,
    mapM (phase_volume_fl fl out) (ph out) = Some us /\
    length us = length (ph out) /\ Forall (Qclt 0) us /\
    volume_fractions_fl fl np_sum out
      = Some (map (fun v => fl (v / np_sum us)) us) /\
    (1 - tolerance (length (ph out)) eps
       <= qsum (map (fun v => fl (v / np_sum us)) us) /\
     qsum (map (fun v => fl (v / np_sum us)) us)
       <= 1 + tolerance (length (ph out)) eps) /\
    (forall s, adds_up fl (map (fun v => fl (v / np_sum us)) us) s ->
       1 - 2 * tolerance (length (ph out)) eps <= s /\
       s <= 1 + 2 * tolerance (length (ph out)) eps).
Proof.
  unfold tolerance. intros Hfl Hsum He0 Hn Hwf. pose proof Hwf as (Hne & _).
  assert (He : eps < 1).
  { destruct (ph out) as [|p l]; [done|]. rewrite length_cons, Qc_of_nat_S in Hn.
    pose proof (Qc_of_nat_nonneg (length l)) as Hl.
    set (c := Qc_of_Z (Z.of_nat (length l))) in *. clearbody c.
    clear - Hn Hl He0. to_Q. nra. }
  destruct (mapM_pos (phase_volume_fl fl out) (ph out)) as (us & Hus & Hpos & Hlen).
  { intros name Hin. by apply (phase_volume_fl_pos fl eps). }
  assert (Husne : us <> []).
  { intros ->. destruct (ph out); [done|discriminate]. }
  rewrite <- Hlen in Hn |- *.
  destruct (normalised_sum_bounds fl eps us (np_sum us) Hfl He0 Hn Hpos)
    as (Ht & Hex & Hrd); [by apply Hsum|]. unfold tolerance in Hex, Hrd.
  exists us. split; [done|]. split; [done|]. split; [done|].
  split; [|by split].
  unfold volume_fractions_fl. rewrite Hus. cbn [mbind option_bind].
  unfold np_normalize_fl. destruct us as [|u us']; [done|].
  rewrite decide_False; [done|].
  intros Heq. rewrite Heq in Ht. by apply Qclt_not_eq in Ht.
Qed.

(** *** The exact embedding is the rounded one without rounding *)

Lemma py_sum_fl_exact (l : list Qc) : py_sum_fl id l = qsum l.
Proof.
  destruct l as [|x l]; [done|]. simpl. revert x.
  induction l as [|y l IH]; intros x; simpl.
  - by rewrite Qcplus_0_r.
  - rewrite IH. unfold id. ring.
Qed.

Lemma phase_volume_fl_exact (out : MAGEMinOutput) (name : string) :
  phase_volume_fl id out name = phase_volume out name.
Proof.
  unfold phase_volume_fl, phase_volume.
  destruct (positions name (ph out)) as [|j0 id0]; [done|].
  destruct (mapM (rho_at out) (j0 :: id0)) as [rhos|]; [|done].
  cbn [mbind option_bind]. rewrite py_sum_fl_exact.
  change (py_div_fl id) with py_div.
  destruct (py_div _ _) as [r|]; [|done]. cbn [mbind option_bind].
  destruct (mapM _ (j0 :: id0)) as [ws|]; [|done]. cbn [mbind option_bind].
  by rewrite py_sum_fl_exact.
Qed.

Lemma volume_fractions_fl_exact (out : MAGEMinOutput) :
  volume_fractions_fl id qsum out = volume_fractions out.
Proof.
  unfold volume_fractions_fl, volume_fractions.
  by rewrite (mapM_ext _ _ _ (phase_volume_fl_exact out)).
Qed.

Lemma extract_phase_vol_frac_fl_exact (phase : string) (out : MAGEMinOutput) :
  extract_phase_vol_frac_fl id qsum phase out = extract_phase_vol_frac phase out.
Proof.
  unfold extract_phase_vol_frac_fl, extract_phase_vol_frac.
  by rewrite volume_fractions_fl_exact.
Qed.

(** Without rounding the tolerance is zero: in exact arithmetic the rows
    of a well-formed result add up to exactly 1. *)
Remark exact_rows_sum_one (out : MAGEMinOutput) :
  well_formed out ->
  exists V, volume_fractions out = Some V /\ qsum V = 1.
Proof.
  intros Hwf.
  destruct (volume_fractions_fl_Some id qsum 0 out)
    as (us & _ & _ & _ & HV & [Hlo Hhi] & _).
  - intros x _. unfold id. split; to_Q; lra.
  - intros l Hl. rewrite <- py_sum_fl_exact. by apply py_sum_fl_adds_up.
  - apply Qcle_refl.
  - unfold tolerance. rewrite !Qcmult_0_r. done.
  - done.
  - rewrite volume_fractions_fl_exact in HV. eexists. split; [exact HV|].
    unfold tolerance in Hlo, Hhi. rewrite !Qcmult_0_r in Hlo, Hhi.
    replace (1 - 0) with 1 in Hlo by ring. rewrite Qcplus_0_r in Hhi.
    by apply Qcle_antisym.
Qed.


(** ** The path loop *)

Section EngineFacts.

Context {Data : Type}.
Variable single_point_minimization :
  Qc -> Qc -> Data -> list Qc -> list string -> string -> option MAGEMinOutput.
Variable calculate_molar_fractions : gmap string Qc -> option (gmap string Qc).
Variables (T : list Qc) (data : Data) (sys_in : string) (fractionate : Z).

Local Abbreviation evaluate := (gt_single_point_calc_endmembers single_point_minimization).
Local Abbreviation step := (path_step single_point_minimization calculate_molar_fractions
                    T data sys_in fractionate).
Local Abbreviation loop := (path_loop single_point_minimization calculate_molar_fractions
                    T data sys_in fractionate).

Ltac bind_inv H :=
  repeat match type of H with
  | mbind _ ?e = Some _ =>
      let E := fresh "E" in
      destruct e eqn:E; cbn [mbind option_bind] in H; [|discriminate H]
  end.

(** What one iteration reads and writes. *)
Lemma path_step_inv (i : nat) (Pi : Qc) (st st' : path_state) :
  step i Pi st = Some st' ->
  exists Ti r m0 w0 v0,
    T !! i = Some Ti /\
    evaluate Pi Ti data (X st) (Xoxides st) sys_in = Some r /\
    gt_mol_frac_initial st' = Some m0 /\
    gt_wt_frac_initial st' = Some w0 /\
    gt_vol_frac_initial st' = Some v0 /\
    (i = 0%nat -> m0 = r_gt_frac r /\ w0 = r_gt_wt r /\ v0 = r_gt_vol r) /\
    (i <> 0%nat -> gt_mol_frac_initial st = Some m0 /\
                   gt_wt_frac_initial st = Some w0 /\
                   gt_vol_frac_initial st = Some v0) /\
    (i < length (gt_mol_frac st))%nat /\
    gt_mol_frac st' = <[i := r_gt_frac r - m0]> (gt_mol_frac st) /\
    (i < length (gt_wt_frac st))%nat /\
    gt_wt_frac st' = <[i := r_gt_wt r - w0]> (gt_wt_frac st) /\
    (i < length (gt_vol_frac st))%nat /\
    gt_vol_frac st' = <[i := r_gt_vol r - v0]> (gt_vol_frac st) /\
    (eq_True fractionate = false ->
       d_gt_mol_frac st' = d_gt_mol_frac st /\
       d_gt_wt_frac st' = d_gt_wt_frac st /\
       X st' = X st /\ Xoxides st' = Xoxides st) /\
    (eq_True fractionate = true ->
       exists dm dw,
         delta_at i (gt_mol_frac st') = Some dm /\
         (i < length (d_gt_mol_frac st))%nat /\
         d_gt_mol_frac st' = <[i := dm]> (d_gt_mol_frac st) /\
         delta_at i (gt_wt_frac st') = Some dw /\
         (i < length (d_gt_wt_frac st))%nat /\
         d_gt_wt_frac st' = <[i := dw]> (d_gt_wt_frac st) /\
         fractionate_bulk sys_in i (r_gt_frac r) (r_out r)
           (d_gt_mol_frac st') (d_gt_wt_frac st') (X st) (Xoxides st)
         = Some (X st', Xoxides st')).
Proof.
  intros H. unfold path_step in H.
  destruct (decide (i = 0%nat)) as [Hi|Hi]; bind_inv H;
    destruct (eq_True fractionate) eqn:Hf; bind_inv H;
    try match goal with p : (list Qc * list string)%type |- _ => destruct p end;
    injection H as <-; cbn [X Xoxides gt_mol_frac gt_wt_frac gt_vol_frac
      d_gt_mol_frac d_gt_wt_frac gt_mol_frac_initial gt_wt_frac_initial
      gt_vol_frac_initial] in *;
    repeat match goal with
      | H : setitem _ _ _ = Some _ |- _ => apply setitem_Some in H as [? ->]
      | H : Some _ = Some _ |- _ => injection H as ->
      end.
  all: do 5 eexists; split_and!; try reflexivity; try eassumption; try done.
  all: try (intros _; do 2 eexists; split_and!; try reflexivity; eassumption).
Qed.

(** *** The recorded locals form a chain of iterations *)

Lemma path_loop_head (todo : list Qc) (i : nat) (st : path_state) :
  (loop i todo st).1 !! 0%nat = Some st.
Proof.
  destruct todo as [|Pi todo]; simpl; [done|].
  destruct (step i Pi st) as [st'|]; [|done].
  by destruct (loop (S i) todo st').
Qed.

Lemma path_loop_next (todo : list Qc) (i : nat) (st : path_state)
    (k : nat) (a b : path_state) :
  (loop i todo st).1 !! k = Some a ->
  (loop i todo st).1 !! S k = Some b ->
  exists Pk, todo !! k = Some Pk /\ step (i + k) Pk a = Some b.
Proof.
  revert i st k. induction todo as [|Pi todo IH]; intros i st k; simpl.
  - by rewrite lookup_nil.
  - destruct (step i Pi st) as [st'|] eqn:Hstep; simpl.
    2: { by rewrite lookup_nil. }
    pose proof (path_loop_head todo (S i) st') as Hhead.
    specialize (IH (S i) st').
    destruct (loop (S i) todo st') as [tr r]; simpl in *.
    destruct k as [|k]; simpl.
    + intros [= <-] Hb. exists Pi. rewrite Nat.add_0_r.
      split; [done|]. congruence.
    + intros Ha Hb. destruct (IH k Ha Hb) as (Pk & HPk & Hs).
      exists Pk. split; [done|]. by rewrite Nat.add_succ_r.
Qed.

Lemma path_loop_final (todo : list Qc) (i : nat) (st st' : path_state) :
  (loop i todo st).2 = Some st' ->
  (loop i todo st).1 !! length todo = Some st'.
Proof.
  revert i st. induction todo as [|Pi todo IH]; intros i st; simpl.
  - by intros [= <-].
  - destruct (step i Pi st) as [st1|] eqn:Hstep; simpl; [|done].
    specialize (IH (S i) st1).
    destruct (loop (S i) todo st1) as [tr r]; simpl in *. done.
Qed.

Lemma path_loop_length (todo : list Qc) (i : nat) (st : path_state) :
  (length (loop i todo st).1 <= S (length todo))%nat.
Proof.
  revert i st. induction todo as [|Pi todo IH]; intros i st; simpl; [done|].
  destruct (step i Pi st) as [st1|] eqn:Hstep; simpl; [|lia].
  specialize (IH (S i) st1).
  destruct (loop (S i) todo st1) as [tr r]; simpl in *. lia.
Qed.

Variables (P : list Qc) (X0 : list Qc) (Xoxides0 : list string).

Local Abbreviation states :=
  (path_states single_point_minimization calculate_molar_fractions
     T data sys_in fractionate P X0 Xoxides0).
Local Abbreviation run :=
  (garnet_over_path single_point_minimization calculate_molar_fractions
     T data sys_in fractionate P X0 Xoxides0).
Local Abbreviation result_at :=
  (step_result single_point_minimization calculate_molar_fractions
     T data sys_in fractionate P X0 Xoxides0).

Lemma states_head : states !! 0%nat = Some (initial_state (length P) X0 Xoxides0).
Proof. apply path_loop_head. Qed.

Lemma states_next (k : nat) (a b : path_state) :
  states !! k = Some a -> states !! S k = Some b ->
  exists Pk, P !! k = Some Pk /\ step k Pk a = Some b.
Proof. intros Ha Hb. apply (path_loop_next P 0 _ k a b Ha Hb). Qed.

Lemma states_final (res : path_result) :
  run = Some res ->
  exists st', states !! length P = Some st' /\ res = returned st'.
Proof.
  unfold garnet_over_path, path_states. intros Hrun.
  apply fmap_Some in Hrun as (st' & Hst' & ->).
  exists st'. split; [|done]. by apply path_loop_final.
Qed.

(** Induction along the iterations of one run. *)
Lemma states_ind (I : nat -> path_state -> Prop) :
  I 0%nat (initial_state (length P) X0 Xoxides0) ->
  (forall k Pk a b, P !! k = Some Pk -> states !! k = Some a ->
     states !! S k = Some b -> I k a -> step k Pk a = Some b -> I (S k) b) ->
  forall k a, states !! k = Some a -> I k a.
Proof.
  intros H0 Hstep k. induction k as [|k IH]; intros a Ha.
  - rewrite states_head in Ha. by injection Ha as <-.
  - destruct (lookup_lt_is_Some_2 states k) as [a0 Ha0].
    { apply lookup_lt_Some in Ha. lia. }
    destruct (states_next k a0 a Ha0 Ha) as (Pk & HPk & Hs).
    eapply Hstep; eauto.
Qed.

Lemma result_at_Some (i : nat) (r : endmembers_result) :
  result_at i = Some r <->
  exists st Pi Ti, states !! i = Some st /\ P !! i = Some Pi /\ T !! i = Some Ti /\
    evaluate Pi Ti data (X st) (Xoxides st) sys_in = Some r.
Proof.
  unfold step_result. split.
  - intros H. bind_inv H. eauto 10.
  - intros (st & Pi & Ti & -> & -> & -> & Hr). done.
Qed.

(** An iteration that completed is described by its evaluator result. *)
Lemma states_step (i : nat) (a b : path_state) (r : endmembers_result) :
  states !! i = Some a -> states !! S i = Some b -> result_at i = Some r ->
  exists Pi Ti, P !! i = Some Pi /\ T !! i = Some Ti /\
    evaluate Pi Ti data (X a) (Xoxides a) sys_in = Some r /\
    step i Pi a = Some b.
Proof.
  intros Ha Hb Hr.
  destruct (states_next i a b Ha Hb) as (Pi & HPi & Hs).
  apply result_at_Some in Hr as (st & Pi' & Ti & Hst & HPi' & HTi & Hev).
  assert (st = a) as -> by congruence.
  assert (Pi' = Pi) as -> by congruence.
  eauto 10.
Qed.

(** *** The evaluator and the bulk update *)

Lemma evaluate_inv (Pi Ti : Qc) (X1 : list Qc) (Xox1 : list string)
    (r : endmembers_result) :
  evaluate Pi Ti data X1 Xox1 sys_in = Some r ->
  single_point_minimization Pi Ti data X1 Xox1 sys_in = Some (r_out r) /\
  ("g" ∉ ph (r_out r) -> r_gt_frac r = 0) /\
  (0 < r_gt_frac r -> "g" ∈ ph (r_out r)).
Proof.
  unfold gt_single_point_calc_endmembers. intros H. bind_inv H.
  case_decide as Hg.
  - bind_inv H. injection H as <-. simpl. split_and!; done.
  - injection H as <-. simpl. split_and!; [done..|].
    intros Hlt. by apply Qclt_not_eq in Hlt.
Qed.

Lemma gt0_true (x : Qc) : gt0 x = true <-> 0 < x.
Proof. unfold gt0. apply bool_decide_eq_true. Qed.

Lemma gt0_false (x : Qc) : gt0 x = false <-> x <= 0.
Proof.
  unfold gt0. rewrite bool_decide_eq_false. split.
  - apply Qcnot_lt_le.
  - apply Qcle_not_lt.
Qed.

Lemma fractionate_bulk_nonpos (i : nat) (gt_frac : Qc) (out : MAGEMinOutput)
    (dm dw : list Qc) (X1 : list Qc) (Xox1 : list string) :
  gt_frac <= 0 ->
  fractionate_bulk sys_in i gt_frac out dm dw X1 Xox1 = Some (X1, Xox1).
Proof. intros H%gt0_false. unfold fractionate_bulk. by rewrite H. Qed.

Lemma fractionate_bulk_wt (i : nat) (gt_frac : Qc) (out : MAGEMinOutput)
    (dm dw : list Qc) (X1 X2 : list Qc) (Xox1 Xox2 : list string) :
  0 < gt_frac -> sys_in = "wt" ->
  fractionate_bulk sys_in i gt_frac out dm dw X1 Xox1 = Some (X2, Xox2) ->
  exists garnet_ind ss d,
    index "g" (ph out) = Some garnet_ind /\
    SS_vec out !! garnet_ind = Some ss /\
    dw !! i = Some d /\
    deplete (bulk_wt out) (Comp_wt ss) d = Some X2 /\
    Xox2 = oxides out.
Proof.
  intros Hpos%gt0_true Hsys. unfold fractionate_bulk. rewrite Hpos.
  intros H. bind_inv H. rewrite decide_True in H by done.
  bind_inv H. injection H as <- <-. eauto 10.
Qed.

Lemma fractionate_bulk_mol (i : nat) (gt_frac : Qc) (out : MAGEMinOutput)
    (dm dw : list Qc) (X1 X2 : list Qc) (Xox1 Xox2 : list string) :
  0 < gt_frac -> sys_in = "mol" ->
  fractionate_bulk sys_in i gt_frac out dm dw X1 Xox1 = Some (X2, Xox2) ->
  exists garnet_ind ss d,
    index "g" (ph out) = Some garnet_ind /\
    SS_vec out !! garnet_ind = Some ss /\
    dm !! i = Some d /\
    deplete (bulk out) (Comp ss) d = Some X2 /\
    Xox2 = oxides out.
Proof.
  intros Hpos%gt0_true Hsys. unfold fractionate_bulk. rewrite Hpos.
  intros H. bind_inv H. rewrite decide_False in H by (by rewrite Hsys).
  rewrite decide_True in H by done.
  bind_inv H. injection H as <- <-. eauto 10.
Qed.

Lemma fractionate_bulk_other (i : nat) (gt_frac : Qc) (out : MAGEMinOutput)
    (dm dw : list Qc) (X1 : list Qc) (Xox1 : list string) :
  sys_in <> "wt" -> sys_in <> "mol" -> (0 < gt_frac -> "g" ∈ ph out) ->
  fractionate_bulk sys_in i gt_frac out dm dw X1 Xox1
  = Some (X1, if gt0 gt_frac then oxides out else Xox1).
Proof.
  intros Hwt Hmol Hg. unfold fractionate_bulk.
  destruct (gt0 gt_frac) eqn:Hpos; [|done].
  apply gt0_true, Hg, index_is_Some in Hpos as [j ->]. simpl.
  by rewrite !decide_False.
Qed.

Lemma deplete_elementwise (b c : list Qc) (d : Qc) :
  length b = length c ->
  deplete b c d = Some (zip_with (fun x y => x - x * y * d) b c).
Proof.
  intros Hlen. unfold deplete, np_binop, np_scale.
  rewrite decide_True by done. simpl.
  rewrite decide_True.
  2: { rewrite length_map, length_zip_with. lia. }
  f_equal. clear Hlen. revert c.
  induction b as [|x b IH]; intros [|y c]; simpl; [done..|].
  by rewrite IH.
Qed.

(** *** Claims about the bulk composition *)


(** C3. With fractionation enabled, an iteration whose raw garnet mole
    fraction is not positive, in particular one whose assemblage has no
    garnet, leaves the bulk composition (and the oxide list) for the
    next iteration as it found them. *)
Theorem bulk_kept_without_garnet (i : nat) (r : endmembers_result)
    (st st' : path_state) :
  eq_True fractionate = true ->
  result_at i = Some r ->
  r_gt_frac r <= 0 \/ "g" ∉ ph (r_out r) ->
  states !! i = Some st ->
  states !! S i = Some st' ->
  X st' = X st /\ Xoxides st' = Xoxides st.
Proof.
  intros Hon Hr Hnog Hst Hst'.
  destruct (states_step i st st' r Hst Hst' Hr) as (Pi & Ti & _ & HTi & Hev & Hstep).
  assert (Hle : r_gt_frac r <= 0).
  { destruct Hnog as [?|Habs]; [done|].
    apply evaluate_inv in Hev as (_ & Hz & _). rewrite (Hz Habs).
    apply Qcle_refl. }
  apply path_step_inv in Hstep
    as (Ti' & r' & m0 & w0 & v0 & HTi' & Hev' & _ & _ & _ & _ & _ & _ & _ & _
        & _ & _ & _ & _ & Htrue).
  assert (Ti' = Ti) as -> by congruence.
  assert (r' = r) as -> by congruence.
  destruct (Htrue Hon) as (dm & dw & _ & _ & _ & _ & _ & _ & Hfb).
  rewrite fractionate_bulk_nonpos in Hfb by done.
  by injection Hfb as <- <-.
Qed.


(** C10. With fractionation enabled, a positive raw garnet mole
    fraction in iteration [i] and a [sys_in] that is neither ["wt"] nor
    ["mol"], the oxide list left for iteration [i + 1] is the solver's
    [oxides] while the bulk composition is the one iteration [i]
    started with; the next solver call, when there is one, receives
    exactly this pair. *)
Theorem oxides_replaced_bulk_kept (i : nat) (r : endmembers_result)
    (st st' : path_state) :
  eq_True fractionate = true ->
  result_at i = Some r ->
  0 < r_gt_frac r ->
  sys_in <> "wt" -> sys_in <> "mol" ->
  states !! i = Some st ->
  states !! S i = Some st' ->
  Xoxides st' = oxides (r_out r) /\
  X st' = X st /\
  (forall r' Pj Tj, result_at (S i) = Some r' ->
     P !! S i = Some Pj -> T !! S i = Some Tj ->
     single_point_minimization Pj Tj data (X st) (oxides (r_out r)) sys_in
     = Some (r_out r')).
Proof.
  intros Hon Hr Hpos Hwt Hmol Hst Hst'.
  destruct (states_step i st st' r Hst Hst' Hr) as (Pi & Ti & _ & HTi & Hev & Hstep).
  apply path_step_inv in Hstep
    as (Ti' & r1 & m0 & w0 & v0 & HTi' & Hev' & _ & _ & _ & _ & _ & _ & _ & _
        & _ & _ & _ & _ & Htrue).
  assert (Ti' = Ti) as -> by congruence.
  assert (r1 = r) as -> by congruence.
  destruct (Htrue Hon) as (dm & dw & _ & _ & _ & _ & _ & _ & Hfb).
  rewrite fractionate_bulk_other in Hfb; [|done..|].
  2: { by apply evaluate_inv in Hev as (_ & _ & ?). }
  apply gt0_true in Hpos. rewrite Hpos in Hfb.
  injection Hfb as HX HXo.
  split_and!; [done..|].
  intros r' Pj Tj Hr' HPj HTj.
  apply result_at_Some in Hr' as (st1 & Pj' & Tj' & Hst1 & HPj' & HTj' & Hev1).
  assert (st1 = st') as -> by congruence.
  assert (Pj' = Pj) as -> by congruence.
  assert (Tj' = Tj) as -> by congruence.
  apply evaluate_inv in Hev1 as (Hsolve & _). by rewrite <- HX, <- HXo in Hsolve.
Qed.


(** *** Claims about the returned arrays *)

Lemma Qcminus_diag (x : Qc) : x - x = 0.
Proof. unfold Qcminus. apply Qcplus_opp_r. Qed.

Lemma delta_at_insert_lt (j k : nat) (v : Qc) (g : list Qc) :
  (j < k)%nat -> delta_at j (<[k:=v]> g) = delta_at j g.
Proof.
  intros Hjk. unfold delta_at. case_decide.
  - rewrite list_lookup_insert_ne by lia. done.
  - rewrite !list_lookup_insert_ne by lia. done.
Qed.

(** C6. When the run completes on a path with at least one point, the
    returned growth at index 0 is 0 for the mole fraction and for the
    weight fraction, whatever the solver returned there. *)
Theorem first_growth_is_zero (res : path_result) :
  run = Some res -> (1 <= length P)%nat ->
  out_gt_mol_frac res !! 0%nat = Some 0 /\
  out_gt_wt_frac res !! 0%nat = Some 0.
Proof.
  intros Hrun HN. apply states_final in Hrun as (st' & Hst' & ->). simpl.
  revert HN.
  apply (states_ind (fun k st => (1 <= k)%nat ->
           gt_mol_frac st !! 0%nat = Some 0 /\ gt_wt_frac st !! 0%nat = Some 0)
           ltac:(intros ?; lia)) with (k := length P); [|done].
  intros k Pk a b _ _ _ IH Hstep _.
  apply path_step_inv in Hstep
    as (Ti & r & m0 & w0 & v0 & _ & _ & _ & _ & _ & Hfirst & _ & Hlm & -> & Hlw
        & -> & _).
  destruct k as [|k].
  - destruct Hfirst as (-> & -> & _); [done|].
    rewrite !Qcminus_diag, !list_lookup_insert_eq by done. done.
  - rewrite !list_lookup_insert_ne by done. apply IH. lia.
Qed.

(** C1, as the code has it.  When the run completes:
    with fractionation enabled, every index [i] of the path has
    [d[0] = g[0]] and, for [i > 0], [d[i] = g[i] - g[i-1]], for the
    returned mole-fraction arrays and for the weight-fraction arrays;
    with fractionation disabled both returned delta arrays are the
    zero arrays they were created as. *)
Theorem delta_only_when_fractionating (res : path_result) :
  run = Some res ->
  (eq_True fractionate = true ->
     forall i, (i < length P)%nat ->
       (i = 0%nat ->
          is_Some (out_d_gt_mol_frac res !! 0%nat) /\
          out_d_gt_mol_frac res !! 0%nat = out_gt_mol_frac res !! 0%nat /\
          out_d_gt_wt_frac res !! 0%nat = out_gt_wt_frac res !! 0%nat) /\
       (i <> 0%nat ->
          exists gm gm' gw gw',
            out_gt_mol_frac res !! i = Some gm /\
            out_gt_mol_frac res !! (i - 1)%nat = Some gm' /\
            out_d_gt_mol_frac res !! i = Some (gm - gm') /\
            out_gt_wt_frac res !! i = Some gw /\
            out_gt_wt_frac res !! (i - 1)%nat = Some gw' /\
            out_d_gt_wt_frac res !! i = Some (gw - gw'))) /\
  (eq_True fractionate = false ->
     out_d_gt_mol_frac res = np_zeros (length P) /\
     out_d_gt_wt_frac res = np_zeros (length P)).
Proof.
  intros Hrun. apply states_final in Hrun as (st' & Hst' & ->). simpl. split.
  - intros Hon.
    assert (Hinv : forall i, (i < length P)%nat ->
              exists dm dw,
                d_gt_mol_frac st' !! i = Some dm /\
                delta_at i (gt_mol_frac st') = Some dm /\
                d_gt_wt_frac st' !! i = Some dw /\
                delta_at i (gt_wt_frac st') = Some dw).
    { apply (states_ind (fun k st => forall i, (i < k)%nat ->
               exists dm dw,
                 d_gt_mol_frac st !! i = Some dm /\
                 delta_at i (gt_mol_frac st) = Some dm /\
                 d_gt_wt_frac st !! i = Some dw /\
                 delta_at i (gt_wt_frac st) = Some dw)
               ltac:(intros ? ?; lia)) with (k := length P); [|done].
      intros k Pk a b _ _ _ IH Hstep i Hi.
      apply path_step_inv in Hstep
        as (Ti & r & m0 & w0 & v0 & _ & _ & _ & _ & _ & _ & _ & _ & Hgm & _ & Hgw
            & _ & _ & _ & Htrue).
      destruct (Htrue Hon) as (dm & dw & Hdm & Hlm & Hm & Hdw & Hlw & Hw & _).
      destruct (decide (i = k)) as [->|Hne].
      - exists dm, dw. rewrite Hm, Hw, !list_lookup_insert_eq by done. done.
      - destruct (IH i) as (dm' & dw' & ? & ? & ? & ?); [lia|].
        exists dm', dw'.
        rewrite Hm, Hw, Hgm, Hgw, !list_lookup_insert_ne,
          !delta_at_insert_lt by lia.
        done. }
    intros i Hi. destruct (Hinv i Hi) as (dm & dw & Hdm & Hm & Hdw & Hw).
    unfold delta_at in Hm, Hw. split.
    + intros ->. rewrite decide_True in Hm, Hw by done.
      rewrite Hdm, Hdw. split_and!; [by eexists|done..].
    + intros Hne. rewrite decide_False in Hm, Hw by done.
      destruct (gt_mol_frac st' !! i) as [gm|]; [|done].
      destruct (gt_mol_frac st' !! (i - 1)%nat) as [gm'|]; [|done].
      destruct (gt_wt_frac st' !! i) as [gw|]; [|done].
      destruct (gt_wt_frac st' !! (i - 1)%nat) as [gw'|]; [|done].
      simpl in Hm, Hw. injection Hm as <-. injection Hw as <-.
      exists gm, gm', gw, gw'. done.
  - intros Hoff.
    apply (states_ind (fun _ st =>
             d_gt_mol_frac st = np_zeros (length P) /\
             d_gt_wt_frac st = np_zeros (length P)))
      with (k := length P); [done| |done].
    intros k Pk a b _ _ _ [IHm IHw] Hstep.
    apply path_step_inv in Hstep
      as (Ti & r & m0 & w0 & v0 & _ & _ & _ & _ & _ & _ & _ & _ & _ & _ & _
          & _ & _ & Hfalse & _).
    destruct (Hfalse Hoff) as (-> & -> & _). done.
Qed.

(** C7, as the code has it.  When the run completes, the returned
    mole, weight and volume fraction at index [i] are the evaluator's
    raw value of iteration [i] minus the evaluator's raw value of
    iteration 0; the raw values themselves are not part of the returned
    tuple. *)
Theorem returned_fractions_are_zeroed (res : path_result)
    (r0 ri : endmembers_result) (i : nat) :
  run = Some res ->
  result_at 0 = Some r0 ->
  result_at i = Some ri ->
  out_gt_mol_frac res !! i = Some (r_gt_frac ri - r_gt_frac r0) /\
  out_gt_wt_frac res !! i = Some (r_gt_wt ri - r_gt_wt r0) /\
  out_gt_vol_frac res !! i = Some (r_gt_vol ri - r_gt_vol r0).
Proof.
  intros Hrun Hr0 Hri. apply states_final in Hrun as (st' & Hst' & ->). simpl.
  assert (Hi : (i < length P)%nat).
  { apply result_at_Some in Hri as (? & ? & ? & _ & HP & _).
    by apply lookup_lt_Some in HP. }
  revert i ri Hri Hi.
  apply (states_ind (fun k st =>
           (1 <= k ->
              gt_mol_frac_initial st = Some (r_gt_frac r0) /\
              gt_wt_frac_initial st = Some (r_gt_wt r0) /\
              gt_vol_frac_initial st = Some (r_gt_vol r0))%nat /\
           forall i ri, result_at i = Some ri -> (i < k)%nat ->
             gt_mol_frac st !! i = Some (r_gt_frac ri - r_gt_frac r0) /\
             gt_wt_frac st !! i = Some (r_gt_wt ri - r_gt_wt r0) /\
             gt_vol_frac st !! i = Some (r_gt_vol ri - r_gt_vol r0)))
    with (k := length P); [split; [intros ?|intros ? ? ? ?]; lia| |done].
  intros k Pk a b HPk Ha Hb [IH0 IH] Hstep.
  assert (Hrk : exists rk, result_at k = Some rk /\
            exists Tk, T !! k = Some Tk /\
              evaluate Pk Tk data (X a) (Xoxides a) sys_in = Some rk).
  { pose proof Hstep as Hs. apply path_step_inv in Hs
      as (Tk & rk & _ & _ & _ & HTk & Hev & _).
    exists rk. split; [|eauto]. apply result_at_Some. eauto 10. }
  destruct Hrk as (rk & Hrk & Tk & HTk & Hevk).
  apply path_step_inv in Hstep
    as (Ti & r & m0 & w0 & v0 & HTi & Hev & Hm0 & Hw0 & Hv0 & Hfirst & Hlater
        & Hlm & Hgm & Hlw & Hgw & Hlv & Hgv & _).
  assert (Ti = Tk) as -> by congruence.
  assert (r = rk) as -> by congruence.
  assert (Hbase : m0 = r_gt_frac r0 /\ w0 = r_gt_wt r0 /\ v0 = r_gt_vol r0).
  { destruct k as [|k].
    - assert (rk = r0) as -> by congruence. by apply Hfirst.
    - destruct Hlater as (Hm & Hw & Hv); [done|].
      destruct IH0 as (Hm' & Hw' & Hv'); [lia|].
      split_and!; congruence. }
  destruct Hbase as (-> & -> & ->).
  split; [done|].
  intros i ri Hri Hi. rewrite Hgm, Hgw, Hgv.
  destruct (decide (i = k)) as [->|Hne].
  - assert (ri = rk) as -> by congruence.
    rewrite !list_lookup_insert_eq by done. done.
  - rewrite !list_lookup_insert_ne by done. apply IH; [done|lia].
Qed.

(** *** Completion *)

Lemma setitem_lt {A} (i : nat) (v : A) (a : list A) :
  (i < length a)%nat -> setitem i v a = Some (<[i:=v]> a).
Proof. intros Hi. unfold setitem. by rewrite decide_True. Qed.

Lemma delta_at_is_Some (i : nat) (g : list Qc) :
  (i < length g)%nat -> is_Some (delta_at i g).
Proof.
  intros Hi. unfold delta_at. case_decide.
  - apply lookup_lt_is_Some_2. lia.
  - destruct (lookup_lt_is_Some_2 g i Hi) as [a ->].
    destruct (lookup_lt_is_Some_2 g (i - 1)) as [b ->]; [lia|].
    by eexists.
Qed.

Lemma evaluate_total (Pi Ti : Qc) (X1 : list Qc) (Xox1 : list string)
    (out : MAGEMinOutput) :
  single_point_minimization Pi Ti data X1 Xox1 sys_in = Some out ->
  garnet_ready out ->
  exists r, evaluate Pi Ti data X1 Xox1 sys_in = Some r /\ r_out r = out.
Proof.
  intros Hout Hready. unfold gt_single_point_calc_endmembers.
  rewrite Hout. cbn [mbind option_bind]. case_decide as Hg.
  - destruct (index_is_Some _ _ Hg) as [gi Hgi].
    destruct (Hready gi Hgi) as [[V HV] _].
    unfold extract_phase_vol_frac. rewrite HV. cbn [mbind option_bind].
    by eexists.
  - by eexists.
Qed.

Lemma fractionate_bulk_total (i : nat) (r : endmembers_result)
    (dm dw : list Qc) (X1 : list Qc) (Xox1 : list string) :
  garnet_ready (r_out r) ->
  (0 < r_gt_frac r -> "g" ∈ ph (r_out r)) ->
  (i < length dm)%nat -> (i < length dw)%nat ->
  is_Some (fractionate_bulk sys_in i (r_gt_frac r) (r_out r) dm dw X1 Xox1).
Proof.
  intros Hready Hg Hdm Hdw. unfold fractionate_bulk.
  destruct (gt0 (r_gt_frac r)) eqn:Hpos; [|by eexists].
  apply gt0_true, Hg, index_is_Some in Hpos as [gi Hgi]. rewrite Hgi.
  destruct (Hready gi Hgi) as (_ & ss & Hss & Hlw & Hlm).
  destruct (lookup_lt_is_Some_2 dm i Hdm) as [d1 Hd1].
  destruct (lookup_lt_is_Some_2 dw i Hdw) as [d2 Hd2].
  cbn [mbind option_bind]. rewrite Hss, Hd1, Hd2. cbn [mbind option_bind].
  rewrite !deplete_elementwise by done. cbn [mbind option_bind].
  repeat case_decide; by eexists.
Qed.

(** One iteration completes when its inputs are in place. *)
Lemma path_step_total (n i : nat) (Pi Ti : Qc) (st : path_state) :
  converter_total calculate_molar_fractions ->
  (forall Pj Tj X1 Xox1, exists out,
     single_point_minimization Pj Tj data X1 Xox1 sys_in = Some out /\
     garnet_ready out) ->
  arrays_sized n st -> (i < n)%nat -> T !! i = Some Ti ->
  (i <> 0%nat -> initials_bound st) ->
  exists st', step i Pi st = Some st' /\ arrays_sized n st' /\ initials_bound st'.
Proof.
  intros Hconv Hsolver Hsz Hi HTi Hinit.
  destruct Hsz as (L1 & L2 & L3 & L4 & L5 & L6 & L7 & L8 & L9 & L10 & L11
                   & L12 & L13 & L14).
  destruct (Hsolver Pi Ti (X st) (Xoxides st)) as (out & Hout & Hready).
  destruct (evaluate_total _ _ _ _ _ Hout Hready) as (r & Hr & Hrout).
  destruct (Hconv r)
    as (mf & Hmf & [mg Hmg] & [mn Hmn] & [fe Hfe] & [ca Hca]).
  assert (Hbound : exists m0 w0 v0,
    (if decide (i = 0%nat) then Some (r_gt_frac r) else gt_mol_frac_initial st) = Some m0 /\
    (if decide (i = 0%nat) then Some (r_gt_wt r) else gt_wt_frac_initial st) = Some w0 /\
    (if decide (i = 0%nat) then Some (r_gt_vol r) else gt_vol_frac_initial st) = Some v0).
  { case_decide as Hz; [by eexists _, _, _|].
    destruct (Hinit Hz) as ([m0 ->] & [w0 ->] & [v0 ->]). by eexists _, _, _. }
  destruct Hbound as (m0 & w0 & v0 & Hm0 & Hw0 & Hv0).
  unfold garnet_fractions_of in Hmf.
  unfold path_step. rewrite HTi. cbn [mbind option_bind].
  rewrite Hr. cbn [mbind option_bind].
  rewrite !setitem_lt by lia. cbn [mbind option_bind].
  rewrite Hmf. cbn [mbind option_bind].
  rewrite Hmg. cbn [mbind option_bind]. rewrite setitem_lt by lia.
  cbn [mbind option_bind].
  rewrite Hmn. cbn [mbind option_bind]. rewrite setitem_lt by lia.
  cbn [mbind option_bind].
  rewrite Hfe. cbn [mbind option_bind]. rewrite setitem_lt by lia.
  cbn [mbind option_bind].
  rewrite Hca. cbn [mbind option_bind]. rewrite setitem_lt by lia.
  cbn [mbind option_bind].
  rewrite Hm0, Hw0, Hv0. cbn [mbind option_bind].
  rewrite !setitem_lt by lia. cbn [mbind option_bind].
  destruct (eq_True fractionate).
  - destruct (delta_at_is_Some i (<[i:=r_gt_frac r - m0]> (gt_mol_frac st)))
      as [dm Hdm]; [rewrite length_insert; lia|].
    destruct (delta_at_is_Some i (<[i:=r_gt_wt r - w0]> (gt_wt_frac st)))
      as [dw Hdw]; [rewrite length_insert; lia|].
    rewrite Hdm. cbn [mbind option_bind]. rewrite setitem_lt by lia.
    cbn [mbind option_bind].
    rewrite Hdw. cbn [mbind option_bind]. rewrite setitem_lt by lia.
    cbn [mbind option_bind].
    destruct (fractionate_bulk_total i r (<[i:=dm]> (d_gt_mol_frac st))
                (<[i:=dw]> (d_gt_wt_frac st)) (X st) (Xoxides st))
      as [[X' Xox'] Hfb].
    { by rewrite Hrout. }
    { by apply evaluate_inv in Hr as (_ & _ & ?). }
    { rewrite length_insert. lia. }
    { rewrite length_insert. lia. }
    rewrite Hfb. cbn [mbind option_bind].
    eexists. split; [reflexivity|].
    unfold arrays_sized, initials_bound. simpl.
    rewrite !length_insert. split_and!; by eauto.
  - eexists. split; [reflexivity|].
    unfold arrays_sized, initials_bound. simpl.
    rewrite !length_insert. split_and!; by eauto.
Qed.

Lemma path_loop_total (todo : list Qc) (n i : nat) (st : path_state) :
  converter_total calculate_molar_fractions ->
  (forall Pj Tj X1 Xox1, exists out,
     single_point_minimization Pj Tj data X1 Xox1 sys_in = Some out /\
     garnet_ready out) ->
  (n <= length T)%nat -> (i + length todo = n)%nat ->
  arrays_sized n st -> (i <> 0%nat -> initials_bound st) ->
  is_Some (loop i todo st).2.
Proof.
  intros Hconv Hsolver HT. revert i st.
  induction todo as [|Pi todo IH]; intros i st Hn Hsz Hinit; simpl.
  - by eexists.
  - simpl in Hn.
    destruct (lookup_lt_is_Some_2 T i) as [Ti HTi]; [lia|].
    destruct (path_step_total n i Pi Ti st Hconv Hsolver Hsz ltac:(lia) HTi Hinit)
      as (st' & -> & Hsz' & Hinit').
    specialize (IH (S i) st' ltac:(lia) Hsz' (fun _ => Hinit')).
    destruct (loop (S i) todo st') as [tr res]. done.
Qed.

(** A run completes when the temperature array covers the path, the
    solver answers every call with a result on which the extraction and
    the bulk update are defined, and the converter returns the four
    element keys. *)
Lemma path_completes :
  converter_total calculate_molar_fractions ->
  (forall Pj Tj X1 Xox1, exists out,
     single_point_minimization Pj Tj data X1 Xox1 sys_in = Some out /\
     garnet_ready out) ->
  (length P <= length T)%nat ->
  is_Some run.
Proof.
  intros Hconv Hsolver HT. unfold garnet_over_path.
  destruct (path_loop_total P (length P) 0 (initial_state (length P) X0 Xoxides0)
              Hconv Hsolver HT) as [st' Hst']; [lia| |done|].
  - unfold arrays_sized, initial_state, np_zeros. simpl.
    rewrite !length_replicate. done.
  - rewrite Hst'. by eexists.
Qed.

(** *** More about single iterations *)

Ltac step_cases H :=
  unfold path_step in H;
  destruct (decide (_ = 0%nat)) as [?Hi|?Hi]; bind_inv H;
  destruct (eq_True fractionate) eqn:?Hf; bind_inv H;
  try match goal with p : (list Qc * list string)%type |- _ => destruct p end;
  injection H as <-; cbn [X Xoxides gt_mol_frac gt_wt_frac gt_vol_frac
    d_gt_mol_frac d_gt_wt_frac Mgi Fei Mni Cai py_arr alm_arr spss_arr gr_arr
    kho_arr gt_mol_frac_initial gt_wt_frac_initial gt_vol_frac_initial] in *;
  repeat match goal with
    | H : setitem _ _ _ = Some _ |- _ => apply setitem_Some in H as [? ->]
    | H : Some _ = Some _ |- _ => injection H as ->
    end.

(** An iteration keeps the length of every array. *)
Lemma path_step_sized (n i : nat) (Pi : Qc) (st st' : path_state) :
  step i Pi st = Some st' -> arrays_sized n st -> arrays_sized n st'.
Proof.
  intros H Hsz. unfold arrays_sized in *.
  step_cases H; rewrite ?length_insert; done.
Qed.

(** The element arrays after an iteration. *)
Lemma path_step_elements_inv (i : nat) (Pi : Qc) (st st' : path_state) :
  step i Pi st = Some st' ->
  exists Ti r mf mg mn fe ca,
    T !! i = Some Ti /\
    evaluate Pi Ti data (X st) (Xoxides st) sys_in = Some r /\
    calculate_molar_fractions (garnet_fractions_of r) = Some mf /\
    mf !! "Mg" = Some mg /\ mf !! "Mn" = Some mn /\
    mf !! "Fe" = Some fe /\ mf !! "Ca" = Some ca /\
    (i < length (Mgi st))%nat /\ Mgi st' = <[i := mg]> (Mgi st) /\
    (i < length (Mni st))%nat /\ Mni st' = <[i := mn]> (Mni st) /\
    (i < length (Fei st))%nat /\ Fei st' = <[i := fe]> (Fei st) /\
    (i < length (Cai st))%nat /\ Cai st' = <[i := ca]> (Cai st).
Proof.
  intros H. unfold garnet_fractions_of.
  step_cases H; do 7 eexists; split_and!; try reflexivity; eassumption.
Qed.

(** An iteration depends on [T] through [T[i]] and on [fractionate]
    through the test [fractionate == True] only. *)
Lemma path_step_ext (T' : list Qc) (fractionate' : Z) (i : nat) (Pi : Qc)
    (st : path_state) :
  T' !! i = T !! i -> eq_True fractionate' = eq_True fractionate ->
  path_step single_point_minimization calculate_molar_fractions
    T' data sys_in fractionate' i Pi st
  = step i Pi st.
Proof. intros HT Hf. unfold path_step. by rewrite HT, Hf. Qed.

Lemma path_loop_ext (T' : list Qc) (fractionate' : Z) (todo : list Qc)
    (i : nat) (st : path_state) :
  (forall j, (i <= j < i + length todo)%nat -> T' !! j = T !! j) ->
  eq_True fractionate' = eq_True fractionate ->
  path_loop single_point_minimization calculate_molar_fractions
    T' data sys_in fractionate' i todo st
  = loop i todo st.
Proof.
  intros HT Hf. revert i st HT.
  induction todo as [|Pi todo IH]; intros i st HT; simpl; [done|].
  rewrite path_step_ext; [|apply HT; simpl; lia|done].
  destruct (step i Pi st) as [st'|]; [|done].
  rewrite IH; [done|]. intros j Hj. apply HT. simpl. lia.
Qed.

(** *** Facts shared by the statements about whole runs *)

Lemma states_sized (k : nat) (st : path_state) :
  states !! k = Some st -> arrays_sized (length P) st.
Proof.
  revert k st. apply (states_ind (fun _ st => arrays_sized (length P) st)).
  - unfold arrays_sized, initial_state, np_zeros. simpl.
    rewrite !length_replicate. done.
  - intros k Pk a b _ _ _ IH Hstep. by eapply path_step_sized.
Qed.

Lemma states_bulk_fixed (k : nat) (st : path_state) :
  eq_True fractionate = false ->
  states !! k = Some st -> X st = X0 /\ Xoxides st = Xoxides0.
Proof.
  intros Hoff. revert k st.
  apply (states_ind (fun _ st => X st = X0 /\ Xoxides st = Xoxides0)); [done|].
  intros k Pk a b _ _ _ [HX HXo] Hstep.
  apply path_step_inv in Hstep
    as (Ti & r & m0 & w0 & v0 & _ & _ & _ & _ & _ & _ & _ & _ & _ & _ & _
        & _ & _ & Hfalse & _).
  destruct (Hfalse Hoff) as (_ & _ & -> & ->). done.
Qed.

(** When the run completes every earlier record of the locals exists. *)
Lemma states_reached (res : path_result) (k : nat) :
  run = Some res -> (k <= length P)%nat -> is_Some (states !! k).
Proof.
  intros Hrun Hk. apply states_final in Hrun as (st' & Hst' & _).
  apply lookup_lt_is_Some_2. apply lookup_lt_Some in Hst'. lia.
Qed.

(** Entry [i] of the growth arrays, in every later record of the
    locals. *)
Lemma states_growth (r0 : endmembers_result) (k : nat) (st : path_state) :
  result_at 0 = Some r0 ->
  states !! k = Some st ->
  forall i ri, result_at i = Some ri -> (i < k)%nat ->
    gt_mol_frac st !! i = Some (r_gt_frac ri - r_gt_frac r0) /\
    gt_wt_frac st !! i = Some (r_gt_wt ri - r_gt_wt r0) /\
    gt_vol_frac st !! i = Some (r_gt_vol ri - r_gt_vol r0).
Proof.
  intros Hr0 Hst.
  assert (Hgoal :
    (1 <= k ->
       gt_mol_frac_initial st = Some (r_gt_frac r0) /\
       gt_wt_frac_initial st = Some (r_gt_wt r0) /\
       gt_vol_frac_initial st = Some (r_gt_vol r0))%nat /\
    forall i ri, result_at i = Some ri -> (i < k)%nat ->
      gt_mol_frac st !! i = Some (r_gt_frac ri - r_gt_frac r0) /\
      gt_wt_frac st !! i = Some (r_gt_wt ri - r_gt_wt r0) /\
      gt_vol_frac st !! i = Some (r_gt_vol ri - r_gt_vol r0)); [|by apply Hgoal].
  revert k st Hst.
  apply (states_ind (fun k st =>
           (1 <= k ->
              gt_mol_frac_initial st = Some (r_gt_frac r0) /\
              gt_wt_frac_initial st = Some (r_gt_wt r0) /\
              gt_vol_frac_initial st = Some (r_gt_vol r0))%nat /\
           forall i ri, result_at i = Some ri -> (i < k)%nat ->
             gt_mol_frac st !! i = Some (r_gt_frac ri - r_gt_frac r0) /\
             gt_wt_frac st !! i = Some (r_gt_wt ri - r_gt_wt r0) /\
             gt_vol_frac st !! i = Some (r_gt_vol ri - r_gt_vol r0)));
    [split; [intros ?|intros ? ? ? ?]; lia|].
  intros k Pk a b HPk Ha Hb [IH0 IH] Hstep.
  apply path_step_inv in Hstep
    as (Tk & rk & m0 & w0 & v0 & HTk & Hev & Hm0 & Hw0 & Hv0 & Hfirst & Hlater
        & Hlm & Hgm & Hlw & Hgw & Hlv & Hgv & _).
  assert (Hrk : result_at k = Some rk).
  { apply result_at_Some. eauto 10. }
  assert (Hbase : m0 = r_gt_frac r0 /\ w0 = r_gt_wt r0 /\ v0 = r_gt_vol r0).
  { destruct k as [|k].
    - assert (rk = r0) as -> by congruence. by apply Hfirst.
    - destruct Hlater as (Hm & Hw & Hv); [done|].
      destruct IH0 as (Hm' & Hw' & Hv'); [lia|].
      split_and!; congruence. }
  destruct Hbase as (-> & -> & ->).
  split; [done|].
  intros i ri Hri Hi. rewrite Hgm, Hgw, Hgv.
  destruct (decide (i = k)) as [->|Hne].
  - assert (ri = rk) as -> by congruence.
    rewrite !list_lookup_insert_eq by done. done.
  - rewrite !list_lookup_insert_ne by done. apply IH; [done|lia].
Qed.

(** Entry [i] of the delta arrays, in every later record of the locals
    of a fractionating run. *)
Lemma states_delta (k : nat) (st : path_state) :
  eq_True fractionate = true ->
  states !! k = Some st ->
  forall i, (i < k)%nat ->
    exists dm dw,
      d_gt_mol_frac st !! i = Some dm /\
      delta_at i (gt_mol_frac st) = Some dm /\
      d_gt_wt_frac st !! i = Some dw /\
      delta_at i (gt_wt_frac st) = Some dw.
Proof.
  intros Hon. revert k st.
  apply (states_ind (fun k st => forall i, (i < k)%nat ->
           exists dm dw,
             d_gt_mol_frac st !! i = Some dm /\
             delta_at i (gt_mol_frac st) = Some dm /\
             d_gt_wt_frac st !! i = Some dw /\
             delta_at i (gt_wt_frac st) = Some dw)
           ltac:(intros ? ?; lia)).
  intros k Pk a b _ _ _ IH Hstep i Hi.
  apply path_step_inv in Hstep
    as (Ti & r & m0 & w0 & v0 & _ & _ & _ & _ & _ & _ & _ & _ & Hgm & _ & Hgw
        & _ & _ & _ & Htrue).
  destruct (Htrue Hon) as (dm & dw & Hdm & Hlm & Hm & Hdw & Hlw & Hw & _).
  destruct (decide (i = k)) as [->|Hne].
  - exists dm, dw. rewrite Hm, Hw, !list_lookup_insert_eq by done. done.
  - destruct (IH i) as (dm' & dw' & ? & ? & ? & ?); [lia|].
    exists dm', dw'.
    rewrite Hm, Hw, Hgm, Hgw, !list_lookup_insert_ne,
      !delta_at_insert_lt by lia.
    done.
Qed.

(** Entry [i] of the element arrays, in every later record of the
    locals. *)
Lemma states_elements (k : nat) (st : path_state) :
  states !! k = Some st ->
  forall i ri, result_at i = Some ri -> (i < k)%nat ->
    exists mf,
      calculate_molar_fractions (garnet_fractions_of ri) = Some mf /\
      is_Some (mf !! "Mg") /\ Mgi st !! i = mf !! "Mg" /\
      is_Some (mf !! "Mn") /\ Mni st !! i = mf !! "Mn" /\
      is_Some (mf !! "Fe") /\ Fei st !! i = mf !! "Fe" /\
      is_Some (mf !! "Ca") /\ Cai st !! i = mf !! "Ca".
Proof.
  revert k st.
  apply (states_ind (fun k st =>
           forall i ri, result_at i = Some ri -> (i < k)%nat ->
             exists mf,
               calculate_molar_fractions (garnet_fractions_of ri) = Some mf /\
               is_Some (mf !! "Mg") /\ Mgi st !! i = mf !! "Mg" /\
               is_Some (mf !! "Mn") /\ Mni st !! i = mf !! "Mn" /\
               is_Some (mf !! "Fe") /\ Fei st !! i = mf !! "Fe" /\
               is_Some (mf !! "Ca") /\ Cai st !! i = mf !! "Ca")
           ltac:(intros ? ? ? ?; lia)).
  intros k Pk a b HPk Ha Hb IH Hstep i ri Hri Hi.
  apply path_step_elements_inv in Hstep
    as (Tk & rk & mf & mg & mn & fe & ca & HTk & Hev & Hmf & Hmg & Hmn & Hfe & Hca
        & L1 & -> & L2 & -> & L3 & -> & L4 & ->).
  assert (Hrk : result_at k = Some rk).
  { apply result_at_Some. eauto 10. }
  destruct (decide (i = k)) as [->|Hne].
  - assert (ri = rk) as -> by congruence.
    exists mf. rewrite !list_lookup_insert_eq by done.
    rewrite Hmg, Hmn, Hfe, Hca. split_and!; by eauto.
  - destruct (IH i ri Hri) as (mf' & ? & ? & ? & ? & ? & ? & ? & ? & ?); [lia|].
    exists mf'. rewrite !list_lookup_insert_ne by done. split_and!; done.
Qed.

(** The bulk update of an iteration with a positive raw garnet fraction
    under a recognised basis. *)
Lemma states_bulk_update (i : nat) (r : endmembers_result) (st' : path_state) :
  eq_True fractionate = true ->
  result_at i = Some r ->
  0 < r_gt_frac r ->
  sys_in = "wt" \/ sys_in = "mol" ->
  states !! S i = Some st' ->
  exists garnet_ind ss bulkv comp d,
    index "g" (ph (r_out r)) = Some garnet_ind /\
    SS_vec (r_out r) !! garnet_ind = Some ss /\
    basis_vectors sys_in (r_out r) ss st' i bulkv comp d /\
    deplete bulkv comp d = Some (X st').
Proof.
  intros Hon Hr Hpos Hsys Hst'.
  destruct (lookup_lt_is_Some_2 states i) as [st Hst].
  { apply lookup_lt_Some in Hst'. lia. }
  destruct (states_step i st st' r Hst Hst' Hr) as (Pi & Ti & _ & HTi & Hev & Hstep).
  apply path_step_inv in Hstep
    as (Ti' & r' & m0 & w0 & v0 & HTi' & Hev' & _ & _ & _ & _ & _ & _ & _ & _
        & _ & _ & _ & _ & Htrue).
  assert (Ti' = Ti) as -> by congruence.
  assert (r' = r) as -> by congruence.
  destruct (Htrue Hon) as (dm & dw & _ & _ & _ & _ & _ & _ & Hfb).
  destruct Hsys as [Hsys|Hsys].
  - destruct (fractionate_bulk_wt _ _ _ _ _ _ _ _ _ Hpos Hsys Hfb)
      as (gi & ss & d & Hgi & Hss & Hd & Hdep & Hox).
    exists gi, ss, (bulk_wt (r_out r)), (Comp_wt ss), d.
    split_and!; [done..| |done]. left. done.
  - destruct (fractionate_bulk_mol _ _ _ _ _ _ _ _ _ Hpos Hsys Hfb)
      as (gi & ss & d & Hgi & Hss & Hd & Hdep & Hox).
    exists gi, ss, (bulk (r_out r)), (Comp ss), d.
    split_and!; [done..| |done]. right. done.
Qed.

(** *** Further statements about whole runs *)

(** X6. When the run completes, each of the nine returned arrays has
    one entry per point of the path. *)
Theorem returned_arrays_sized (res : path_result) :
  run = Some res ->
  Forall (fun a => length a = length P) (returned_arrays res).
Proof.
  intros Hrun. apply states_final in Hrun as (st' & Hst' & ->).
  apply states_sized in Hst'.
  destruct Hst' as (L1 & L2 & L3 & L4 & L5 & L6 & L7 & L8 & L9 & _).
  unfold returned_arrays, returned. simpl. repeat constructor; done.
Qed.

(** X7. On an empty path nothing is evaluated: the run returns nine
    empty arrays, whatever the solver, the converter and the other
    arguments are. *)
Theorem empty_path_returns_empty (X1 : list Qc) (Xox1 : list string) :
  garnet_over_path single_point_minimization calculate_molar_fractions
    T data sys_in fractionate [] X1 Xox1
  = Some {| out_gt_mol_frac := []; out_gt_wt_frac := []; out_gt_vol_frac := [];
            out_d_gt_mol_frac := []; out_d_gt_wt_frac := [];
            out_Mgi := []; out_Mni := []; out_Fei := []; out_Cai := [] |}.
Proof. reflexivity. Qed.

(** X8. A temperature array shorter than the pressure array makes the
    run raise: no result is returned. *)
Theorem short_temperature_raises :
  (length T < length P)%nat ->
  garnet_over_path single_point_minimization calculate_molar_fractions
    T data sys_in fractionate P X0 Xoxides0 = None.
Proof.
  intros Hshort. destruct run as [res|] eqn:Hrun; [|done]. exfalso.
  destruct (states_reached res (length T) Hrun) as [a Ha]; [lia|].
  destruct (states_reached res (S (length T)) Hrun) as [b Hb]; [lia|].
  destruct (states_next _ a b Ha Hb) as (Pk & _ & Hstep).
  apply path_step_inv in Hstep as (Ti & _ & _ & _ & _ & HTi & _).
  apply lookup_lt_Some in HTi. lia.
Qed.

(** X9. Temperatures beyond the length of the pressure array are never
    read: cutting [T] to the length of [P] gives the same run. *)
Theorem temperature_tail_ignored :
  garnet_over_path single_point_minimization calculate_molar_fractions
    (take (length P) T) data sys_in fractionate P X0 Xoxides0
  = run.
Proof.
  unfold garnet_over_path. rewrite path_loop_ext; [done| |done].
  intros j Hj. apply lookup_take_lt. lia.
Qed.

(** X10. Only a [fractionate] equal to [True] (or 1) switches
    fractionation on: with any other integer the run is the run with
    [fractionate = 0]. *)
Theorem only_True_fractionates :
  fractionate <> 1%Z ->
  run = garnet_over_path single_point_minimization calculate_molar_fractions
          T data sys_in 0 P X0 Xoxides0.
Proof.
  intros Hne. unfold garnet_over_path. symmetry.
  rewrite path_loop_ext; [done|done|].
  unfold eq_True. symmetry. by apply Z.eqb_neq.
Qed.

(** X11. A solver call that raises in any iteration the run reaches
    makes the whole run raise; no partial arrays are returned. *)
Theorem solver_failure_is_fatal (i : nat) (st : path_state) (Pi Ti : Qc) :
  states !! i = Some st -> P !! i = Some Pi -> T !! i = Some Ti ->
  single_point_minimization Pi Ti data (X st) (Xoxides st) sys_in = None ->
  run = None.
Proof.
  intros Hst HPi HTi Hfail. destruct run as [res|] eqn:Hrun; [|done]. exfalso.
  destruct (states_reached res (S i) Hrun) as [b Hb].
  { apply lookup_lt_Some in HPi. lia. }
  destruct (states_next _ st b Hst Hb) as (Pk & HPk & Hstep).
  apply path_step_inv in Hstep as (Tk & r & _ & _ & _ & HTk & Hev & _).
  assert (Pk = Pi) as -> by congruence.
  assert (Tk = Ti) as -> by congruence.
  apply evaluate_inv in Hev as (Hsolve & _). congruence.
Qed.

(** X12. Without fractionation the points of a path do not interact
    through the bulk composition: when the run completes, the returned
    mole, weight and volume fraction at index [i] are the single-point
    evaluation of point [i] on the initial bulk composition minus the
    single-point evaluation of point 0 on the initial bulk
    composition. *)
Theorem unfractionated_path_is_pointwise (res : path_result) (i : nat)
    (P0 T0 Pi Ti : Qc) :
  eq_True fractionate = false ->
  run = Some res ->
  P !! 0%nat = Some P0 -> T !! 0%nat = Some T0 ->
  P !! i = Some Pi -> T !! i = Some Ti ->
  exists r0 ri,
    evaluate P0 T0 data X0 Xoxides0 sys_in = Some r0 /\
    evaluate Pi Ti data X0 Xoxides0 sys_in = Some ri /\
    out_gt_mol_frac res !! i = Some (r_gt_frac ri - r_gt_frac r0) /\
    out_gt_wt_frac res !! i = Some (r_gt_wt ri - r_gt_wt r0) /\
    out_gt_vol_frac res !! i = Some (r_gt_vol ri - r_gt_vol r0).
Proof.
  intros Hoff Hrun HP0 HT0 HPi HTi.
  assert (Hres : forall j Pj Tj, P !! j = Some Pj -> T !! j = Some Tj ->
            exists rj, result_at j = Some rj /\
              evaluate Pj Tj data X0 Xoxides0 sys_in = Some rj).
  { intros j Pj Tj HPj HTj.
    destruct (states_reached res j Hrun) as [a Ha].
    { apply lookup_lt_Some in HPj. lia. }
    destruct (states_reached res (S j) Hrun) as [b Hb].
    { apply lookup_lt_Some in HPj. lia. }
    destruct (states_next _ a b Ha Hb) as (Pk & HPk & Hstep).
    apply path_step_inv in Hstep as (Tk & rj & _ & _ & _ & HTk & Hev & _).
    assert (Pk = Pj) as -> by congruence.
    assert (Tk = Tj) as -> by congruence.
    exists rj. split; [apply result_at_Some; eauto 10|].
    destruct (states_bulk_fixed j a Hoff Ha) as [<- <-]. done. }
  destruct (Hres 0%nat P0 T0 HP0 HT0) as (r0 & Hr0 & Hev0).
  destruct (Hres i Pi Ti HPi HTi) as (ri & Hri & Hevi).
  exists r0, ri. split; [done|]. split; [done|].
  apply states_final in Hrun as (st' & Hst' & ->). simpl.
  apply (states_growth r0 (length P) st' Hr0 Hst' i ri Hri).
  by apply lookup_lt_Some in HPi.
Qed.

(** X13. When the run completes, the element arrays hold at index [i]
    what [gt_single_point_calc_elements] returns for point [i] on the
    bulk composition and oxide list that iteration [i] started with: the
    raw converter output, not zeroed against the first point. *)
Theorem path_elements_match_single_point (res : path_result) (i : nat)
    (st : path_state) (Pi Ti : Qc) :
  run = Some res ->
  states !! i = Some st -> P !! i = Some Pi -> T !! i = Some Ti ->
  exists e,
    gt_single_point_calc_elements single_point_minimization
      calculate_molar_fractions Pi Ti data (X st) (Xoxides st) sys_in = Some e /\
    out_Mgi res !! i = Some (e_Mg e) /\ out_Mni res !! i = Some (e_Mn e) /\
    out_Fei res !! i = Some (e_Fe e) /\ out_Cai res !! i = Some (e_Ca e).
Proof.
  intros Hrun Hst HPi HTi.
  assert (Hi : (i < length P)%nat) by by apply lookup_lt_Some in HPi.
  destruct (states_reached res (S i) Hrun) as [b Hb]; [lia|].
  destruct (states_next _ st b Hst Hb) as (Pk & HPk & Hstep).
  apply path_step_inv in Hstep as (Tk & ri & _ & _ & _ & HTk & Hev & _).
  assert (Pk = Pi) as -> by congruence.
  assert (Tk = Ti) as -> by congruence.
  assert (Hri : result_at i = Some ri) by (apply result_at_Some; eauto 10).
  apply states_final in Hrun as (st' & Hst' & ->). simpl.
  destruct (states_elements (length P) st' Hst' i ri Hri Hi)
    as (mf & Hmf & [mg Hmg] & HMg & [mn Hmn] & HMn & [fe Hfe] & HFe
        & [ca Hca] & HCa).
  unfold gt_single_point_calc_elements. rewrite Hev. cbn [mbind option_bind].
  unfold garnet_fractions_of in Hmf. rewrite Hmf. cbn [mbind option_bind].
  rewrite Hmg, Hmn, Hfe, Hca. cbn [mbind option_bind].
  eexists. split; [reflexivity|]. simpl.
  rewrite HMg, HMn, HFe, HCa. done.
Qed.

Lemma basis_vectors_fun (out : MAGEMinOutput) (ss : SS_data) (st' : path_state)
    (i : nat) (b1 c1 b2 c2 : list Qc) (d1 d2 : Qc) :
  basis_vectors sys_in out ss st' i b1 c1 d1 ->
  basis_vectors sys_in out ss st' i b2 c2 d2 ->
  b1 = b2 /\ c1 = c2 /\ d1 = d2.
Proof.
  intros [(Hs1 & -> & -> & Hd1)|(Hs1 & -> & -> & Hd1)]
         [(Hs2 & -> & -> & Hd2)|(Hs2 & -> & -> & Hd2)].
  - split_and!; congruence.
  - rewrite Hs1 in Hs2. discriminate.
  - rewrite Hs1 in Hs2. discriminate.
  - split_and!; congruence.
Qed.

Lemma deplete_entry (b c X' : list Qc) (d : Qc) (k : nat) (x y : Qc) :
  deplete b c d = Some X' -> length b = length c ->
  b !! k = Some x -> c !! k = Some y ->
  X' !! k = Some (x - x * y * d).
Proof.
  intros Hdep Hlen Hb Hc. rewrite deplete_elementwise in Hdep by done.
  injection Hdep as <-. rewrite lookup_zip_with, Hb. simpl. by rewrite Hc.
Qed.

(** The entry [k] of the bulk composition that a fractionating iteration
    with a positive raw garnet fraction leaves behind. *)
Lemma states_bulk_entry (i : nat) (r : endmembers_result) (st' : path_state)
    (garnet_ind : nat) (ss : SS_data) (bulkv comp : list Qc) (d : Qc)
    (k : nat) (b c : Qc) :
  eq_True fractionate = true ->
  result_at i = Some r ->
  0 < r_gt_frac r ->
  states !! S i = Some st' ->
  index "g" (ph (r_out r)) = Some garnet_ind ->
  SS_vec (r_out r) !! garnet_ind = Some ss ->
  basis_vectors sys_in (r_out r) ss st' i bulkv comp d ->
  length bulkv = length comp ->
  bulkv !! k = Some b -> comp !! k = Some c ->
  X st' !! k = Some (b - b * c * d).
Proof.
  intros Hon Hr Hpos Hst' Hgi Hss Hbasis Hlen Hb Hc.
  assert (Hsys : sys_in = "wt" \/ sys_in = "mol").
  { destruct Hbasis as [(? & _)|(? & _)]; auto. }
  destruct (states_bulk_update i r st' Hon Hr Hpos Hsys Hst')
    as (gi' & ss' & bulkv' & comp' & d' & Hgi' & Hss' & Hbasis' & Hdep).
  assert (gi' = garnet_ind) as -> by congruence.
  assert (ss' = ss) as -> by congruence.
  destruct (basis_vectors_fun _ _ _ _ _ _ _ _ _ _ Hbasis' Hbasis) as (-> & -> & ->).
  by eapply deplete_entry.
Qed.

(** X14. In a fractionating run whose first point already has garnet,
    the first iteration hands on the solver's own bulk vector (its
    [bulk_wt] for ["wt"], its [bulk] for ["mol"]): the delta of the first
    point is 0, so nothing is subtracted, and the caller's [X] is
    dropped. *)
Theorem first_point_adopts_solver_bulk (r : endmembers_result) (st' : path_state)
    (garnet_ind : nat) (ss : SS_data) (bulkv comp : list Qc) (d : Qc) :
  eq_True fractionate = true ->
  result_at 0 = Some r ->
  0 < r_gt_frac r ->
  states !! 1%nat = Some st' ->
  index "g" (ph (r_out r)) = Some garnet_ind ->
  SS_vec (r_out r) !! garnet_ind = Some ss ->
  basis_vectors sys_in (r_out r) ss st' 0 bulkv comp d ->
  length bulkv = length comp ->
  d = 0 /\ X st' = bulkv.
Proof.
  intros Hon Hr Hpos Hst' Hgi Hss Hbasis Hlen.
  assert (Hd : d = 0).
  { destruct (states_delta 1 st' Hon Hst' 0%nat) as (dm & dw & Hdm & Hm & Hdw & Hw);
      [lia|].
    destruct (states_growth r 1 st' Hr Hst' 0%nat r Hr) as (Hgm & Hgw & _); [lia|].
    unfold delta_at in Hm, Hw. rewrite decide_True in Hm, Hw by done.
    rewrite Hgm in Hm. rewrite Hgw in Hw. rewrite Qcminus_diag in Hm, Hw.
    destruct Hbasis as [(_ & _ & _ & Hd)|(_ & _ & _ & Hd)]; congruence. }
  split; [done|]. subst d.
  apply list_eq. intros k.
  destruct (bulkv !! k) as [b|] eqn:Hb.
  - destruct (lookup_lt_is_Some_2 comp k) as [c Hc].
    { rewrite <- Hlen. by apply lookup_lt_Some in Hb. }
    rewrite (states_bulk_entry 0 r st' garnet_ind ss bulkv comp 0 k b c);
      try done.
    f_equal. ring.
  - assert (Hsys : sys_in = "wt" \/ sys_in = "mol").
    { destruct Hbasis as [(? & _)|(? & _)]; auto. }
    destruct (states_bulk_update 0 r st' Hon Hr Hpos Hsys Hst')
      as (gi' & ss' & bulkv' & comp' & d' & Hgi' & Hss' & Hbasis' & Hdep).
    assert (gi' = garnet_ind) as -> by congruence.
    assert (ss' = ss) as -> by congruence.
    destruct (basis_vectors_fun _ _ _ _ _ _ _ _ _ _ Hbasis' Hbasis) as (-> & -> & ->).
    rewrite deplete_elementwise in Hdep by done. injection Hdep as <-.
    rewrite lookup_zip_with, Hb. done.
Qed.

(** X15. The bulk update is guarded by the raw garnet fraction, not by
    the growth: in an iteration where garnet is present but has shrunk
    (negative delta) the update is not skipped.  The entry handed on is
    the solver's bulk entry minus bulk times garnet composition times
    delta, and for non-negative bulk and composition values it is not
    below the solver's bulk entry. *)
Theorem shrinking_garnet_updates_bulk (i : nat) (r : endmembers_result)
    (st' : path_state) (garnet_ind : nat) (ss : SS_data) (bulkv comp : list Qc)
    (d : Qc) (k : nat) (b c : Qc) :
  eq_True fractionate = true ->
  result_at i = Some r ->
  0 < r_gt_frac r ->
  states !! S i = Some st' ->
  index "g" (ph (r_out r)) = Some garnet_ind ->
  SS_vec (r_out r) !! garnet_ind = Some ss ->
  basis_vectors sys_in (r_out r) ss st' i bulkv comp d ->
  length bulkv = length comp ->
  bulkv !! k = Some b -> comp !! k = Some c ->
  d < 0 -> 0 <= b -> 0 <= c ->
  exists x, X st' !! k = Some x /\ x = b - b * c * d /\ b <= x.
Proof.
  intros Hon Hr Hpos Hst' Hgi Hss Hbasis Hlen Hb Hc Hd Hbpos Hcpos.
  exists (b - b * c * d). split; [by eapply states_bulk_entry|].
  split; [done|].
  apply Qcle_minus_iff.
  replace (b - b * c * d + - b) with (b * c * (- d)) by ring.
  apply Qcmult_nonneg_nonneg; [by apply Qcmult_nonneg_nonneg|].
  apply Qclt_le_weak. apply Qclt_minus_iff in Hd. by rewrite Qcplus_0_l in Hd.
Qed.

(** X16. In a fractionating iteration with garnet present and a
    non-negative delta, a bulk entry with non-negative bulk and
    garnet-composition values is not raised, and it stays non-negative
    as long as composition times delta does not exceed 1. *)
Theorem growing_garnet_depletes_bulk (i : nat) (r : endmembers_result)
    (st' : path_state) (garnet_ind : nat) (ss : SS_data) (bulkv comp : list Qc)
    (d : Qc) (k : nat) (b c : Qc) :
  eq_True fractionate = true ->
  result_at i = Some r ->
  0 < r_gt_frac r ->
  states !! S i = Some st' ->
  index "g" (ph (r_out r)) = Some garnet_ind ->
  SS_vec (r_out r) !! garnet_ind = Some ss ->
  basis_vectors sys_in (r_out r) ss st' i bulkv comp d ->
  length bulkv = length comp ->
  bulkv !! k = Some b -> comp !! k = Some c ->
  0 <= d -> 0 <= b -> 0 <= c ->
  exists x, X st' !! k = Some x /\ x <= b /\ (c * d <= 1 -> 0 <= x).
Proof.
  intros Hon Hr Hpos Hst' Hgi Hss Hbasis Hlen Hb Hc Hd Hbpos Hcpos.
  exists (b - b * c * d). split; [by eapply states_bulk_entry|]. split.
  - apply Qcle_minus_iff.
    replace (b + - (b - b * c * d)) with (b * c * d) by ring.
    apply Qcmult_nonneg_nonneg; [by apply Qcmult_nonneg_nonneg|done].
  - intros Hcd. replace (b - b * c * d) with (b * (1 + - (c * d))) by ring.
    apply Qcmult_nonneg_nonneg; [done|]. by apply (proj1 (Qcle_minus_iff _ _)).
Qed.

(** *** Extending a path *)

Lemma delta_at_insert_take (i n : nat) (v : Qc) (g : list Qc) :
  (i < n)%nat -> delta_at i (<[i:=v]> (take n g)) = delta_at i (<[i:=v]> g).
Proof.
  intros Hi. rewrite <- take_insert_lt by done. unfold delta_at.
  case_decide; rewrite ?lookup_take_lt by lia; done.
Qed.

Lemma fractionate_bulk_take (i n : nat) (gt_frac : Qc) (out : MAGEMinOutput)
    (dm dw : list Qc) (a b : Qc) (X1 : list Qc) (Xox1 : list string) :
  (i < n)%nat -> (i < length dm)%nat -> (i < length dw)%nat ->
  fractionate_bulk sys_in i gt_frac out
    (<[i:=a]> (take n dm)) (<[i:=b]> (take n dw)) X1 Xox1
  = fractionate_bulk sys_in i gt_frac out (<[i:=a]> dm) (<[i:=b]> dw) X1 Xox1.
Proof.
  intros Hi Hm Hw. unfold fractionate_bulk.
  rewrite !list_lookup_insert_eq; [done|try done..].
  all: rewrite length_take; lia.
Qed.

(** An iteration of the longer run is matched by the shorter run. *)
Lemma path_step_prefix (n i : nat) (Pi : Qc) (st1 st2 st2' : path_state) :
  locals_prefix n st1 st2 -> (i < n)%nat ->
  step i Pi st2 = Some st2' ->
  exists st1', step i Pi st1 = Some st1' /\ locals_prefix n st1' st2'.
Proof.
  intros (HX & HXo & Hm & Hw & Hv & A1 & A2 & A3 & A4 & A5 & A6 & A7 & A8 & A9
          & A10 & A11 & A12 & A13 & A14) Hi H2.
  unfold path_step at 1.
  rewrite HX, HXo, Hm, Hw, Hv, A1, A2, A3, A4, A5, A6, A7, A8, A9, A10, A11,
    A12, A13, A14.
  clear HX HXo Hm Hw Hv A1 A2 A3 A4 A5 A6 A7 A8 A9 A10 A11 A12 A13 A14.
  step_cases H2.
  all: repeat first
    [ rewrite setitem_lt by (rewrite ?length_insert, length_take; lia)
    | rewrite delta_at_insert_take by lia
    | rewrite fractionate_bulk_take by lia
    | match goal with
      | H : ?e = Some _ |- context [mbind _ ?e] => rewrite H
      end
    | progress cbn [mbind option_bind] ].
  all: eexists; split; [reflexivity|].
  all: unfold locals_prefix; simpl; rewrite ?take_insert_lt by lia.
  all: split_and!; done.
Qed.

(** An iteration at index [k] leaves the first [n <= k] entries of the
    returned arrays alone. *)
Lemma path_step_keeps_prefix (n k : nat) (Pk : Qc) (st st' : path_state) :
  step k Pk st = Some st' -> (n <= k)%nat ->
  truncated n (returned st') = truncated n (returned st).
Proof.
  intros H Hk. unfold truncated, returned.
  step_cases H; simpl; rewrite ?take_insert_ge by lia; done.
Qed.

Lemma path_loop_snd_cons (i : nat) (Pi : Qc) (todo : list Qc) (st : path_state) :
  (loop i (Pi :: todo) st).2
  = (st' ← step i Pi st; (loop (S i) todo st').2).
Proof.
  simpl. destruct (step i Pi st) as [st'|]; [|done].
  cbn [mbind option_bind]. by destruct (loop (S i) todo st').
Qed.

Lemma path_loop_keeps_prefix (n : nat) (todo : list Qc) :
  forall (i : nat) (st stf : path_state),
  (loop i todo st).2 = Some stf -> (n <= i)%nat ->
  truncated n (returned stf) = truncated n (returned st).
Proof.
  induction todo as [|Pi todo IH]; intros i st stf Hloop Hi.
  - simpl in Hloop. by injection Hloop as <-.
  - rewrite path_loop_snd_cons in Hloop.
    destruct (step i Pi st) as [st'|] eqn:Hstep; [|done].
    cbn [mbind option_bind] in Hloop.
    rewrite (IH (S i) st' stf Hloop) by lia.
    by eapply path_step_keeps_prefix.
Qed.

(** The longer run, while it is on the points of the shorter path, is
    matched by the shorter run. *)
Lemma path_loop_prefix (n : nat) (Q todo : list Qc) :
  forall (i : nat) (st1 st2 st2f : path_state),
  locals_prefix n st1 st2 -> (i + length todo = n)%nat ->
  (loop i (todo ++ Q) st2).2 = Some st2f ->
  exists st1f st2m,
    (loop i todo st1).2 = Some st1f /\
    locals_prefix n st1f st2m /\
    (loop n Q st2m).2 = Some st2f.
Proof.
  induction todo as [|Pi todo IH]; intros i st1 st2 st2f Hpre Hn Hloop.
  - simpl in Hn. rewrite Nat.add_0_r in Hn. subst i.
    exists st1, st2. done.
  - simpl in Hn. change ((Pi :: todo) ++ Q) with (Pi :: (todo ++ Q)) in Hloop.
    rewrite path_loop_snd_cons in Hloop.
    destruct (step i Pi st2) as [st2'|] eqn:Hstep; [|done].
    cbn [mbind option_bind] in Hloop.
    destruct (path_step_prefix n i Pi st1 st2 st2' Hpre ltac:(lia) Hstep)
      as (st1' & Hstep1 & Hpre').
    destruct (IH (S i) st1' st2' st2f Hpre' ltac:(lia) Hloop)
      as (st1f & st2m & Hloop1 & Hpref & Hrest).
    exists st1f, st2m. split_and!; [|done..].
    rewrite path_loop_snd_cons, Hstep1. done.
Qed.

Lemma locals_prefix_returned (n : nat) (st1 st2 : path_state) :
  locals_prefix n st1 st2 -> returned st1 = truncated n (returned st2).
Proof.
  intros (_ & _ & _ & _ & _ & A1 & A2 & A3 & A4 & A5 & A6 & A7 & A8 & A9 & _).
  unfold returned, truncated. simpl.
  by rewrite A1, A2, A3, A4, A5, A6, A7, A8, A9.
Qed.

(** X24. Later points do not reach back: if the run over [P] followed
    by further points [Q] completes, then the run over [P] alone
    completes too, and each of its nine arrays is the first [len(P)]
    entries of the corresponding array of the longer run. *)
Theorem path_extension_keeps_prefix (Q : list Qc) (res2 : path_result) :
  garnet_over_path single_point_minimization calculate_molar_fractions
    T data sys_in fractionate (P ++ Q) X0 Xoxides0 = Some res2 ->
  garnet_over_path single_point_minimization calculate_molar_fractions
    T data sys_in fractionate P X0 Xoxides0
  = Some (truncated (length P) res2).
Proof.
  unfold garnet_over_path. intros Hlong.
  apply fmap_Some in Hlong as (st2f & Hloop & ->).
  assert (Hinit : locals_prefix (length P)
            (initial_state (length P) X0 Xoxides0)
            (initial_state (length (P ++ Q)) X0 Xoxides0)).
  { unfold locals_prefix, initial_state, np_zeros. simpl.
    rewrite length_app, !take_replicate_add. split_and!; done. }
  destruct (path_loop_prefix (length P) Q P 0 _ _ st2f Hinit ltac:(lia) Hloop)
    as (st1f & st2m & Hloop1 & Hpre & Hrest).
  rewrite Hloop1. simpl. f_equal.
  rewrite (locals_prefix_returned _ _ _ Hpre).
  symmetry. by eapply path_loop_keeps_prefix.
Qed.

End EngineFacts.

(** ** The embedding on concrete paths *)

(** Closed goals over [Qc] are settled by evaluating their decision
    procedure. *)
Ltac by_decide := apply (bool_decide_eq_true_1 _); vm_compute; reflexivity.
Ltac computes := vm_compute; reflexivity.

(** C1 does not hold as written: on the three-point path with raw
    garnet mole fractions 0, 1/20, 3/25 and fractionation disabled the
    run returns growth [0, 1/20, 3/25] and delta [0, 0, 0], not
    [0, 1/20, 7/100]; already [d[1] = 0] differs from [g[1] - g[0]]. *)
Lemma delta_stays_zero_without_fractionation :
  r_gt_frac <$> Demo.evaluated Demo.T3 "wt" 0 Demo.P3 1 = Some (Demo.frac 1 20) /\
  out_gt_mol_frac <$> Demo.path Demo.T3 "wt" 0 Demo.P3
    = Some [0; Demo.frac 1 20; Demo.frac 3 25] /\
  out_d_gt_mol_frac <$> Demo.path Demo.T3 "wt" 0 Demo.P3 = Some [0; 0; 0] /\
  out_d_gt_mol_frac <$> Demo.path Demo.T3 "wt" 0 Demo.P3
    <> Some [0; Demo.frac 1 20; Demo.frac 7 100].
Proof. split_and!; by_decide. Qed.

Lemma delta_only_when_fractionating_witness :
  exists res, Demo.path Demo.T3 "wt" 1 Demo.P3 = Some res /\
    out_d_gt_mol_frac res !! 0%nat = out_gt_mol_frac res !! 0%nat /\
    exists gm gm' gw gw',
      out_gt_mol_frac res !! 2%nat = Some gm /\
      out_gt_mol_frac res !! (2 - 1)%nat = Some gm' /\
      out_d_gt_mol_frac res !! 2%nat = Some (gm - gm') /\
      out_gt_wt_frac res !! 2%nat = Some gw /\
      out_gt_wt_frac res !! (2 - 1)%nat = Some gw' /\
      out_d_gt_wt_frac res !! 2%nat = Some (gw - gw').
Proof.
  eexists. split; [computes|].
  edestruct (delta_only_when_fractionating Demo.solver Demo.molar_fractions
               Demo.T3 tt "wt" 1 Demo.P3 Demo.X0 Demo.Xoxides0) as [Hon _];
    [computes|].
  split.
  - destruct (Hon eq_refl 0%nat ltac:(simpl; lia)) as [H0 _].
    apply (H0 eq_refl).
  - destruct (Hon eq_refl 2%nat ltac:(simpl; lia)) as [_ H2].
    apply H2. lia.
Defined.


Lemma bulk_kept_without_garnet_witness :
  exists r st st',
    Demo.evaluated Demo.Tcold "wt" 1 Demo.Pcold 0 = Some r /\
    ("g" ∉ ph (r_out r)) /\
    Demo.locals Demo.Tcold "wt" 1 Demo.Pcold !! 0%nat = Some st /\
    Demo.locals Demo.Tcold "wt" 1 Demo.Pcold !! 1%nat = Some st' /\
    X st' = X st /\ Xoxides st' = Xoxides st.
Proof.
  eexists _, _, _. split; [computes|].
  assert (Habs : "g" ∉ ph (Demo.quartz_only Demo.X0)) by by_decide.
  split; [exact Habs|]. split; [computes|]. split; [computes|].
  eapply (bulk_kept_without_garnet Demo.solver Demo.molar_fractions
            Demo.Tcold tt "wt" 1 Demo.Pcold Demo.X0 Demo.Xoxides0 0).
  - reflexivity.
  - computes.
  - right. exact Habs.
  - computes.
  - computes.
Defined.




Lemma first_growth_is_zero_witness :
  exists res r,
    Demo.path Demo.T2 "wt" 0 Demo.P2 = Some res /\
    Demo.evaluated Demo.T2 "wt" 0 Demo.P2 0 = Some r /\
    r_gt_frac r = Demo.frac 1 8 /\
    out_gt_mol_frac res !! 0%nat = Some 0 /\
    out_gt_wt_frac res !! 0%nat = Some 0.
Proof.
  eexists _, _. split; [computes|]. split; [computes|]. split; [by_decide|].
  apply (first_growth_is_zero Demo.solver Demo.molar_fractions
           Demo.T2 tt "wt" 0 Demo.P2 Demo.X0 Demo.Xoxides0).
  - computes.
  - simpl. lia.
Defined.

(** C7 does not hold as written: on a two-point path whose raw garnet
    mole fractions are 1/8 and 3/8 the returned mole-fraction array is
    [0, 1/4], and the raw value 1/8 of the first point occurs in none of
    the nine returned arrays. *)
Lemma raw_fractions_not_returned :
  r_gt_frac <$> Demo.evaluated Demo.T2 "wt" 0 Demo.P2 0 = Some (Demo.frac 1 8) /\
  out_gt_mol_frac <$> Demo.path Demo.T2 "wt" 0 Demo.P2 = Some [0; Demo.frac 1 4] /\
  (forall res, Demo.path Demo.T2 "wt" 0 Demo.P2 = Some res ->
     Forall (fun a => Demo.frac 1 8 ∉ a) (returned_arrays res)).
Proof.
  split_and!; [by_decide..|].
  intros res Hres.
  assert (Hall : from_option
            (fun res => Forall (fun a => Demo.frac 1 8 ∉ a) (returned_arrays res))
            False (Demo.path Demo.T2 "wt" 0 Demo.P2)) by by_decide.
  by rewrite Hres in Hall.
Qed.

Lemma returned_fractions_are_zeroed_witness :
  exists res r0 r1,
    Demo.path Demo.T2 "wt" 0 Demo.P2 = Some res /\
    Demo.evaluated Demo.T2 "wt" 0 Demo.P2 0 = Some r0 /\
    Demo.evaluated Demo.T2 "wt" 0 Demo.P2 1 = Some r1 /\
    out_gt_mol_frac res !! 1%nat = Some (r_gt_frac r1 - r_gt_frac r0) /\
    out_gt_wt_frac res !! 1%nat = Some (r_gt_wt r1 - r_gt_wt r0) /\
    out_gt_vol_frac res !! 1%nat = Some (r_gt_vol r1 - r_gt_vol r0).
Proof.
  eexists _, _, _. split; [computes|]. split; [computes|]. split; [computes|].
  apply (returned_fractions_are_zeroed Demo.solver Demo.molar_fractions
           Demo.T2 tt "wt" 0 Demo.P2 Demo.X0 Demo.Xoxides0).
  - computes.
  - computes.
  - computes.
Defined.

Lemma extractors_absent_zero_witness :
  (extract_phase_mol_frac "g" (Demo.quartz_only Demo.X0) = 0 /\
   extract_phase_wt_frac "g" (Demo.quartz_only Demo.X0) = 0 /\
   extract_end_member_mol_frac "g" (Demo.quartz_only Demo.X0) "py" = 0) /\
  extract_end_member_mol_frac "g" (Demo.assemblage (Demo.frac 1 8) Demo.X0) "andr" = 0.
Proof.
  split.
  - apply (proj1 (extractors_absent_zero "g" "py" (Demo.quartz_only Demo.X0))).
    by_decide.
  - apply (proj2 (extractors_absent_zero "g" "andr"
                    (Demo.assemblage (Demo.frac 1 8) Demo.X0))).
    intros i ss Hi Hss. simpl in Hi. injection Hi as <-.
    simpl in Hss. injection Hss as <-. by_decide.
Defined.



Lemma oxides_replaced_bulk_kept_witness :
  exists r st st',
    Demo.evaluated Demo.T3 "vol" 1 Demo.P3 1 = Some r /\
    Demo.locals Demo.T3 "vol" 1 Demo.P3 !! 1%nat = Some st /\
    Demo.locals Demo.T3 "vol" 1 Demo.P3 !! 2%nat = Some st' /\
    Xoxides st = ["FeO"; "SiO2"; "MgO"] /\
    Xoxides st' = oxides (r_out r) /\
    X st' = X st /\
    (forall r' Pj Tj,
       Demo.evaluated Demo.T3 "vol" 1 Demo.P3 2 = Some r' ->
       Demo.P3 !! 2%nat = Some Pj -> Demo.T3 !! 2%nat = Some Tj ->
       Demo.solver Pj Tj tt (X st) (oxides (r_out r)) "vol" = Some (r_out r')).
Proof.
  eexists _, _, _. split; [computes|]. split; [computes|]. split; [computes|].
  split; [reflexivity|].
  apply (oxides_replaced_bulk_kept Demo.solver Demo.molar_fractions
           Demo.T3 tt "vol" 1 Demo.P3 Demo.X0 Demo.Xoxides0 1).
  - reflexivity.
  - computes.
  - vm_compute. reflexivity.
  - by_decide.
  - by_decide.
  - computes.
  - computes.
Defined.

(** The steady stand-in solver meets the completion conditions: with it
    every path covered by the temperature array runs to the end, whatever
    the basis flag and the fractionation switch. *)
Example steady_path_completes (T P : list Qc) (sys_in : string)
    (fractionate : Z) (X1 : list Qc) (Xox1 : list string) :
  (length P <= length T)%nat ->
  is_Some (garnet_over_path Demo.steady Demo.molar_fractions T tt sys_in
             fractionate P X1 Xox1).
Proof.
  apply path_completes.
  - intros r. eexists. split; [reflexivity|].
    split_and!; by eexists.
  - intros Pj Tj X2 Xox2. eexists. split; [reflexivity|].
    intros gi Hgi. injection Hgi as <-. split.
    + eexists. computes.
    + eexists. split; [reflexivity|]. done.
Qed.

(** ** Further facts about the extractors *)

(** X1. [extract_end_member_wt_frac] returns 0 when the phase is not in
    the assemblage, and when the end-member is not in the end-member
    list of the entry the phase selects (in particular when the phase has
    no entry in [SS_vec] at all). *)
Theorem end_member_wt_absent_zero (phase end_member : string) (out : MAGEMinOutput) :
  phase ∉ ph out \/ end_member_absent phase out end_member ->
  extract_end_member_wt_frac out phase end_member = 0.
Proof.
  unfold extract_end_member_wt_frac. intros [Habs|Habs].
  - by rewrite (index_None _ _ Habs).
  - destruct (index phase (ph out)) as [i|] eqn:Hi; [|done]. simpl.
    destruct (SS_vec out !! i) as [ss|] eqn:Hss; [|done]. simpl.
    by rewrite (index_None _ _ (Habs i ss Hi Hss)).
Qed.

Lemma end_member_wt_absent_zero_witness :
  extract_end_member_wt_frac (Demo.quartz_only Demo.X0) "g" "py" = 0 /\
  extract_end_member_wt_frac (Demo.assemblage (Demo.frac 1 8) Demo.X0) "q" "py" = 0.
Proof.
  split.
  - apply end_member_wt_absent_zero. left. by_decide.
  - apply end_member_wt_absent_zero. right.
    intros i ss Hi Hss. vm_compute in Hi. injection Hi as <-.
    vm_compute in Hss. discriminate Hss.
Defined.

Lemma mapM_None_elem {A B} (f : A -> option B) (l : list A) (x : A) :
  x ∈ l -> f x = None -> mapM f l = None.
Proof.
  intros Hin Hf. apply mapM_None, Exists_exists. eauto.
Qed.

(** A row without a density entry makes the computation of its volume
    raise. *)
Lemma phase_volume_missing_density (out : MAGEMinOutput) (j : nat) (name : string) :
  ph out !! j = Some name -> rho_at out j = None ->
  phase_volume out name = None.
Proof.
  intros Hj Hrho. unfold phase_volume.
  destruct (positions name (ph out)) as [|j0 id] eqn:Hid.
  { apply positions_spec in Hj. rewrite Hid in Hj. by apply elem_of_nil in Hj. }
  rewrite (mapM_None_elem (rho_at out) (j0 :: id) j); [done| |done].
  rewrite <- Hid. by apply positions_spec.
Qed.

Lemma volume_fractions_missing_density (out : MAGEMinOutput) (j : nat) :
  (j < length (ph out))%nat -> rho_at out j = None ->
  mapM (phase_volume out) (ph out) = None.
Proof.
  intros Hj Hrho.
  destruct (lookup_lt_is_Some_2 (ph out) j Hj) as [name Hname].
  apply (mapM_None_elem _ _ name).
  - apply list_elem_of_lookup. eauto.
  - by eapply phase_volume_missing_density.
Qed.

(** X2. The volume query is not shielded like the other extractors.
    For a phase that is not in the assemblage it returns 0 when the
    reconstruction over the whole assemblage goes through; but a row of
    the assemblage without a density entry (its index is beyond [SS_vec]
    and [PP_vec]) makes the query raise, whatever phase is asked for,
    because the reconstruction runs outside the [try]. *)
Theorem vol_frac_not_shielded (phase : string) (out : MAGEMinOutput) :
  (phase ∉ ph out -> forall V, volume_fractions out = Some V ->
     extract_phase_vol_frac phase out = Some 0) /\
  (forall j, (j < length (ph out))%nat -> rho_at out j = None ->
     extract_phase_vol_frac phase out = None).
Proof.
  split.
  - intros Habs V HV. unfold extract_phase_vol_frac. rewrite HV. simpl.
    by rewrite (index_None _ _ Habs).
  - intros j Hj Hrho. unfold extract_phase_vol_frac, volume_fractions.
    by rewrite (volume_fractions_missing_density out j Hj Hrho).
Qed.

Lemma vol_frac_not_shielded_witness :
  extract_phase_vol_frac "g" (Demo.quartz_only Demo.X0) = Some 0 /\
  extract_phase_vol_frac "g" Cases.unlisted_quartz = None.
Proof.
  split.
  - eapply (proj1 (vol_frac_not_shielded "g" (Demo.quartz_only Demo.X0))).
    + by_decide.
    + computes.
  - apply (proj2 (vol_frac_not_shielded "g" Cases.unlisted_quartz) 0%nat).
    + simpl. lia.
    + reflexivity.
Defined.

Lemma np_normalize_Some (Vr V : list Qc) :
  np_normalize Vr = Some V -> V = map (fun v => v / qsum Vr) Vr.
Proof.
  unfold np_normalize. destruct Vr as [|v0 Vr]; [by intros [= <-]|].
  case_decide; [done|]. by intros [= <-].
Qed.

(** X3. Rows of the assemblage that carry the same phase name get the
    same reconstructed volume fraction. *)
Theorem vol_frac_same_name_rows (out : MAGEMinOutput) (V : list Qc)
    (name : string) (i j : nat) :
  volume_fractions out = Some V ->
  ph out !! i = Some name -> ph out !! j = Some name ->
  V !! i = V !! j.
Proof.
  unfold volume_fractions. intros HV Hi Hj.
  destruct (mapM (phase_volume out) (ph out)) as [Vr|] eqn:HVr; [|done].
  cbn [mbind option_bind] in HV.
  apply mapM_Some in HVr.
  destruct (Forall2_lookup_l _ _ _ _ _ HVr Hi) as (v & Hv & Hpv).
  destruct (Forall2_lookup_l _ _ _ _ _ HVr Hj) as (v' & Hv' & Hpv').
  assert (v' = v) as -> by congruence.
  apply np_normalize_Some in HV as ->.
  by rewrite !list_lookup_fmap, Hv, Hv'.
Qed.

Lemma vol_frac_same_name_rows_witness :
  exists V,
    volume_fractions Cases.two_feldspars = Some V /\
    V !! 0%nat = V !! 1%nat.
Proof.
  eexists. split; [computes|].
  eapply (vol_frac_same_name_rows Cases.two_feldspars _ "fsp" 0 1);
    [computes|reflexivity|reflexivity].
Defined.

Lemma qsum_lookup_le (l : list Qc) (i : nat) (x : Qc) :
  Forall (Qclt 0) l -> l !! i = Some x -> x <= qsum l.
Proof.
  intros Hl. revert i. induction Hl as [|y l Hy Hl IH]; intros i Hi.
  - by rewrite lookup_nil in Hi.
  - simpl. destruct i as [|i]; simpl in Hi.
    + injection Hi as ->. destruct l as [|z l].
      * simpl. rewrite Qcplus_0_r. apply Qcle_refl.
      * apply Qclt_le_weak. rewrite <- (Qcplus_0_r x) at 1.
        apply Qcplus_lt_mono_l. apply qsum_pos; [done|]. done.
    + apply Qcle_trans with (qsum l); [by eapply IH|].
      rewrite <- (Qcplus_0_l (qsum l)) at 1.
      apply Qcplus_le_mono_r. by apply Qclt_le_weak.
Qed.

(** X4. For a well-formed solver result every reconstructed volume
    fraction lies in (0, 1]. *)
Theorem vol_frac_bounds (out : MAGEMinOutput) (V : list Qc) (i : nat) (v : Qc) :
  well_formed out ->
  volume_fractions out = Some V -> V !! i = Some v ->
  0 < v /\ v <= 1.
Proof.
  intros Hwf HV Hv. pose proof Hwf as (Hne & _).
  destruct (mapM_pos (phase_volume out) (ph out)) as (Vr & HVr & Hpos & Hlen).
  { intros name Hin. by apply phase_volume_pos. }
  assert (HVne : Vr <> []).
  { intros ->. destruct (ph out); [done|discriminate]. }
  destruct (np_normalize_sum Vr HVne Hpos) as [Hnorm _].
  unfold volume_fractions in HV. rewrite HVr in HV. cbn [mbind option_bind] in HV.
  rewrite Hnorm in HV. injection HV as <-.
  rewrite list_lookup_fmap in Hv.
  destruct (Vr !! i) as [x|] eqn:Hx; [|done]. injection Hv as <-.
  pose proof (Forall_lookup_1 _ _ _ _ Hpos Hx) as Hxpos.
  pose proof (qsum_pos Vr HVne Hpos) as Htot.
  pose proof (qsum_lookup_le Vr i x Hpos Hx) as Hle.
  split.
  - apply Qcmult_pos_pos; [done|]. by apply Qcinv_pos.
  - unfold Qcdiv.
    apply Qcle_trans with (qsum Vr * / qsum Vr).
    + apply Qcmult_le_mono_nonneg_r; [|done].
      apply Qclt_le_weak. by apply Qcinv_pos.
    + rewrite Qcmult_inv_r; [apply Qcle_refl|].
      intros Heq. rewrite Heq in Htot. by apply Qclt_not_eq in Htot.
Qed.

Lemma vol_frac_bounds_witness :
  exists V v,
    volume_fractions (Demo.assemblage (Demo.frac 1 8) Demo.X0) = Some V /\
    V !! 0%nat = Some v /\ 0 < v /\ v <= 1.
Proof.
  eexists _, _. split; [computes|]. split; [computes|].
  eapply (vol_frac_bounds (Demo.assemblage (Demo.frac 1 8) Demo.X0) _ 0).
  - unfold well_formed. simpl. split_and!; try done.
    all: repeat constructor.
  - computes.
  - computes.
Defined.

(** X5. [get_phase_comp_wt] reads the same field as [get_phase_comp_mol]:
    for a phase with an entry in [SS_vec] both return that entry's
    [Comp], never its [Comp_wt]; for a phase that is not in the
    assemblage both return the float 0. *)
Theorem phase_comp_wt_is_mol (phase : string) (out : MAGEMinOutput) :
  get_phase_comp_wt phase out = get_phase_comp_mol phase out /\
  (forall i ss, index phase (ph out) = Some i -> SS_vec out !! i = Some ss ->
     get_phase_comp_wt phase out = Composition (Comp ss)) /\
  (phase ∉ ph out -> get_phase_comp_wt phase out = NoComposition).
Proof.
  split_and!.
  - done.
  - intros i ss Hi Hss. unfold get_phase_comp_wt. by rewrite Hi; simpl; rewrite Hss.
  - intros Habs. unfold get_phase_comp_wt. by rewrite (index_None _ _ Habs).
Qed.

Lemma phase_comp_wt_is_mol_witness :
  get_phase_comp_wt "g" (Demo.assemblage (Demo.frac 1 8) Demo.X0)
    = Composition (Comp Demo.garnet) /\
  Comp Demo.garnet <> Comp_wt Demo.garnet /\
  get_phase_comp_wt "g" (Demo.quartz_only Demo.X0) = NoComposition.
Proof.
  destruct (phase_comp_wt_is_mol "g" (Demo.assemblage (Demo.frac 1 8) Demo.X0))
    as (_ & Hfound & _).
  destruct (phase_comp_wt_is_mol "g" (Demo.quartz_only Demo.X0)) as (_ & _ & Habs).
  split_and!.
  - apply (Hfound 0%nat); reflexivity.
  - by_decide.
  - apply Habs. by_decide.
Defined.

(** ** Shapes in the bulk update *)

Lemma np_binop_Some (f : Qc -> Qc -> Qc) (a b r : list Qc) :
  np_binop f a b = Some r ->
  (length a = length b \/ length a = 1%nat \/ length b = 1%nat) /\
  length r = if decide (length a = 1%nat) then length b else length a.
Proof.
  unfold np_binop. case_decide as Hlen.
  - intros [= <-]. split; [by left|].
    rewrite length_zip_with. case_decide; lia.
  - destruct a as [|x [|x' a]]; destruct b as [|y [|y' b]]; simpl in *;
      intros [= <-]; simpl; rewrite ?length_map; split; try done; auto.
Qed.

Lemma np_binop_None (f : Qc -> Qc -> Qc) (a b : list Qc) :
  np_binop f a b = None <->
  length a <> length b /\ length a <> 1%nat /\ length b <> 1%nat.
Proof.
  unfold np_binop. case_decide as Hlen.
  - split; [done|]. intros (? & _). done.
  - destruct a as [|x [|x' a]]; destruct b as [|y [|y' b]]; simpl in *;
      split; try done; try (intros (? & ? & ?); done).
Qed.

(** X17. The expression [bulk - (bulk * comp * d)] raises exactly when
    the bulk vector and the garnet composition have different lengths
    and neither has length one; when it does not raise, a bulk vector of
    length one is widened to the length of the composition, and
    otherwise the result has the length of the bulk vector. *)
Theorem deplete_shapes (b c : list Qc) (d : Qc) :
  (deplete b c d = None <->
     length b <> length c /\ length b <> 1%nat /\ length c <> 1%nat) /\
  (forall X', deplete b c d = Some X' ->
     length X' = if decide (length b = 1%nat) then length c else length b).
Proof.
  unfold deplete. split.
  - destruct (np_binop Qcmult b c) as [prod|] eqn:Hprod; cbn [mbind option_bind].
    + apply np_binop_Some in Hprod as [Hshape Hlen]. split.
      * intros Hnone. apply np_binop_None in Hnone as (H1 & H2 & H3).
        unfold np_scale in *. rewrite length_map in *.
        case_decide; lia.
      * intros (? & ? & ?). lia.
    + by rewrite <- np_binop_None.
  - intros X' H.
    destruct (np_binop Qcmult b c) as [prod|] eqn:Hprod; cbn [mbind option_bind] in H;
      [|done].
    apply np_binop_Some in Hprod as [Hshape Hlen].
    apply np_binop_Some in H as [_ HX]. unfold np_scale in HX.
    rewrite length_map in HX. rewrite HX. repeat case_decide; lia.
Qed.

Lemma deplete_shapes_witness :
  deplete Demo.X0 [1; 1] 0 = None /\
  exists X', deplete [1] Demo.X0 0 = Some X' /\ length X' = 3%nat.
Proof.
  split.
  - apply (proj1 (deplete_shapes Demo.X0 [1; 1] 0)). simpl. lia.
  - eexists. split; [computes|].
    apply (proj2 (deplete_shapes [1] Demo.X0 0)). computes.
Defined.

(** ** The further statements on concrete paths *)

Lemma returned_arrays_sized_witness :
  exists res, Demo.path Demo.T3 "wt" 1 Demo.P3 = Some res /\
    Forall (fun a => length a = 3%nat) (returned_arrays res).
Proof.
  eexists. split; [computes|].
  apply (returned_arrays_sized Demo.solver Demo.molar_fractions
           Demo.T3 tt "wt" 1 Demo.P3 Demo.X0 Demo.Xoxides0).
  computes.
Defined.

Lemma short_temperature_raises_witness :
  garnet_over_path Demo.solver Demo.molar_fractions [Demo.frac 600 1] tt "wt" 0
    Demo.P3 Demo.X0 Demo.Xoxides0 = None.
Proof. apply short_temperature_raises. simpl. lia. Defined.

Lemma only_True_fractionates_witness :
  Demo.path Demo.T3 "wt" 2 Demo.P3 = Demo.path Demo.T3 "wt" 0 Demo.P3.
Proof. apply only_True_fractionates. lia. Defined.

Lemma solver_failure_is_fatal_witness :
  garnet_over_path Cases.flaky Demo.molar_fractions Demo.T3 tt "wt" 0
    Demo.P3 Demo.X0 Demo.Xoxides0 = None.
Proof.
  eapply (solver_failure_is_fatal Cases.flaky Demo.molar_fractions
            Demo.T3 tt "wt" 0 Demo.P3 Demo.X0 Demo.Xoxides0 1).
  - computes.
  - reflexivity.
  - reflexivity.
  - computes.
Defined.

Lemma unfractionated_path_is_pointwise_witness :
  exists res, Demo.path Demo.T3 "wt" 0 Demo.P3 = Some res /\
  exists r0 ri,
    gt_single_point_calc_endmembers Demo.solver 0 (Demo.frac 600 1) tt
      Demo.X0 Demo.Xoxides0 "wt" = Some r0 /\
    gt_single_point_calc_endmembers Demo.solver (Demo.frac 3 25) (Demo.frac 700 1) tt
      Demo.X0 Demo.Xoxides0 "wt" = Some ri /\
    out_gt_mol_frac res !! 2%nat = Some (r_gt_frac ri - r_gt_frac r0) /\
    out_gt_wt_frac res !! 2%nat = Some (r_gt_wt ri - r_gt_wt r0) /\
    out_gt_vol_frac res !! 2%nat = Some (r_gt_vol ri - r_gt_vol r0).
Proof.
  eexists. split; [computes|].
  apply (unfractionated_path_is_pointwise Demo.solver Demo.molar_fractions
           Demo.T3 tt "wt" 0 Demo.P3 Demo.X0 Demo.Xoxides0 _ 2).
  - reflexivity.
  - computes.
  - reflexivity.
  - reflexivity.
  - reflexivity.
  - reflexivity.
Defined.

Lemma path_elements_match_single_point_witness :
  exists res st e,
    Demo.path Demo.T3 "wt" 1 Demo.P3 = Some res /\
    Demo.locals Demo.T3 "wt" 1 Demo.P3 !! 2%nat = Some st /\
    gt_single_point_calc_elements Demo.solver Demo.molar_fractions
      (Demo.frac 3 25) (Demo.frac 700 1) tt (X st) (Xoxides st) "wt" = Some e /\
    out_Mgi res !! 2%nat = Some (e_Mg e) /\ out_Mni res !! 2%nat = Some (e_Mn e) /\
    out_Fei res !! 2%nat = Some (e_Fe e) /\ out_Cai res !! 2%nat = Some (e_Ca e).
Proof.
  eexists _, _.
  assert (Hrun : Demo.path Demo.T3 "wt" 1 Demo.P3 = Some _) by computes.
  assert (Hst : Demo.locals Demo.T3 "wt" 1 Demo.P3 !! 2%nat = Some _) by computes.
  destruct (path_elements_match_single_point Demo.solver Demo.molar_fractions
              Demo.T3 tt "wt" 1 Demo.P3 Demo.X0 Demo.Xoxides0 _ 2 _
              (Demo.frac 3 25) (Demo.frac 700 1) Hrun Hst eq_refl eq_refl)
    as (e & He).
  exists e. split; [exact Hrun|]. split; [exact Hst|]. exact He.
Defined.

Lemma first_point_adopts_solver_bulk_witness :
  exists st',
    path_states Cases.normalising Demo.molar_fractions Demo.T2 tt "wt" 1
      Demo.P2 Cases.Xpercent Demo.Xoxides0 !! 1%nat = Some st' /\
    X st' = Demo.X0.
Proof.
  eexists. split; [computes|].
  eapply (first_point_adopts_solver_bulk Cases.normalising Demo.molar_fractions
            Demo.T2 tt "wt" 1 Demo.P2 Cases.Xpercent Demo.Xoxides0 _ _ 0 Demo.garnet
            Demo.X0 (Comp_wt Demo.garnet) 0).
  - reflexivity.
  - computes.
  - vm_compute. reflexivity.
  - computes.
  - computes.
  - computes.
  - left. split_and!; [reflexivity|by_decide|reflexivity|by_decide].
  - reflexivity.
Defined.

Lemma shrinking_garnet_updates_bulk_witness :
  exists st',
    Demo.locals Demo.T2 "wt" 1 Cases.Pdown !! 2%nat = Some st' /\
    exists x, X st' !! 0%nat = Some x /\
      x = Demo.frac 1 4 - Demo.frac 1 4 * Demo.frac 2 5 * Demo.frac (-1) 4 /\
      Demo.frac 1 4 <= x.
Proof.
  eexists. split; [computes|].
  eapply (shrinking_garnet_updates_bulk Demo.solver Demo.molar_fractions
            Demo.T2 tt "wt" 1 Cases.Pdown Demo.X0 Demo.Xoxides0 1 _ _ 0
            Demo.garnet Demo.X0 (Comp_wt Demo.garnet) (Demo.frac (-1) 4)
            0 (Demo.frac 1 4) (Demo.frac 2 5)).
  - reflexivity.
  - computes.
  - vm_compute. reflexivity.
  - computes.
  - computes.
  - computes.
  - left. split_and!; [reflexivity|by_decide|reflexivity|by_decide].
  - reflexivity.
  - by_decide.
  - by_decide.
  - vm_compute. reflexivity.
  - vm_compute. discriminate.
  - vm_compute. discriminate.
Defined.

Lemma growing_garnet_depletes_bulk_witness :
  exists st',
    Demo.locals Demo.T3 "wt" 1 Demo.P3 !! 3%nat = Some st' /\
    exists x, X st' !! 1%nat = Some x /\ x <= Demo.frac 147 250 /\
      (Demo.frac 2 5 * Demo.frac 7 100 <= 1 -> 0 <= x).
Proof.
  eexists. split; [computes|].
  eapply (growing_garnet_depletes_bulk Demo.solver Demo.molar_fractions
            Demo.T3 tt "wt" 1 Demo.P3 Demo.X0 Demo.Xoxides0 2 _ _ 0
            Demo.garnet _ (Comp_wt Demo.garnet) (Demo.frac 7 100)
            1 (Demo.frac 147 250) (Demo.frac 2 5)).
  - reflexivity.
  - computes.
  - vm_compute. reflexivity.
  - computes.
  - computes.
  - computes.
  - left. split_and!; [reflexivity|reflexivity|reflexivity|by_decide].
  - reflexivity.
  - by_decide.
  - by_decide.
  - vm_compute. discriminate.
  - vm_compute. discriminate.
  - vm_compute. discriminate.
Defined.

(** ** The grid functions *)

Ltac opt_inv H :=
  repeat match type of H with
  | mbind _ ?e = Some _ =>
      let E := fresh "E" in
      destruct e eqn:E; cbn [mbind option_bind] in H; [|discriminate H]
  end.

Lemma grid_point_same (o : MAGEMinOutput) (v : Qc) (a b : grid_endmembers) (j : nat) :
  grid_same a b j -> grid_point o v b j -> grid_point o v a j.
Proof.
  unfold grid_same, grid_point.
  intros (-> & -> & -> & -> & -> & -> & -> & ->). done.
Qed.

Lemma grid_same_trans (a b c : grid_endmembers) (j : nat) :
  grid_same a b j -> grid_same b c j -> grid_same a c j.
Proof.
  unfold grid_same.
  intros (-> & -> & -> & -> & -> & -> & -> & ->). done.
Qed.

(** What one iteration of the grid loop reads and writes. *)
Lemma grid_endmembers_step_inv (out : list MAGEMinOutput) (i : nat)
    (a a' : grid_endmembers) :
  grid_endmembers_step out i a = Some a' ->
  exists o v,
    out !! i = Some o /\
    extract_phase_vol_frac "g" o = Some v /\
    (forall n, grid_sized n a -> (i < n)%nat /\ grid_sized n a') /\
    grid_point o v a' i /\
    (forall j, j <> i -> grid_same a' a j).
Proof.
  intros H. unfold grid_endmembers_step in H. opt_inv H.
  injection H as <-.
  repeat match goal with
    | H : setitem _ _ _ = Some _ |- _ => apply setitem_Some in H as [? ->]
    end.
  eexists _, _. split; [reflexivity|]. split; [eassumption|].
  unfold grid_sized, grid_point, grid_same. simpl. split_and!.
  - intros n (L1 & L2 & L3 & L4 & L5 & L6 & L7 & L8).
    rewrite !length_insert. split; [lia|done].
  - by apply list_lookup_insert_eq.
  - by apply list_lookup_insert_eq.
  - by apply list_lookup_insert_eq.
  - by apply list_lookup_insert_eq.
  - by apply list_lookup_insert_eq.
  - by apply list_lookup_insert_eq.
  - by apply list_lookup_insert_eq.
  - by apply list_lookup_insert_eq.
  - intros j Hj. rewrite !list_lookup_insert_ne by done. done.
Qed.

(** The grid loop over the indices [i .. i + count - 1]. *)
Lemma grid_endmembers_loop_inv (out : list MAGEMinOutput) (count : nat) :
  forall (i n : nat) (a a' : grid_endmembers),
  grid_endmembers_loop out count i a = Some a' -> grid_sized n a ->
  grid_sized n a' /\
  (count = 0%nat \/ i + count <= n)%nat /\
  (forall j, (i <= j < i + count)%nat ->
     exists o v, out !! j = Some o /\ extract_phase_vol_frac "g" o = Some v /\
       grid_point o v a' j) /\
  (forall j, (j < i \/ i + count <= j)%nat -> grid_same a' a j).
Proof.
  induction count as [|count IH]; intros i n a a' Hloop Hsz; simpl in Hloop.
  - injection Hloop as <-. split_and!; [done|by left|intros; lia|].
    intros j _. unfold grid_same. done.
  - opt_inv Hloop. rename g into a1.
    apply grid_endmembers_step_inv in E
      as (o & v & Ho & Hv & Hsized & Hpoint & Hsame).
    destruct (Hsized n Hsz) as [Hi Hsz1].
    destruct (IH (S i) n a1 a' Hloop Hsz1) as (Hsz' & Hbound & Hpts & Hrest).
    split_and!.
    + done.
    + right. destruct Hbound as [->|?]; lia.
    + intros j Hj. destruct (decide (j = i)) as [->|Hne].
      * exists o, v. split_and!; [done..|].
        apply (grid_point_same _ _ _ a1); [|done]. apply Hrest. lia.
      * apply Hpts. lia.
    + intros j Hj. apply (grid_same_trans _ a1).
      * apply Hrest. lia.
      * apply Hsame. lia.
Qed.

Lemma grid_zeros_sized (n : nat) : grid_sized n (grid_zeros n).
Proof.
  unfold grid_sized, grid_zeros, np_zeros. simpl.
  rewrite !length_replicate. done.
Qed.

Section GridFacts.

Context {Data : Type}.
Variable single_point_minimization :
  Qc -> Qc -> Data -> list Qc -> list string -> string -> option MAGEMinOutput.
Variable multi_point_minimization :
  list Qc -> list Qc -> Data -> list Qc -> list string -> string ->
  option (list MAGEMinOutput).
Variable calculate_molar_fractions : gmap string Qc -> option (gmap string Qc).
Variables (P T : list Qc) (data : Data) (X : list Qc) (Xoxides : list string)
  (sys_in : string).

Local Abbreviation grid :=
  (generate_2D_grid_endmembers multi_point_minimization P T data X Xoxides sys_in).
Local Abbreviation batch :=
  (multi_point_minimization P T data X Xoxides sys_in).

Lemma grid_Some (e : grid_endmembers) :
  grid = Some e ->
  exists out, batch = Some out /\
    grid_endmembers_loop out (length T) 0 (grid_zeros (length P)) = Some e.
Proof.
  unfold generate_2D_grid_endmembers. intros H. opt_inv H. eauto.
Qed.

(** X19. When [generate_2D_grid_endmembers] completes, its eight arrays
    have the length of [P]; every index below the length of [T] holds
    what the extractors read from the solver result of the same index,
    independently of the other points; every index from the length of
    [T] on is still 0. *)
Theorem grid_is_pointwise (e : grid_endmembers) :
  grid = Some e ->
  exists out, batch = Some out /\
    grid_sized (length P) e /\
    (forall j, (j < length T)%nat ->
       exists o v, out !! j = Some o /\
         extract_phase_vol_frac "g" o = Some v /\ grid_point o v e j) /\
    (forall j, (length T <= j < length P)%nat ->
       grid_same e (grid_zeros (length P)) j /\
       g_gt_mol_frac e !! j = Some 0).
Proof.
  intros Hgrid. apply grid_Some in Hgrid as (out & Hout & Hloop).
  exists out. split; [done|].
  destruct (grid_endmembers_loop_inv _ _ _ _ _ _ Hloop (grid_zeros_sized _))
    as (Hsz & _ & Hpts & Hrest).
  split_and!; [done| |].
  - intros j Hj. apply Hpts. lia.
  - intros j Hj. assert (Hsame : grid_same e (grid_zeros (length P)) j).
    { apply Hrest. lia. }
    split; [done|]. destruct Hsame as (-> & _). simpl.
    apply lookup_replicate_2. lia.
Qed.

(** X20. A temperature array longer than the pressure array makes
    [generate_2D_grid_endmembers] raise. *)
Theorem grid_long_temperature_raises :
  (length P < length T)%nat ->
  generate_2D_grid_endmembers multi_point_minimization P T data X Xoxides sys_in
  = None.
Proof.
  intros Hlong. destruct grid as [e|] eqn:Hgrid; [|done]. exfalso.
  apply grid_Some in Hgrid as (out & Hout & Hloop).
  destruct (grid_endmembers_loop_inv _ _ _ _ _ _ Hloop (grid_zeros_sized _))
    as (_ & Hbound & _).
  lia.
Qed.

Lemma absent_garnet_reads_zero (o : MAGEMinOutput) (v : Qc) :
  "g" ∉ ph o -> extract_phase_vol_frac "g" o = Some v ->
  extract_phase_mol_frac "g" o = 0 /\ extract_phase_wt_frac "g" o = 0 /\
  v = 0 /\
  forall em, extract_end_member_mol_frac "g" o em = 0.
Proof.
  intros Habs Hv.
  unfold extract_phase_mol_frac, extract_phase_wt_frac,
    extract_end_member_mol_frac, extract_phase_vol_frac in *.
  rewrite (index_None _ _ Habs) in *. split_and!; try done.
  destruct (volume_fractions o); [|done]. simpl in Hv. by injection Hv as <-.
Qed.

(** X21. The grid agrees with the single-point evaluator: where the
    batched solver's result at an index below the length of [T] is the
    result the single-point solver gives for some point, the grid arrays
    hold at that index the eight numbers
    [gt_single_point_calc_endmembers] returns for that point, with or
    without garnet in the assemblage. *)
Theorem grid_matches_single_point (e : grid_endmembers)
    (out : list MAGEMinOutput) (j : nat) (o : MAGEMinOutput) (Pj Tj : Qc) :
  grid = Some e ->
  batch = Some out -> out !! j = Some o -> (j < length T)%nat ->
  single_point_minimization Pj Tj data X Xoxides sys_in = Some o ->
  exists r,
    gt_single_point_calc_endmembers single_point_minimization
      Pj Tj data X Xoxides sys_in = Some r /\
    r_out r = o /\
    g_gt_mol_frac e !! j = Some (r_gt_frac r) /\
    g_gt_wt_frac e !! j = Some (r_gt_wt r) /\
    g_gt_vol_frac e !! j = Some (r_gt_vol r) /\
    g_py_arr e !! j = Some (r_py r) /\
    g_alm_arr e !! j = Some (r_alm r) /\
    g_spss_arr e !! j = Some (r_spss r) /\
    g_gr_arr e !! j = Some (r_gr r) /\
    g_kho_arr e !! j = Some (r_kho r).
Proof.
  intros Hgrid Hout Ho Hj Hsingle.
  apply grid_Some in Hgrid as (out' & Hout' & Hloop).
  assert (out' = out) as -> by congruence.
  destruct (grid_endmembers_loop_inv _ _ _ _ _ _ Hloop (grid_zeros_sized _))
    as (_ & _ & Hpts & _).
  destruct (Hpts j ltac:(lia)) as (o' & v & Ho' & Hv & Hpoint).
  assert (o' = o) as -> by congruence.
  destruct Hpoint as (H1 & H2 & H3 & H4 & H5 & H6 & H7 & H8).
  unfold gt_single_point_calc_endmembers. rewrite Hsingle.
  cbn [mbind option_bind]. case_decide as Hg.
  - rewrite Hv. cbn [mbind option_bind]. eexists. split; [reflexivity|].
    simpl. split_and!; done.
  - destruct (absent_garnet_reads_zero o v Hg Hv) as (Z1 & Z2 & -> & Zem).
    eexists. split; [reflexivity|]. simpl.
    rewrite H1, H2, H3, H4, H5, H6, H7, H8, Z1, Z2, !Zem. split_and!; done.
Qed.

(** X22. The grid reconstructs the volume fractions at every point, the
    single-point evaluator only where garnet is listed: a point with a
    row that has no density entry makes the whole grid raise even when
    its assemblage has no garnet, while the single-point evaluator
    returns its zeros for such a result. *)
Theorem grid_needs_every_volume (out : list MAGEMinOutput) (j k : nat)
    (o : MAGEMinOutput) :
  batch = Some out -> out !! j = Some o -> (j < length T)%nat ->
  (k < length (ph o))%nat -> rho_at o k = None ->
  grid = None /\
  (forall Pj Tj X1 Xox1,
     "g" ∉ ph o ->
     single_point_minimization Pj Tj data X1 Xox1 sys_in = Some o ->
     exists r,
       gt_single_point_calc_endmembers single_point_minimization
         Pj Tj data X1 Xox1 sys_in = Some r /\
       r_gt_frac r = 0 /\ r_gt_wt r = 0 /\ r_gt_vol r = 0 /\ r_out r = o).
Proof.
  intros Hout Ho Hj Hk Hrho. split.
  - destruct grid as [e|] eqn:Hgrid; [|done]. exfalso.
    apply grid_Some in Hgrid as (out' & Hout' & Hloop).
    assert (out' = out) as -> by congruence.
    destruct (grid_endmembers_loop_inv _ _ _ _ _ _ Hloop (grid_zeros_sized _))
      as (_ & _ & Hpts & _).
    destruct (Hpts j ltac:(lia)) as (o' & v & Ho' & Hv & _).
    assert (o' = o) as -> by congruence.
    unfold extract_phase_vol_frac, volume_fractions in Hv.
    by rewrite (volume_fractions_missing_density o k Hk Hrho) in Hv.
  - intros Pj Tj X1 Xox1 Hg Hsingle.
    unfold gt_single_point_calc_endmembers. rewrite Hsingle.
    cbn [mbind option_bind]. rewrite decide_False by done.
    eexists. split; [reflexivity|]. done.
Qed.

Local Abbreviation grid_elements_run :=
  (generate_2D_grid_elements multi_point_minimization calculate_molar_fractions
     P T data X Xoxides sys_in).

Lemma element_point_same (e : grid_endmembers) (a b : grid_element_arrays) (j : nat) :
  element_same a b j -> element_point calculate_molar_fractions e b j ->
  element_point calculate_molar_fractions e a j.
Proof.
  unfold element_same, element_point.
  intros (-> & -> & -> & ->). done.
Qed.

Lemma grid_elements_step_inv (e : grid_endmembers) (i : nat)
    (a a' : grid_element_arrays) :
  grid_elements_step calculate_molar_fractions e i a = Some a' ->
  (forall n, element_sized n a -> element_sized n a') /\
  element_point calculate_molar_fractions e a' i /\
  (forall j, j <> i -> element_same a' a j).
Proof.
  intros H. unfold grid_elements_step in H. opt_inv H.
  injection H as <-.
  repeat match goal with
    | H : setitem _ _ _ = Some _ |- _ => apply setitem_Some in H as [? ->]
    end.
  unfold element_sized, element_point, element_same. simpl. split_and!.
  - intros n (L1 & L2 & L3 & L4). rewrite !length_insert. done.
  - do 6 eexists. split_and!; try reflexivity; try eassumption;
      try (by eexists); by rewrite list_lookup_insert_eq.
  - intros j Hj. rewrite !list_lookup_insert_ne by done. done.
Qed.

Lemma grid_elements_loop_inv (e : grid_endmembers) (count : nat) :
  forall (i n : nat) (a a' : grid_element_arrays),
  grid_elements_loop calculate_molar_fractions e count i a = Some a' ->
  element_sized n a ->
  element_sized n a' /\
  (forall j, (i <= j < i + count)%nat ->
     element_point calculate_molar_fractions e a' j) /\
  (forall j, (j < i \/ i + count <= j)%nat -> element_same a' a j).
Proof.
  induction count as [|count IH]; intros i n a a' Hloop Hsz; simpl in Hloop.
  - injection Hloop as <-. split_and!; [done|intros; lia|].
    intros j _. unfold element_same. done.
  - opt_inv Hloop. rename g into a1.
    apply grid_elements_step_inv in E as (Hsized & Hpoint & Hsame).
    destruct (IH (S i) n a1 a' Hloop (Hsized n Hsz)) as (Hsz' & Hpts & Hrest).
    split_and!; [done| |].
    + intros j Hj. destruct (decide (j = i)) as [->|Hne].
      * apply (element_point_same _ _ a1); [|done]. apply Hrest. lia.
      * apply Hpts. lia.
    + intros j Hj.
      destruct (Hrest j ltac:(lia)) as (R1 & R2 & R3 & R4).
      destruct (Hsame j ltac:(lia)) as (S1 & S2 & S3 & S4).
      unfold element_same. rewrite R1, R2, R3, R4. done.
Qed.

(** X23. When [generate_2D_grid_elements] completes, its three garnet
    arrays are those of [generate_2D_grid_endmembers], and at every
    index of [P] its four element arrays hold the converter's Mg, Mn, Fe
    and Ca for the end-member fractions found at that index; where [T]
    is shorter than [P], the indices from the length of [T] on hold the
    converter's answer for an all-zero garnet next to a garnet fraction
    of 0. *)
Theorem grid_elements_pointwise (ge : grid_elements) :
  grid_elements_run = Some ge ->
  exists e,
    grid = Some e /\
    gel_gt_mol_frac ge = g_gt_mol_frac e /\
    gel_gt_wt_frac ge = g_gt_wt_frac e /\
    gel_gt_vol_frac ge = g_gt_vol_frac e /\
    (forall j, (j < length P)%nat ->
       element_point calculate_molar_fractions e (element_arrays_of ge) j) /\
    (forall j, (length T <= j < length P)%nat ->
       gel_gt_mol_frac ge !! j = Some 0 /\
       exists mole_fractions,
         calculate_molar_fractions no_garnet_fractions = Some mole_fractions /\
         gel_Mgi ge !! j = mole_fractions !! "Mg" /\
         gel_Mni ge !! j = mole_fractions !! "Mn" /\
         gel_Fei ge !! j = mole_fractions !! "Fe" /\
         gel_Cai ge !! j = mole_fractions !! "Ca").
Proof.
  unfold generate_2D_grid_elements. intros H. opt_inv H. rename g into e, g0 into a.
  injection H as <-. simpl. exists e. split; [done|].
  pose proof E as Hgrid. apply grid_Some in Hgrid as (out & Hout & Hloop).
  destruct (grid_endmembers_loop_inv _ _ _ _ _ _ Hloop (grid_zeros_sized _))
    as (Hsz & _ & _ & Hrest).
  pose proof Hsz as (_ & _ & _ & Lpy & _).
  rewrite Lpy in E0.
  assert (Hzsz : element_sized (length P)
            {| ge_Mgi := np_zeros (length P); ge_Mni := np_zeros (length P);
               ge_Fei := np_zeros (length P); ge_Cai := np_zeros (length P) |}).
  { unfold element_sized, np_zeros. simpl. rewrite !length_replicate. done. }
  destruct (grid_elements_loop_inv _ _ _ _ _ _ E0 Hzsz) as (_ & Hpts & _).
  assert (Hall : forall j, (j < length P)%nat ->
            element_point calculate_molar_fractions e a j).
  { intros j Hj. apply Hpts. lia. }
  split_and!; [done..| |].
  - intros j Hj. unfold element_arrays_of. simpl. destruct a. by apply Hall.
  - intros j Hj.
    destruct (Hrest j ltac:(lia)) as (Hm & _ & _ & Hpy & Halm & Hspss & Hgr & Hkho).
    simpl in *. unfold np_zeros in *.
    rewrite lookup_replicate_2 in Hm, Hpy, Halm, Hspss, Hgr, Hkho by lia.
    split; [done|].
    destruct (Hall j ltac:(lia))
      as (py & alm & gr & spss & kho & mf & Hpy' & Halm' & Hgr' & Hspss' & Hkho'
          & Hmf & _ & HMg & _ & HMn & _ & HFe & _ & HCa).
    assert (py = 0) as -> by congruence.
    assert (alm = 0) as -> by congruence.
    assert (gr = 0) as -> by congruence.
    assert (spss = 0) as -> by congruence.
    assert (kho = 0) as -> by congruence.
    exists mf. split_and!; done.
Qed.

End GridFacts.

(** ** The grid functions on concrete grids *)

Lemma grid_is_pointwise_witness :
  exists e,
    generate_2D_grid_endmembers Cases.batch Demo.P3 Demo.T2 tt
      Demo.X0 Demo.Xoxides0 "wt" = Some e /\
    exists out,
      Cases.batch Demo.P3 Demo.T2 tt Demo.X0 Demo.Xoxides0 "wt" = Some out /\
      grid_sized (length Demo.P3) e /\
      (forall j, (j < length Demo.T2)%nat ->
         exists o v, out !! j = Some o /\
           extract_phase_vol_frac "g" o = Some v /\ grid_point o v e j) /\
      (forall j, (length Demo.T2 <= j < length Demo.P3)%nat ->
         grid_same e (grid_zeros (length Demo.P3)) j /\
         g_gt_mol_frac e !! j = Some 0).
Proof.
  eexists. split; [computes|].
  apply (grid_is_pointwise Cases.batch Demo.P3 Demo.T2 tt Demo.X0 Demo.Xoxides0 "wt").
  computes.
Defined.

Lemma grid_long_temperature_raises_witness :
  generate_2D_grid_endmembers Cases.batch Demo.P2 Demo.T3 tt
    Demo.X0 Demo.Xoxides0 "wt" = None.
Proof. apply grid_long_temperature_raises. simpl. lia. Defined.

Lemma grid_matches_single_point_witness :
  exists e r,
    generate_2D_grid_endmembers Cases.batch Demo.P3 Demo.T3 tt
      Demo.X0 Demo.Xoxides0 "wt" = Some e /\
    gt_single_point_calc_endmembers Demo.solver (Demo.frac 1 20) (Demo.frac 650 1)
      tt Demo.X0 Demo.Xoxides0 "wt" = Some r /\
    g_gt_mol_frac e !! 1%nat = Some (r_gt_frac r) /\
    g_gt_vol_frac e !! 1%nat = Some (r_gt_vol r) /\
    g_py_arr e !! 1%nat = Some (r_py r).
Proof.
  eexists.
  assert (Hgrid : generate_2D_grid_endmembers Cases.batch Demo.P3 Demo.T3 tt
                    Demo.X0 Demo.Xoxides0 "wt" = Some _) by computes.
  assert (Hout : Cases.batch Demo.P3 Demo.T3 tt Demo.X0 Demo.Xoxides0 "wt" = Some _)
    by computes.
  destruct (grid_matches_single_point Demo.solver Cases.batch Demo.P3 Demo.T3 tt
              Demo.X0 Demo.Xoxides0 "wt" _ _ 1 _ (Demo.frac 1 20) (Demo.frac 650 1)
              Hgrid Hout eq_refl ltac:(simpl; lia) eq_refl)
    as (r & Hr & _ & H1 & _ & H3 & H4 & _).
  exists r. split_and!; [exact Hgrid|exact Hr|exact H1|exact H3|exact H4].
Defined.

Lemma grid_needs_every_volume_witness :
  generate_2D_grid_endmembers Cases.batch_bad Demo.P2 Demo.T2 tt
    Demo.X0 Demo.Xoxides0 "wt" = None /\
  ("g" ∉ ph Cases.unlisted_quartz).
Proof.
  split; [|by_decide].
  eapply (proj1 (grid_needs_every_volume Demo.solver Cases.batch_bad Demo.P2 Demo.T2
                   tt Demo.X0 Demo.Xoxides0 "wt" _ 1 0 Cases.unlisted_quartz
                   eq_refl eq_refl ltac:(simpl; lia) ltac:(simpl; lia) eq_refl)).
Defined.

Lemma grid_elements_pointwise_witness :
  exists ge,
    generate_2D_grid_elements Cases.batch Demo.molar_fractions Demo.P3 Demo.T2 tt
      Demo.X0 Demo.Xoxides0 "wt" = Some ge /\
    gel_gt_mol_frac ge !! 2%nat = Some 0 /\
    exists mole_fractions,
      Demo.molar_fractions no_garnet_fractions = Some mole_fractions /\
      gel_Mgi ge !! 2%nat = mole_fractions !! "Mg" /\
      gel_Mni ge !! 2%nat = mole_fractions !! "Mn" /\
      gel_Fei ge !! 2%nat = mole_fractions !! "Fe" /\
      gel_Cai ge !! 2%nat = mole_fractions !! "Ca".
Proof.
  eexists.
  assert (Hrun : generate_2D_grid_elements Cases.batch Demo.molar_fractions
                   Demo.P3 Demo.T2 tt Demo.X0 Demo.Xoxides0 "wt" = Some _) by computes.
  destruct (grid_elements_pointwise Cases.batch Demo.molar_fractions Demo.P3 Demo.T2
              tt Demo.X0 Demo.Xoxides0 "wt" _ Hrun) as (e & _ & _ & _ & _ & _ & Htail).
  split; [exact Hrun|]. apply (Htail 2%nat). simpl. lia.
Defined.

Lemma path_extension_keeps_prefix_witness :
  exists res2,
    garnet_over_path Demo.solver Demo.molar_fractions Demo.T3 tt "wt" 1
      (Cases.P_head ++ Cases.P_more) Demo.X0 Demo.Xoxides0 = Some res2 /\
    garnet_over_path Demo.solver Demo.molar_fractions Demo.T3 tt "wt" 1
      Cases.P_head Demo.X0 Demo.Xoxides0
    = Some (truncated (length Cases.P_head) res2).
Proof.
  eexists. split; [computes|].
  apply path_extension_keeps_prefix with (Q := Cases.P_more). computes.
Defined.

